(** * music_bot: playlists, playback state and end-of-track policy

    Shallow embedding of [playlist_manager.py], [discord_client.py],
    [utils.py], the video id of [youtube_utils.py], and the playback and
    editing parts of [gui.py].

    Conventions of the embedding:
    - a Python exception is a value of [exn]; a call runs in the monad
      [M S A := S -> result A * S], which keeps the mutations made before a
      raise, as Python does;
    - an insertion-ordered [dict] with string keys is an association list
      whose keys are pairwise distinct;
    - a [str] is the [string] of its UTF-8 bytes, and a file is the
      [string] of its bytes; a lone surrogate code point, which has no
      UTF-8 form, is held as the three bytes the scheme of UTF-8 gives it,
      and the codec refuses it ([utf8_valid]);
    - lists and dicts are held by value; where the code changes a record
      in place, the statements say which other records they speak of
      ([inside]);
    - the limits of the interpreter (recursion depth, memory) are not
      modelled;
    - the wall clock [time.time()] is an explicit argument of type [Q]
      (floats are read as the rationals they denote, float rounding is not
      modelled); [int(x)] truncates toward zero. *)

From Stdlib Require Import ZArith QArith Qround List String Ascii Bool Lia Lqa.
From Stdlib Require DecimalString.
Import ListNotations.

Local Open Scope string_scope.
Local Open Scope Z_scope.

Set Warnings "-register-all".

(* ================================================================== *)
(** * Python prelude *)
(* ================================================================== *)

Module Py.

Inductive exn : Type :=
| KeyError (key : string)
| IndexError
| TypeError
| AttributeError (attr : string)
| OSError
| JSONDecodeError
| UnicodeEncodeError
| UnicodeDecodeError
| TclError
| ExtractorError
| ClientException.

Inductive result (A : Type) : Type :=
| Ok (a : A)
| Raise (e : exn).
Arguments Ok {A} a.
Arguments Raise {A} e.

(** State-and-exception monad: the state reached when the exception is
    raised is kept. *)
Definition M (S A : Type) : Type := S -> result A * S.

Definition ret {S A} (a : A) : M S A := fun s => (Ok a, s).

Definition bind {S A B} (m : M S A) (k : A -> M S B) : M S B :=
  fun s => match m s with
           | (Ok a, s') => k a s'
           | (Raise e, s') => (Raise e, s')
           end.

Definition raise {S A} (e : exn) : M S A := fun s => (Raise e, s).
Definition get {S} : M S S := fun s => (Ok s, s).
Definition put {S} (s : S) : M S unit := fun _ => (Ok tt, s).
Definition modify {S} (f : S -> S) : M S unit := fun s => (Ok tt, f s).

(** [try: m except Exception: h] *)
Definition try_except {S A} (m : M S A) (h : exn -> M S A) : M S A :=
  fun s => match m s with
           | (Ok a, s') => (Ok a, s')
           | (Raise e, s') => h e s'
           end.

(** Lift a pure fallible computation. *)
Definition lift {S A} (r : result A) : M S A := fun s => (r, s).

Definition len {A} (l : list A) : Z := Z.of_nat (List.length l).

(** [l[i]] for a Python list: negative indices count from the end. *)
Definition getitem {A} (l : list A) (i : Z) : result A :=
  let j := if i <? 0 then i + len l else i in
  if (0 <=? j) && (j <? len l)
  then match nth_error l (Z.to_nat j) with
       | Some a => Ok a
       | None => Raise IndexError
       end
  else Raise IndexError.

Fixpoint replace_nth {A} (n : nat) (a : A) (l : list A) : list A :=
  match l, n with
  | [], _ => []
  | _ :: t, O => a :: t
  | h :: t, S n' => h :: replace_nth n' a t
  end.

(** [l[i] = a] *)
Definition setitem {A} (l : list A) (i : Z) (a : A) : result (list A) :=
  let j := if i <? 0 then i + len l else i in
  if (0 <=? j) && (j <? len l)
  then Ok (replace_nth (Z.to_nat j) a l)
  else Raise IndexError.

Fixpoint remove_nth {A} (n : nat) (l : list A) : list A :=
  match l, n with
  | [], _ => []
  | _ :: t, O => t
  | h :: t, S n' => h :: remove_nth n' t
  end.

(** [l[i], l[j] = l[j], l[i]]: the right-hand side is read left to right,
    then the two targets are assigned left to right. *)
Definition swap_items {A} (l : list A) (i j : Z) : result (list A) :=
  match getitem l j with
  | Raise e => Raise e
  | Ok aj =>
      match getitem l i with
      | Raise e => Raise e
      | Ok ai =>
          match setitem l i aj with
          | Raise e => Raise e
          | Ok l1 => setitem l1 j ai
          end
      end
  end.

(** ** Insertion-ordered dictionaries with string keys *)

Definition dict (A : Type) : Type := list (string * A).

Definition keys {A} (d : dict A) : list string := map fst d.

Fixpoint dict_get {A} (k : string) (d : dict A) : option A :=
  match d with
  | [] => None
  | (k', v) :: t => if String.eqb k k' then Some v else dict_get k t
  end.

(** [k in d] *)
Definition dict_in {A} (k : string) (d : dict A) : bool :=
  match dict_get k d with Some _ => true | None => false end.

(** [d[k]] *)
Definition dict_getitem {A} (k : string) (d : dict A) : result A :=
  match dict_get k d with Some v => Ok v | None => Raise (KeyError k) end.

(** [d[k] = v]: an existing key keeps its position, a new key goes last. *)
Fixpoint dict_set {A} (k : string) (v : A) (d : dict A) : dict A :=
  match d with
  | [] => [(k, v)]
  | (k', v') :: t =>
      if String.eqb k k' then (k', v) :: t else (k', v') :: dict_set k v t
  end.

Fixpoint dict_remove {A} (k : string) (d : dict A) : dict A :=
  match d with
  | [] => []
  | (k', v') :: t =>
      if String.eqb k k' then t else (k', v') :: dict_remove k t
  end.

(** [d.pop(k)] *)
Definition dict_pop {A} (k : string) (d : dict A) : result (A * dict A) :=
  match dict_get k d with
  | Some v => Ok (v, dict_remove k d)
  | None => Raise (KeyError k)
  end.

(** The keys of a list of pairs are pairwise distinct, as those of a
    [dict] are. *)
Fixpoint distinct (l : list string) : bool :=
  match l with
  | [] => true
  | k :: t => negb (existsb (String.eqb k) t) && distinct t
  end.

(** [dict(pairs)] *)
Definition dict_of_pairs {A} (ps : list (string * A)) : dict A :=
  fold_left (fun d kv => dict_set (fst kv) (snd kv) d) ps [].

End Py.

Export Py.

Declare Scope py_scope.
Delimit Scope py_scope with py.
Notation "x <- m ;; k" := (bind m (fun x => k))
  (at level 61, m at next level, right associativity) : py_scope.
Notation "m ;;; k" := (bind m (fun _ => k))
  (at level 61, right associativity) : py_scope.
Local Open Scope py_scope.

(* ================================================================== *)
(** * The [json] library, as far as [playlist_manager.py] uses it *)
(* ================================================================== *)

Module Json.

(** Values that [json.load] yields and [json.dump] accepts.  Numbers are
    left out: a playlist file holds strings and [null] in its track
    records.  [loads] says so when it comes to a number (see [parsed]). *)
Inductive json : Type :=
| JNull
| JBool (b : bool)
| JStr (s : string)
| JArr (items : list json)
| JObj (members : list (string * json)).

Definition dquote : ascii := "034"%char.
Definition backslash : ascii := "092"%char.
Definition newline : ascii := "010"%char.

(** ** [json.dumps(obj, ensure_ascii=False, indent=2)] *)

Definition hex_digit (n : N) : ascii :=
  (if n <? 10 then ascii_of_N (48 + n) else ascii_of_N (87 + n))%N.

(** [ESCAPE_DCT] of [json.encoder]: the quote, the backslash and the
    control characters are escaped, every other character is copied. *)
Definition escape_char (c : ascii) : string :=
  let n := N_of_ascii c in
  if Ascii.eqb c dquote then String backslash (String dquote "")
  else if Ascii.eqb c backslash then String backslash (String backslash "")
  else if (n =? 8)%N then String backslash "b"
  else if (n =? 12)%N then String backslash "f"
  else if (n =? 10)%N then String backslash "n"
  else if (n =? 13)%N then String backslash "r"
  else if (n =? 9)%N then String backslash "t"
  else if (n <? 32)%N
       then String backslash
              (String "u" (String "0" (String "0"
                 (String (hex_digit (n / 16)) (String (hex_digit (n mod 16)) "")))))
  else String c "".

Fixpoint escape (s : string) : string :=
  match s with
  | EmptyString => EmptyString
  | String c r => escape_char c ++ escape r
  end.

Definition encode_string (s : string) : string :=
  String dquote (escape s ++ String dquote "").

Fixpoint spaces (n : nat) : string :=
  match n with O => "" | S n' => String " " (spaces n') end.

(** ['\n' + indent * level] with [indent = 2] spaces. *)
Definition newline_indent (level : nat) : string :=
  String newline (spaces (2 * level)).

(** The second and later items of a list, each after a comma and the
    line break [sep]; [enc] prints one item. *)
Definition encode_items (enc : json -> string) (sep : string)
  : list json -> string :=
  fix go (l : list json) : string :=
    match l with
    | [] => ""
    | y :: ys => "," ++ sep ++ enc y ++ go ys
    end.

(** The second and later members of a dict. *)
Definition encode_members (enc : json -> string) (sep : string)
  : list (string * json) -> string :=
  fix go (l : list (string * json)) : string :=
    match l with
    | [] => ""
    | (k, y) :: ys => "," ++ sep ++ encode_string k ++ ": " ++ enc y ++ go ys
    end.

(** [_iterencode]: an empty container is printed as [[]] or [{}]; the items
    of a non-empty one each start on a line of their own, one level
    deeper, separated by a comma, and a key is followed by a colon and a
    space. *)
Fixpoint encode (level : nat) (v : json) : string :=
  match v with
  | JNull => "null"
  | JBool true => "true"
  | JBool false => "false"
  | JStr s => encode_string s
  | JArr [] => "[]"
  | JArr (x :: xs) =>
      "[" ++ newline_indent (S level) ++ encode (S level) x
      ++ encode_items (encode (S level)) (newline_indent (S level)) xs
      ++ newline_indent level ++ "]"
  | JObj [] => "{}"
  | JObj ((k, x) :: xs) =>
      "{" ++ newline_indent (S level) ++ encode_string k ++ ": "
      ++ encode (S level) x
      ++ encode_members (encode (S level)) (newline_indent (S level)) xs
      ++ newline_indent level ++ "}"
  end.

Definition dumps (v : json) : string := encode 0 v.

(** ** [json.dump]: the chunks of [iterencode]

    [json.dump] writes the text piece by piece, [fp.write(chunk)] for each
    chunk that [_iterencode] yields. *)

(** An item of a list, after [buf] (the opening bracket or the comma, and
    the line break): a string, [null], [true] or [false] is yielded
    together with [buf]; for a list or a dict [buf] is yielded first, then
    the chunks of the item. *)
Definition item_chunks (ch : json -> list string) (buf : string) (y : json)
  : list string :=
  match y with
  | JNull => [buf ++ "null"]
  | JBool true => [buf ++ "true"]
  | JBool false => [buf ++ "false"]
  | JStr s => [buf ++ encode_string s]
  | JArr _ | JObj _ => buf :: ch y
  end.

(** The second and later items of a list. *)
Definition chunk_items (ch : json -> list string) (sep : string)
  : list json -> list string :=
  fix go (l : list json) : list string :=
    match l with
    | [] => []
    | y :: ys => List.app (item_chunks ch ("," ++ sep) y) (go ys)
    end.

(** The second and later members of a dict: the separator, the key and
    the colon are chunks of their own. *)
Definition chunk_members (ch : json -> list string) (sep : string)
  : list (string * json) -> list string :=
  fix go (l : list (string * json)) : list string :=
    match l with
    | [] => []
    | (k, y) :: ys =>
        ("," ++ sep) :: encode_string k :: ": " :: List.app (ch y) (go ys)
    end.

(** [_iterencode], [_iterencode_list] and [_iterencode_dict]. *)
Fixpoint chunks (level : nat) (v : json) : list string :=
  match v with
  | JNull => ["null"]
  | JBool true => ["true"]
  | JBool false => ["false"]
  | JStr s => [encode_string s]
  | JArr [] => ["[]"]
  | JArr (x :: xs) =>
      List.app
        (item_chunks (chunks (S level)) ("[" ++ newline_indent (S level)) x)
        (List.app
           (chunk_items (chunks (S level)) (newline_indent (S level)) xs)
           [newline_indent level; "]"])
  | JObj [] => ["{}"]
  | JObj ((k, x) :: xs) =>
      "{" :: newline_indent (S level) :: encode_string k :: ": "
      :: List.app
           (chunks (S level) x)
           (List.app
              (chunk_members (chunks (S level)) (newline_indent (S level)) xs)
              [newline_indent level; "}"])
  end.

(** [s1 + s2 + ...] *)
Fixpoint join (l : list string) : string :=
  match l with
  | [] => ""
  | c :: cs => c ++ join cs
  end.

(** ** The codec [utf8]

    A [str] is held as the string of its UTF-8 bytes; a lone surrogate
    code point, which [json.loads] builds from an escape such as
    [\ud800], is held as the three bytes the scheme of UTF-8 gives it
    (see [utf8] below).  Such a string is not well-formed UTF-8:
    [str.encode] refuses it, and no file decodes to it. *)

Definition between (lo hi : N) (c : ascii) : bool :=
  ((lo <=? N_of_ascii c) && (N_of_ascii c <=? hi))%N.

(** Well-formed UTF-8 (the strict codec): no overlong forms, no
    surrogates, nothing above U+10FFFF. *)
Fixpoint utf8_valid (s : string) : bool :=
  match s with
  | EmptyString => true
  | String b0 r =>
      let n := N_of_ascii b0 in
      if (n <? 128)%N then utf8_valid r
      else if between 194 223 b0 then
        match r with
        | String b1 r1 => between 128 191 b1 && utf8_valid r1
        | _ => false
        end
      else if between 224 239 b0 then
        match r with
        | String b1 (String b2 r2) =>
            between (if (n =? 224)%N then 160 else 128)
                    (if (n =? 237)%N then 159 else 191) b1
            && between 128 191 b2 && utf8_valid r2
        | _ => false
        end
      else if between 240 244 b0 then
        match r with
        | String b1 (String b2 (String b3 r3)) =>
            between (if (n =? 240)%N then 144 else 128)
                    (if (n =? 244)%N then 143 else 191) b1
            && between 128 191 b2 && between 128 191 b3 && utf8_valid r3
        | _ => false
        end
      else false
  end.

(** Every string of the value, keys included, can be encoded. *)
Fixpoint utf8_json (v : json) : bool :=
  match v with
  | JStr s => utf8_valid s
  | JArr l => forallb utf8_json l
  | JObj l => forallb (fun kv => utf8_valid (fst kv) && utf8_json (snd kv)) l
  | _ => true
  end.

(** ** [json.loads] *)

Definition is_ws (c : ascii) : bool :=
  let n := N_of_ascii c in
  ((n =? 32) || (n =? 9) || (n =? 10) || (n =? 13))%N.

Fixpoint skip_ws (s : string) : string :=
  match s with
  | EmptyString => s
  | String c r => if is_ws c then skip_ws r else s
  end.

Fixpoint strip_prefix (p s : string) : option string :=
  match p, s with
  | EmptyString, _ => Some s
  | String a p', String b s' => if Ascii.eqb a b then strip_prefix p' s' else None
  | String _ _, EmptyString => None
  end.

Definition hex_val (c : ascii) : option N :=
  let n := N_of_ascii c in
  (if (48 <=? n) && (n <=? 57) then Some (n - 48)
   else if (97 <=? n) && (n <=? 102) then Some (n - 87)
   else if (65 <=? n) && (n <=? 70) then Some (n - 55)
   else None)%N.

Definition hex4 (a b c d : ascii) : option N :=
  match hex_val a, hex_val b, hex_val c, hex_val d with
  | Some x, Some y, Some z, Some w => Some (((x * 16 + y) * 16 + z) * 16 + w)%N
  | _, _, _, _ => None
  end.

(** [BACKSLASH] of [json.decoder]. *)
Definition unescape (e : ascii) : option ascii :=
  let n := N_of_ascii e in
  (if Ascii.eqb e dquote then Some dquote
   else if Ascii.eqb e backslash then Some backslash
   else if n =? 47 then Some "/"%char
   else if n =? 98 then Some (ascii_of_N 8)
   else if n =? 102 then Some (ascii_of_N 12)
   else if n =? 110 then Some (ascii_of_N 10)
   else if n =? 114 then Some (ascii_of_N 13)
   else if n =? 116 then Some (ascii_of_N 9)
   else None)%N.

(** What [scanstring] reads: a character copied from the text or the code
    unit of a [\uXXXX] escape. *)
Inductive tok : Type :=
| Raw (c : ascii)
| Esc (cp : N).

(** The body of a string literal, after its opening quote, up to and
    including the closing quote (strict mode: a control character inside
    the literal is an error). *)
Fixpoint scan (s : string) : option (list tok * string) :=
  match s with
  | EmptyString => None
  | String c r =>
      if Ascii.eqb c dquote then Some ([], r)
      else if Ascii.eqb c backslash then
        match r with
        | EmptyString => None
        | String e r1 =>
            if Ascii.eqb e "u" then
              match r1 with
              | String h1 (String h2 (String h3 (String h4 r2))) =>
                  match hex4 h1 h2 h3 h4 with
                  | Some n =>
                      match scan r2 with
                      | Some (ts, rest) => Some (Esc n :: ts, rest)
                      | None => None
                      end
                  | None => None
                  end
              | _ => None
              end
            else
              match unescape e with
              | Some ch =>
                  match scan r1 with
                  | Some (ts, rest) => Some (Raw ch :: ts, rest)
                  | None => None
                  end
              | None => None
              end
        end
      else if (N_of_ascii c <? 32)%N then None
      else
        match scan r with
        | Some (ts, rest) => Some (Raw c :: ts, rest)
        | None => None
        end
  end.

(** A high surrogate escape directly followed by a low surrogate escape
    stands for one code point. *)
Fixpoint combine_surrogates (ts : list tok) : list tok :=
  match ts with
  | Esc hi :: ((Esc lo :: ts2) as ts1) =>
      if ((55296 <=? hi) && (hi <=? 56319) && (56320 <=? lo) && (lo <=? 57343))%N
      then Esc (65536 + (hi - 55296) * 1024 + (lo - 56320))%N :: combine_surrogates ts2
      else Esc hi :: combine_surrogates ts1
  | t :: ts1 => t :: combine_surrogates ts1
  | [] => []
  end.

(** UTF-8 bytes of a code point. *)
Definition utf8 (cp : N) : string :=
  (if cp <? 128 then String (ascii_of_N cp) ""
   else if cp <? 2048 then
     String (ascii_of_N (192 + cp / 64)) (String (ascii_of_N (128 + cp mod 64)) "")
   else if cp <? 65536 then
     String (ascii_of_N (224 + cp / 4096))
       (String (ascii_of_N (128 + (cp / 64) mod 64))
          (String (ascii_of_N (128 + cp mod 64)) ""))
   else
     String (ascii_of_N (240 + cp / 262144))
       (String (ascii_of_N (128 + (cp / 4096) mod 64))
          (String (ascii_of_N (128 + (cp / 64) mod 64))
             (String (ascii_of_N (128 + cp mod 64)) ""))))%N.

Fixpoint render (ts : list tok) : string :=
  match ts with
  | [] => ""
  | Raw c :: ts' => String c (render ts')
  | Esc cp :: ts' => utf8 cp ++ render ts'
  end.

Definition scanstring (s : string) : option (string * string) :=
  match scan s with
  | Some (ts, rest) => Some (render (combine_surrogates ts), rest)
  | None => None
  end.

(** What the scanner makes of a text: a value and the text after it; a
    text that is not JSON; or a number literal where a value starts.
    Numbers are not among the values embedded here, and what [json] makes
    of such a text is left open. *)
Inductive parsed (A : Type) : Type :=
| Parsed (a : A) (rest : string)
| Malformed
| NumberAhead.
Arguments Parsed {A} a rest.
Arguments Malformed {A}.
Arguments NumberAhead {A}.

Definition is_digit (c : ascii) : bool := between 48 57 c.

Definition has_prefix (p s : string) : bool :=
  match strip_prefix p s with Some _ => true | None => false end.

(** Where [scan_once] goes on after [null], [true] and [false] did not
    match: [NUMBER_RE] (an optional minus sign, then a digit), [NaN],
    [Infinity] and [-Infinity]. *)
Definition number_ahead (s : string) : bool :=
  match s with
  | String c r =>
      is_digit c
      || (Ascii.eqb c "-" && match r with
                             | String d _ => is_digit d
                             | EmptyString => false
                             end)
      || has_prefix "NaN" s || has_prefix "Infinity" s
      || has_prefix "-Infinity" s
  | EmptyString => false
  end.

(** [scan_once], [JSONArray] and [JSONObject]; [fuel] bounds the nesting
    and the number of items, [loads] supplies more than the text is long. *)
Fixpoint parse_value (fuel : nat) (s : string) {struct fuel}
  : parsed json :=
  match fuel with
  | O => Malformed
  | S f =>
      match s with
      | EmptyString => Malformed
      | String c r =>
          if Ascii.eqb c dquote then
            match scanstring r with
            | Some (str, rest) => Parsed (JStr str) rest
            | None => Malformed
            end
          else if Ascii.eqb c "{" then
            match skip_ws r with
            | String c1 r1 =>
                if Ascii.eqb c1 "}" then Parsed (JObj []) r1
                else
                  match parse_members f (String c1 r1) with
                  | Parsed ps rest => Parsed (JObj (dict_of_pairs ps)) rest
                  | Malformed => Malformed
                  | NumberAhead => NumberAhead
                  end
            | EmptyString => Malformed
            end
          else if Ascii.eqb c "[" then
            match skip_ws r with
            | String c1 r1 =>
                if Ascii.eqb c1 "]" then Parsed (JArr []) r1
                else
                  match parse_elems f (String c1 r1) with
                  | Parsed vs rest => Parsed (JArr vs) rest
                  | Malformed => Malformed
                  | NumberAhead => NumberAhead
                  end
            | EmptyString => Malformed
            end
          else
            match strip_prefix "null" s with
            | Some rest => Parsed JNull rest
            | None =>
                match strip_prefix "true" s with
                | Some rest => Parsed (JBool true) rest
                | None =>
                    match strip_prefix "false" s with
                    | Some rest => Parsed (JBool false) rest
                    | None =>
                        if number_ahead s then NumberAhead else Malformed
                    end
                end
            end
      end
  end

with parse_elems (fuel : nat) (s : string) {struct fuel}
  : parsed (list json) :=
  match fuel with
  | O => Malformed
  | S f =>
      match parse_value f s with
      | Malformed => Malformed
      | NumberAhead => NumberAhead
      | Parsed v r =>
          match skip_ws r with
          | String c r1 =>
              if Ascii.eqb c "]" then Parsed [v] r1
              else if Ascii.eqb c "," then
                match parse_elems f (skip_ws r1) with
                | Parsed vs rest => Parsed (v :: vs) rest
                | Malformed => Malformed
                | NumberAhead => NumberAhead
                end
              else Malformed
          | EmptyString => Malformed
          end
      end
  end

with parse_members (fuel : nat) (s : string) {struct fuel}
  : parsed (list (string * json)) :=
  match fuel with
  | O => Malformed
  | S f =>
      match s with
      | EmptyString => Malformed
      | String q r =>
          if Ascii.eqb q dquote then
            match scanstring r with
            | None => Malformed
            | Some (key, r1) =>
                match skip_ws r1 with
                | String c r2 =>
                    if Ascii.eqb c ":" then
                      match parse_value f (skip_ws r2) with
                      | Malformed => Malformed
                      | NumberAhead => NumberAhead
                      | Parsed v r3 =>
                          match skip_ws r3 with
                          | String c3 r4 =>
                              if Ascii.eqb c3 "}" then Parsed [(key, v)] r4
                              else if Ascii.eqb c3 "," then
                                match parse_members f (skip_ws r4) with
                                | Parsed ps rest => Parsed ((key, v) :: ps) rest
                                | Malformed => Malformed
                                | NumberAhead => NumberAhead
                                end
                              else Malformed
                          | EmptyString => Malformed
                          end
                      end
                    else Malformed
                | EmptyString => Malformed
                end
            end
          else Malformed
      end
  end.

(** [json.loads]: one value, surrounded by white space only.  [None]
    when the scanner comes to a number literal. *)
Definition loads (s : string) : option (result json) :=
  match parse_value (S (String.length s)) (skip_ws s) with
  | Parsed v rest =>
      match skip_ws rest with
      | EmptyString => Some (Ok v)
      | String _ _ => Some (Raise JSONDecodeError)
      end
  | Malformed => Some (Raise JSONDecodeError)
  | NumberAhead => None
  end.

(** A value built from Python dicts: the keys of every object are
    pairwise distinct. *)
Fixpoint json_ok (v : json) : bool :=
  match v with
  | JArr l => forallb json_ok l
  | JObj l => distinct (map fst l) && forallb (fun kv => json_ok (snd kv)) l
  | _ => true
  end.

(** Number of nodes of a value, counting each item of a container twice;
    a bound on the fuel that parsing its text takes. *)
Fixpoint weight (v : json) : nat :=
  match v with
  | JArr l => S (list_sum (map (fun x => S (weight x)) l))
  | JObj l => S (list_sum (map (fun kv => S (weight (snd kv))) l))
  | _ => 1%nat
  end.

(** What [scan] reads back for a character the encoder wrote. *)
Definition tok_of (c : ascii) : tok :=
  let n := N_of_ascii c in
  if ((n <? 32) && negb ((n =? 8) || (n =? 9) || (n =? 10) || (n =? 12) || (n =? 13)))%N
  then Esc n
  else Raw c.

(** The tokens [scan] reads back for a string the encoder wrote. *)
Fixpoint toks (s : string) : list tok :=
  match s with
  | EmptyString => []
  | String c r => tok_of c :: toks r
  end.

(** An escape token the encoder can produce: a control character. *)
Definition small_tok (t : tok) : Prop :=
  match t with Esc n => (n < 32)%N | Raw _ => True end.

End Json.

Export Json.

(* ================================================================== *)
(** * playlist_manager.py *)
(* ================================================================== *)

Module PlaylistManager.

(** A track record is a [dict] ([title], [url], [vid]); a playlist is a list
    of tracks; the store maps playlist names to playlists. *)
Definition track : Type := dict json.
Definition store : Type := dict (list track).

(** The playlist file on disk: its text when it is a regular file, and
    whether it can be opened for writing. *)
Record File : Type := mkFile {
  content : option string;
  writable : bool
}.

(** The manager ([self._data]) together with the file at [self.path]. *)
Record PM : Type := mkPM {
  _data : store;
  disk : File
}.

Definition get_data : M PM store := fun s => (Ok (_data s), s).
Definition set_data (d : store) : M PM unit :=
  fun s => (Ok tt, mkPM d (disk s)).

Definition to_json (d : store) : json :=
  JObj (map (fun kv => (fst kv, JArr (map JObj (snd kv)))) d).

Fixpoint all_some {A} (l : list (option A)) : option (list A) :=
  match l with
  | [] => Some []
  | Some a :: t => match all_some t with Some r => Some (a :: r) | None => None end
  | None :: _ => None
  end.

Definition as_track (j : json) : option track :=
  match j with JObj ms => Some ms | _ => None end.

Definition as_playlist (j : json) : option (list track) :=
  match j with JArr items => all_some (map as_track items) | _ => None end.

(** The declared type of [_data] is [Dict[str, List[Dict[str, Any]]]]; a
    document of another shape has no counterpart in the typed store. *)
Definition of_json (j : json) : option store :=
  match j with
  | JObj ms =>
      all_some (map (fun kv => match as_playlist (snd kv) with
                               | Some p => Some (fst kv, p)
                               | None => None
                               end) ms)
  | _ => None
  end.

(** [fp.write(chunk)] for each chunk, after the text [written] so far: a
    chunk that cannot be encoded raises [UnicodeEncodeError], and the
    chunks before it stay written. *)
Fixpoint write_chunks (cs : list string) (written : string)
  : result unit * string :=
  match cs with
  | [] => (Ok tt, written)
  | c :: cs' =>
      if utf8_valid c then write_chunks cs' (written ++ c)
      else (Raise UnicodeEncodeError, written)
  end.

(** [with self.path.open("w", encoding="utf8") as f: json.dump(d, f, ...)]:
    opening the file empties it; when a write raises, the file is closed
    with what was written until then. *)
Definition write_file (d : store) : M PM unit :=
  fun s =>
    if writable (disk s)
    then match write_chunks (chunks 0 (to_json d)) "" with
         | (r, text) => (r, mkPM (_data s) (mkFile (Some text) true))
         end
    else (Raise OSError, s).

Definition save : M PM unit :=
  try_except
    (d <- get_data ;; write_file d)
    (fun exc => ret tt).

(** [f.read()] under [encoding="utf8"]: bytes that are not well-formed
    UTF-8 raise [UnicodeDecodeError]. *)
Definition decode_utf8 (bytes : string) : result string :=
  if utf8_valid bytes then Ok bytes else Raise UnicodeDecodeError.

(** [load]: any exception leaves the empty store.  [None] when the file
    holds a JSON document with a number in it, or one that is not of the
    store's declared type (the code would keep such a value in [_data]). *)
Definition load (s : PM) : option (result unit * PM) :=
  match content (disk s) with
  | Some bytes =>
      match decode_utf8 bytes with
      | Ok text =>
          match loads text with
          | Some (Ok j) =>
              match of_json j with
              | Some d => Some (Ok tt, mkPM d (disk s))
              | None => None
              end
          | Some (Raise exc) => Some (Ok tt, mkPM [] (disk s))
          | None => None
          end
      | Raise exc => Some (Ok tt, mkPM [] (disk s))
      end
  | None => Some (Ok tt, mkPM [] (disk s))
  end.

(** ** Playlist-level operations *)

Definition add_playlist (name : string) : M PM unit :=
  d <- get_data ;;
  if dict_in name d then ret tt
  else set_data (dict_set name [] d) ;;; save.

Definition rename_playlist (old new : string) : M PM unit :=
  d <- get_data ;;
  if negb (dict_in old d) || dict_in new d then ret tt
  else
    p <- lift (dict_pop old d) ;;
    set_data (dict_set new (fst p) (snd p)) ;;;
    save.

Definition delete_playlist (name : string) : M PM unit :=
  d <- get_data ;;
  if dict_in name d then
    p <- lift (dict_pop name d) ;;
    set_data (snd p) ;;;
    save
  else ret tt.

Fixpoint items_for {A} (d : dict A) (ks : list string)
  : result (list (string * A)) :=
  match ks with
  | [] => Ok []
  | k :: ks' =>
      match dict_getitem k d with
      | Raise e => Raise e
      | Ok v =>
          match items_for d ks' with
          | Raise e => Raise e
          | Ok r => Ok ((k, v) :: r)
          end
      end
  end.

Definition move_playlist (index delta : Z) : M PM unit :=
  d <- get_data ;;
  let ks := keys d in
  let new_idx := index + delta in
  if negb ((0 <=? new_idx) && (new_idx <? len ks)) then ret tt
  else
    ks' <- lift (swap_items ks index new_idx) ;;
    ps <- lift (items_for d ks') ;;
    set_data (dict_of_pairs ps) ;;;
    save.

(** ** Track-level operations *)

Definition _tracks (pl_name : string) : M PM (list track) :=
  d <- get_data ;;
  if negb (dict_in pl_name d)
  then raise (KeyError ("Playlist not found: " ++ pl_name))
  else lift (dict_getitem pl_name d).

(** The list returned by [_tracks] is the one stored in [_data]: a change
    made to it in place is a change of the store's entry.  No other entry
    holds that list: [add_playlist] and [load] put a list of their own
    under each name, and the other calls move the lists they find. *)
Definition update_tracks (pl_name : string) (ts : list track) : M PM unit :=
  d <- get_data ;;
  set_data (dict_set pl_name ts d).

Definition add_track (pl_name : string) (tr : track) : M PM unit :=
  tracks <- _tracks pl_name ;;
  update_tracks pl_name (tracks ++ [tr]) ;;;
  save.

(** [tracks[idx]["title"] = new_title] changes the record in place.  The
    store is held here by value, so the change is made at position [idx]
    of the list.  Where the same dict object is also held at another
    position, in another playlist, or inside another record ([add_track]
    keeps the caller's object), the code shows the new title there too:
    statements about what [rename_track] leaves alone are about the
    records that do not hold the renamed one (see [inside]). *)
Definition rename_track (pl_name : string) (idx : Z) (new_title : string)
  : M PM unit :=
  tracks <- _tracks pl_name ;;
  if (0 <=? idx) && (idx <? len tracks) then
    tr <- lift (getitem tracks idx) ;;
    tracks' <- lift (setitem tracks idx (dict_set "title" (JStr new_title) tr)) ;;
    update_tracks pl_name tracks' ;;;
    save
  else ret tt.

Definition delete_track (pl_name : string) (idx : Z) : M PM unit :=
  tracks <- _tracks pl_name ;;
  if (0 <=? idx) && (idx <? len tracks) then
    update_tracks pl_name (remove_nth (Z.to_nat idx) tracks) ;;;
    save
  else ret tt.

Definition move_track (pl_name : string) (idx delta : Z) : M PM unit :=
  tracks <- _tracks pl_name ;;
  let new_idx := idx + delta in
  if (0 <=? new_idx) && (new_idx <? len tracks) then
    tracks' <- lift (swap_items tracks idx new_idx) ;;
    update_tracks pl_name tracks' ;;;
    save
  else ret tt.

End PlaylistManager.

(* ================================================================== *)
(** * discord_client.py *)
(* ================================================================== *)

Module DiscordClient.

Import PlaylistManager.

(** [int(x)] on a float: truncation toward zero. *)
Definition py_int (x : Q) : Z := Z.quot (Qnum x) (Zpos (Qden x)).

(** ** PlayingState *)

(** Handle of an [ImageTk.PhotoImage]. *)
Definition Image : Type := nat.

(** The nine slots of the dataclass.  [None] is Python's [None]; the
    annotations give the type of every other value. *)
Record PlayingState : Type := mkPlayingState {
  title : option string;
  src_url : option string;
  thumb_url : option string;
  duration : option Z;
  start_time : option Q;
  paused : option bool;
  pause_at : option Q;
  preview_loaded : option Image;
  preview_loader_started : option bool
}.

(** [PlayingState()]: the generated [__init__] stores the declared
    defaults. *)
Definition PlayingState_init : PlayingState :=
  mkPlayingState (Some "") (Some "") (Some "") (Some 0) (Some 0%Q)
                 (Some false) (Some 0%Q) None (Some false).

(** [getattr(default, name, None)] where [default] comes from
    [PlayingState.__new__(PlayingState)].  The class is declared with
    [@dataclass(slots=True)]: the declared defaults are taken out of the
    class body (each name becomes a slot descriptor) and live on in
    [__init__] only, which [__new__] does not run.  Every slot of [default]
    is unset, reading it raises [AttributeError], and [getattr] returns its
    third argument. *)
Definition getattr_default {A : Type} (fallback : option A) : option A :=
  fallback.

(** [clear]: [setattr(self, name, getattr(default, name, None))] for each
    field. *)
Definition clear (self : PlayingState) : PlayingState :=
  mkPlayingState (getattr_default None) (getattr_default None)
                 (getattr_default None) (getattr_default None)
                 (getattr_default None) (getattr_default None)
                 (getattr_default None) (getattr_default None)
                 (getattr_default None).

(** [bool(x)] for a string-or-None and for a bool-or-None. *)
Definition truthy_str (x : option string) : bool :=
  match x with
  | Some s => negb (String.eqb s "")
  | None => false
  end.

Definition truthy_bool (x : option bool) : bool :=
  match x with Some b => b | None => false end.

Definition truthy_int (x : option Z) : bool :=
  match x with Some z => negb (z =? 0) | None => false end.

Definition is_playing (self : PlayingState) : bool := truthy_str (title self).

(** [a - b] on floats-or-None. *)
Definition float_sub (a b : option Q) : result Q :=
  match a, b with
  | Some x, Some y => Ok (x - y)%Q
  | _, _ => Raise TypeError
  end.

Definition elapsed_seconds (self : PlayingState) (now : Q) : result Z :=
  if negb (is_playing self) then Ok 0
  else if truthy_bool (paused self) then
    match float_sub (pause_at self) (start_time self) with
    | Ok d => Ok (py_int d)
    | Raise e => Raise e
    end
  else
    match float_sub (Some now) (start_time self) with
    | Ok d => Ok (py_int d)
    | Raise e => Raise e
    end.

(** ** The Discord client *)

(** State of a voice client's audio player. *)
Inductive player : Type :=
| Idle
| Playing (source : string)
| Paused (source : string).

Record VoiceClient : Type := mkVoiceClient {
  vc_channel : Z;
  vc_player : player
}.

Definition vc_is_playing (vc : VoiceClient) : bool :=
  match vc_player vc with Playing _ => true | _ => false end.

Definition vc_is_paused (vc : VoiceClient) : bool :=
  match vc_player vc with Paused _ => true | _ => false end.

Definition vc_pause (vc : VoiceClient) : VoiceClient :=
  match vc_player vc with
  | Playing src => mkVoiceClient (vc_channel vc) (Paused src)
  | _ => vc
  end.

Definition vc_resume (vc : VoiceClient) : VoiceClient :=
  match vc_player vc with
  | Paused src => mkVoiceClient (vc_channel vc) (Playing src)
  | _ => vc
  end.

Definition vc_stop (vc : VoiceClient) : VoiceClient :=
  mkVoiceClient (vc_channel vc) Idle.

Record Channel : Type := mkChannel {
  ch_id : Z;
  ch_is_voice : bool;
  ch_members : list Z;
  ch_connectable : bool
}.

Record Guild : Type := mkGuild {
  voice_channels : list Channel
}.

(** What the yt-dlp info dict gives to [start_playback]. *)
Record Info : Type := mkInfo {
  info_url : string;
  info_id : string;
  info_duration : option Z
}.

(** The module's globals: [bot], [PLAYING_STATE], the yt-dlp cache, the
    configuration constants, and the two outside parties (what yt-dlp
    extracts for a URL, which channels exist). *)
Record World : Type := mkWorld {
  voice_clients : list VoiceClient;
  all_channels : list Channel;
  guilds : list Guild;
  PLAYING_STATE : PlayingState;
  _ytdlp_cache : dict Info;
  extract_info : string -> option Info;
  VOICE_ID : Z;
  TARGET_USER_ID : Z
}.

Definition set_voice_clients (vcs : list VoiceClient) : M World unit :=
  fun w => (Ok tt, mkWorld vcs (all_channels w) (guilds w) (PLAYING_STATE w)
                     (_ytdlp_cache w) (extract_info w) (VOICE_ID w)
                     (TARGET_USER_ID w)).

Definition set_state (st : PlayingState) : M World unit :=
  fun w => (Ok tt, mkWorld (voice_clients w) (all_channels w) (guilds w) st
                     (_ytdlp_cache w) (extract_info w) (VOICE_ID w)
                     (TARGET_USER_ID w)).

Definition set_cache (c : dict Info) : M World unit :=
  fun w => (Ok tt, mkWorld (voice_clients w) (all_channels w) (guilds w)
                     (PLAYING_STATE w) c (extract_info w) (VOICE_ID w)
                     (TARGET_USER_ID w)).

Definition modify_state (f : PlayingState -> PlayingState) : M World unit :=
  w <- get ;; set_state (f (PLAYING_STATE w)).

(** A player command ([pause], [resume], [stop]) on the voice client a
    coroutine holds.  The client is [bot.voice_clients[0]]: [ensure_join]
    returns the first client, or the one it just connected when there was
    none.  A client that has left has no player to command. *)
Definition on_first_client (f : VoiceClient -> VoiceClient) : M World unit :=
  w <- get ;;
  match voice_clients w with
  | vc :: rest => set_voice_clients (f vc :: rest)
  | [] => ret tt
  end.

(** [bot.get_channel(id)] *)
Definition get_channel (id : Z) (w : World) : option Channel :=
  find (fun ch => ch_id ch =? id) (all_channels w).

(** [await ch.connect()] *)
Definition connect (ch : Channel) : M World (option VoiceClient) :=
  if ch_connectable ch then
    w <- get ;;
    let vc := mkVoiceClient (ch_id ch) Idle in
    set_voice_clients (voice_clients w ++ [vc]) ;;;
    ret (Some vc)
  else raise ClientException.

Definition has_member (target : Z) (ch : Channel) : bool :=
  existsb (fun m => m =? target) (ch_members ch).

Definition ensure_join : M World (option VoiceClient) :=
  w <- get ;;
  match voice_clients w with
  | vc :: _ => ret (Some vc)
  | [] =>
      let by_id :=
        if negb (VOICE_ID w =? 0) then
          match get_channel (VOICE_ID w) w with
          | Some ch => if ch_is_voice ch then Some ch else None
          | None => None
          end
        else None in
      match by_id with
      | Some ch => connect ch
      | None =>
          match find (has_member (TARGET_USER_ID w))
                     (flat_map voice_channels (guilds w)) with
          | Some ch => connect ch
          | None => ret None
          end
      end
  end.

(** [ytdlp_info] of youtube_utils.py, without its thumbnail fallback (the
    callers below read [url], [id] and [duration] only). *)
Definition ytdlp_info (url : string) : M World Info :=
  w <- get ;;
  match dict_get url (_ytdlp_cache w) with
  | Some info => ret info
  | None =>
      match extract_info w url with
      | Some info => set_cache (dict_set url info (_ytdlp_cache w)) ;;; ret info
      | None => raise ExtractorError
      end
  end.

(** [track[key]] where a string is needed (the URL given to yt-dlp). *)
Definition str_item (key : string) (tr : track) : result string :=
  match dict_get key tr with
  | Some (JStr s) => Ok s
  | Some _ => Raise TypeError
  | None => Raise (KeyError key)
  end.

(** [track[key]] stored in a field annotated [str]: a string or [None].  A
    value of another JSON type has no counterpart in the typed state. *)
Definition opt_str_item (key : string) (tr : track) : result (option string) :=
  match dict_get key tr with
  | Some (JStr s) => Ok (Some s)
  | Some JNull => Ok None
  | Some _ => Raise TypeError
  | None => Raise (KeyError key)
  end.

(** [vc.play(...)]: refused when the client has left or is playing. *)
Definition vc_play (source : string) : M World unit :=
  w <- get ;;
  match voice_clients w with
  | vc :: rest =>
      if vc_is_playing vc then raise ClientException
      else set_voice_clients (mkVoiceClient (vc_channel vc) (Playing source) :: rest)
  | [] => raise ClientException
  end.

(** Lines 158-167 of [start_playback]. *)
Definition update_state (tr : track) (info : Info) (now : Q) : M World unit :=
  modify_state clear ;;;
  t <- lift (opt_str_item "title" tr) ;;
  modify_state (fun st =>
    mkPlayingState t (src_url st) (thumb_url st) (duration st)
      (start_time st) (paused st) (pause_at st) (preview_loaded st)
      (preview_loader_started st)) ;;;
  u <- lift (opt_str_item "url" tr) ;;
  modify_state (fun st =>
    mkPlayingState (title st) u
      (Some ("https://i.ytimg.com/vi/" ++ info_id info ++ "/hqdefault.jpg"))
      (Some (match info_duration info with Some d => d | None => 0 end))
      (Some now) (paused st) (pause_at st) None (Some false)).

(** Where a call of [start_playback] stands when it gives control back to
    the event loop: done, or inside [await asyncio.sleep(0.2)]. *)
Inductive progress : Type :=
| Finished
| Sleeping (info : Info).

(** [start_playback] up to its return or up to the grace sleep.  [now] is
    the clock at line 163. *)
Definition start_playback_begin (tr : option track) (now : Q)
  : M World progress :=
  match tr with
  | None => ret Finished
  | Some [] => ret Finished
  | Some tr =>
      url <- lift (str_item "url" tr) ;;
      info <- ytdlp_info url ;;
      vc <- ensure_join ;;
      match vc with
      | None => ret Finished
      | Some vc0 =>
          if vc_is_playing vc0 then
            on_first_client vc_pause ;;;
            ret (Sleeping info)
          else
            (if vc_is_paused vc0 then on_first_client vc_stop else ret tt) ;;;
            vc_play (info_url info) ;;;
            update_state tr info now ;;;
            ret Finished
      end
  end.

(** The rest of [start_playback] once the grace sleep is over. *)
Definition start_playback_end (tr : track) (info : Info) (now : Q)
  : M World unit :=
  on_first_client vc_stop ;;;
  vc_play (info_url info) ;;;
  update_state tr info now.

(** A call of [start_playback] that no other coroutine interleaves with. *)
Definition start_playback (tr : option track) (now : Q) : M World unit :=
  p <- start_playback_begin tr now ;;
  match p, tr with
  | Sleeping info, Some t => start_playback_end t info now
  | _, _ => ret tt
  end.

Definition pause_toggle (now : Q) : M World unit :=
  w <- get ;;
  match voice_clients w with
  | [] => ret tt
  | vc :: _ =>
      if vc_is_playing vc then
        on_first_client vc_pause ;;;
        modify_state (fun st =>
          mkPlayingState (title st) (src_url st) (thumb_url st) (duration st)
            (start_time st) (Some true) (pause_at st) (preview_loaded st)
            (preview_loader_started st)) ;;;
        modify_state (fun st =>
          mkPlayingState (title st) (src_url st) (thumb_url st) (duration st)
            (start_time st) (paused st) (Some now) (preview_loaded st)
            (preview_loader_started st))
      else if vc_is_paused vc then
        on_first_client vc_resume ;;;
        w1 <- get ;;
        let st := PLAYING_STATE w1 in
        d <- lift (float_sub (Some now) (pause_at st)) ;;
        match start_time st with
        | Some s0 =>
            set_state
              (mkPlayingState (title st) (src_url st) (thumb_url st)
                 (duration st) (Some (s0 + d)%Q) (paused st) (pause_at st)
                 (preview_loaded st) (preview_loader_started st)) ;;;
            modify_state (fun st =>
              mkPlayingState (title st) (src_url st) (thumb_url st)
                (duration st) (start_time st) (Some false) (pause_at st)
                (preview_loaded st) (preview_loader_started st))
        | None => raise TypeError
        end
      else ret tt
  end.

Definition leave_voice : M World unit :=
  w <- get ;;
  match voice_clients w with
  | _ :: rest =>
      set_voice_clients rest ;;;
      modify_state clear
  | [] => ret tt
  end.

End DiscordClient.

(* ================================================================== *)
(** * gui.py: playback and end-of-track behaviour *)
(* ================================================================== *)

Module Gui.

Import PlaylistManager DiscordClient.

(** The two module-level objects of discord_client.py that carry
    attributes: [BOT_LOOP = asyncio.new_event_loop()] and
    [bot = discord.Client(...)]. *)
Inductive global : Type :=
| BOT_LOOP
| bot.

(** [obj.voice_clients]: the list belongs to the Discord client; an asyncio
    event loop has no attribute of that name. *)
Definition get_voice_clients (obj : global) : M World (list VoiceClient) :=
  match obj with
  | bot => w <- get ;; ret (voice_clients w)
  | BOT_LOOP => raise (AttributeError "voice_clients")
  end.

(** The coroutine [_halt] defined inside [on_track_end]. *)
Definition _halt : M World unit :=
  vcs <- get_voice_clients BOT_LOOP ;;
  match vcs with
  | [] => ret tt
  | _ :: _ =>
      vcs' <- get_voice_clients BOT_LOOP ;;
      match vcs' with
      | vc :: rest => set_voice_clients (vc_stop vc :: rest)
      | [] => raise IndexError
      end
  end.

(** What [run_async] hands to the bot's event loop. *)
Inductive coroutine : Type :=
| co_start_playback (tr : track)
| co_halt
| co_pause_toggle
| co_leave_voice
| co_ensure_join.

(** The event loop runs a submitted coroutine at clock [now]; an exception
    ends up in the future, not in the GUI. *)
Definition run_coroutine (c : coroutine) (now : Q) : M World unit :=
  match c with
  | co_start_playback tr => start_playback (Some tr) now
  | co_halt => _halt
  | co_pause_toggle => pause_toggle now
  | co_leave_voice => leave_voice
  | co_ensure_join => ensure_join ;;; ret tt
  end.

(** The part of [MusicGUI] that playback reads and writes: the mode radio
    buttons, the playlist listbox, the track tree (its item ids are the
    track indices, written [str(idx)] and read back with [int]), the
    manager, the coroutines submitted so far, and the discord_client module
    whose [PLAYING_STATE] is shared with the GUI. *)
Record App : Type := mkApp {
  mode_var : string;
  current_track : option track;
  pl_lb : list string;
  pl_lb_curselection : list Z;
  tr_tv_children : list Z;
  tr_tv_selection : list Z;
  tr_tv_focus : option Z;
  pm : PM;
  submitted : list coroutine;
  world : World
}.

Definition playlists (app : App) : store := _data (pm app).

(** The GUI monad: state, exceptions and one source of randomness.  A
    computation yields the list of its equally likely outcomes. *)
Definition G (A : Type) : Type := App -> list (result A * App).

Definition g_ret {A} (a : A) : G A := fun s => [(Ok a, s)].

Definition g_bind {A B} (m : G A) (k : A -> G B) : G B :=
  fun s => flat_map (fun o => match o with
                              | (Ok a, s') => k a s'
                              | (Raise e, s') => [(Raise e, s')]
                              end) (m s).

Definition g_lift {A} (m : M App A) : G A := fun s => [m s].

(** [random.randrange(n)]: each of [0 .. n-1], with equal probability. *)
Definition randrange (n : Z) : G Z :=
  fun s => map (fun i => (Ok (Z.of_nat i), s)) (seq 0 (Z.to_nat n)).

End Gui.

Declare Scope gui_scope.
Delimit Scope gui_scope with gui.
Notation "x <- m ;; k" := (Gui.g_bind m (fun x => k))
  (at level 61, m at next level, right associativity) : gui_scope.
Notation "m ;;; k" := (Gui.g_bind m (fun _ => k))
  (at level 61, right associativity) : gui_scope.

Module GuiPlayback.

Import PlaylistManager DiscordClient Gui.
Local Open Scope gui_scope.

Definition g_get : G App := fun s => [(Ok s, s)].
Definition g_raise {A} (e : exn) : G A := fun s => [(Raise e, s)].
Definition g_result {A} (r : result A) : G A := fun s => [(r, s)].

Definition set_current_track (t : option track) : G unit :=
  fun a => [(Ok tt, mkApp (mode_var a) t (pl_lb a) (pl_lb_curselection a)
                      (tr_tv_children a) (tr_tv_selection a) (tr_tv_focus a)
                      (pm a) (submitted a) (world a))].

(** [self.tr_tv.selection_set(str(i))] *)
Definition selection_set (i : Z) : G unit :=
  fun a =>
    if existsb (Z.eqb i) (tr_tv_children a)
    then [(Ok tt, mkApp (mode_var a) (current_track a) (pl_lb a)
                    (pl_lb_curselection a) (tr_tv_children a) [i]
                    (tr_tv_focus a) (pm a) (submitted a) (world a))]
    else [(Raise TclError, a)].

(** [self.tr_tv.focus(str(i))] *)
Definition focus (i : Z) : G unit :=
  fun a =>
    if existsb (Z.eqb i) (tr_tv_children a)
    then [(Ok tt, mkApp (mode_var a) (current_track a) (pl_lb a)
                    (pl_lb_curselection a) (tr_tv_children a)
                    (tr_tv_selection a) (Some i) (pm a) (submitted a)
                    (world a))]
    else [(Raise TclError, a)].

Definition run_async (c : coroutine) : G unit :=
  fun a => [(Ok tt, mkApp (mode_var a) (current_track a) (pl_lb a)
                      (pl_lb_curselection a) (tr_tv_children a)
                      (tr_tv_selection a) (tr_tv_focus a) (pm a)
                      (submitted a ++ [c]) (world a))].

(** A write to the shared [PLAYING_STATE] from the GUI thread. *)
Definition modify_playing_state (f : PlayingState -> PlayingState) : G unit :=
  fun a => [(Ok tt, mkApp (mode_var a) (current_track a) (pl_lb a)
                      (pl_lb_curselection a) (tr_tv_children a)
                      (tr_tv_selection a) (tr_tv_focus a) (pm a) (submitted a)
                      (snd (modify_state f (world a))))].

(** [self.pl_lb.get(i)]: the row at [i], the empty string when there is
    none. *)
Definition pl_lb_get (a : App) (i : Z) : string :=
  if i <? 0 then "" else nth (Z.to_nat i) (pl_lb a) "".

Definition truthy_track (t : option track) : bool :=
  match t with
  | Some (_ :: _) => true
  | _ => false
  end.

Definition selected_track : G (option track) :=
  a <- g_get ;;
  match pl_lb_curselection a, tr_tv_selection a with
  | p :: _, i :: _ =>
      tracks <- g_result (dict_getitem (pl_lb_get a p) (playlists a)) ;;
      tr <- g_result (getitem tracks i) ;;
      g_ret (Some tr)
  | _, _ => g_ret None
  end.

Definition play_selected : G unit :=
  tr <- selected_track ;;
  match tr with
  | Some (f :: fs) =>
      set_current_track (Some (f :: fs)) ;;;
      run_async (co_start_playback (f :: fs))
  | _ => g_ret tt
  end.

Definition play_url (url : string) : G unit :=
  if negb (String.eqb url "") then
    let tr := [("title", JStr url); ("url", JStr url)] in
    set_current_track (Some tr) ;;;
    run_async (co_start_playback tr)
  else g_ret tt.

Definition on_track_end : G unit :=
  a <- g_get ;;
  let mode := mode_var a in
  if String.eqb mode "loop" && truthy_track (current_track a) then
    match current_track a with
    | Some tr => run_async (co_start_playback tr)
    | None => g_ret tt
    end
  else if String.eqb mode "next" then
    match pl_lb_curselection a with
    | [] => g_ret tt
    | p :: _ =>
        tracks <- g_result (dict_getitem (pl_lb_get a p) (playlists a)) ;;
        match tracks with
        | [] => g_ret tt
        | _ :: _ =>
            let cur := match tr_tv_selection a with c :: _ => c | [] => -1 end in
            let nxt := (cur + 1) mod len tracks in
            selection_set nxt ;;;
            focus nxt ;;;
            play_selected
        end
    end
  else if String.eqb mode "random" then
    match pl_lb_curselection a with
    | [] => g_ret tt
    | p :: _ =>
        tracks <- g_result (dict_getitem (pl_lb_get a p) (playlists a)) ;;
        match tracks with
        | [] => g_ret tt
        | _ :: _ =>
            idx <- randrange (len tracks) ;;
            selection_set idx ;;;
            focus idx ;;;
            play_selected
        end
    end
  else
    run_async co_halt ;;;
    modify_playing_state clear ;;;
    set_current_track None.

(** [max(0, st.elapsed_seconds or 0)] *)
Definition shown_elapsed (st : PlayingState) (now : Q) : result Z :=
  match elapsed_seconds st now with
  | Ok e => Ok (Z.max 0 e)
  | Raise e => Raise e
  end.

(** [st.preview_loader_started = True] *)
Definition loader_started (st : PlayingState) : PlayingState :=
  mkPlayingState (title st) (src_url st) (thumb_url st) (duration st)
    (start_time st) (paused st) (pause_at st) (preview_loaded st) (Some true).

(** The last lines of the playing branch of [tick]: a preview that is
    loaded is shown; when there is none and no loader was started for this
    track, the flag is set and the thread [_load_preview] is started.  The
    thread stores the image in [preview_loaded] when it has it, at a later
    time of its own. *)
Definition show_preview : G unit :=
  a <- g_get ;;
  let st := PLAYING_STATE (world a) in
  match preview_loaded st with
  | Some img => g_ret tt
  | None =>
      if negb (truthy_bool (preview_loader_started st))
      then modify_playing_state loader_started
      else g_ret tt
  end.

(** The playback part of [tick]: the end-of-track test, the policy, the
    two writes that keep the event from firing again, and the preview.
    The labels are written before the test; with a title set and a
    [duration] of [None] their formatting ([fmt(dur)]) raises
    [TypeError]. *)
Definition tick (now : Q) : G unit :=
  a <- g_get ;;
  let st := PLAYING_STATE (world a) in
  if is_playing st then
    elapsed <- g_result (shown_elapsed st now) ;;
    match duration st with
    | Some dur =>
        (if negb (dur =? 0) && (dur <=? elapsed) && negb (truthy_bool (paused st))
         then
           on_track_end ;;;
           modify_playing_state (fun st =>
             mkPlayingState (title st) (src_url st) (thumb_url st) (duration st)
               (start_time st) (Some true) (pause_at st) (preview_loaded st)
               (preview_loader_started st)) ;;;
           modify_playing_state (fun st =>
             mkPlayingState (title st) (src_url st) (thumb_url st) (duration st)
               (start_time st) (paused st) (Some now) (preview_loaded st)
               (preview_loader_started st))
         else g_ret tt) ;;;
        show_preview
    | None => g_raise TypeError
    end
  else g_ret tt.

End GuiPlayback.

(* ================================================================== *)
(** * Vocabulary of the statements, and sample data *)
(* ================================================================== *)

Import PlaylistManager DiscordClient Gui GuiPlayback.

(** Entries of a dictionary whose key is not [k]. *)
Definition other_than {A : Type} (k : string) (kv : string * A) : bool :=
  negb (String.eqb (fst kv) k).

Definition rock_store : store :=
  [("Rock", [[("title", JStr "a"); ("url", JStr "u1"); ("vid", JNull)]]);
   ("Jazz", []);
   ("Pop", [[("title", JStr "b"); ("url", JStr "u2"); ("vid", JStr "x")]])].

Definition rock_pm : PM := mkPM rock_store (mkFile None true).

(** A world with one idle voice client and a resolver that knows every
    URL. *)
Definition demo_info : Info := mkInfo "https://cdn/stream" "dQw4w9WgXcQ" (Some 200).

Definition demo_world : World :=
  mkWorld [mkVoiceClient 7 Idle] [] [] PlayingState_init []
          (fun _ => Some demo_info) 0 0.

(** A world in which no voice channel can be found. *)
Definition lonely_world : World :=
  mkWorld [] [] [] PlayingState_init [] (fun _ => Some demo_info) 0 0.

Definition demo_track (t : string) : track :=
  [("title", JStr t); ("url", JStr ("https://youtu.be/" ++ t)); ("vid", JNull)].

(** The thumbnail address [start_playback] derives from the video id. *)
Definition thumb_of (info : Info) : string :=
  "https://i.ytimg.com/vi/" ++ info_id info ++ "/hqdefault.jpg".

(** [info.get("duration", 0)] *)
Definition duration_of (info : Info) : Z :=
  match info_duration info with Some d => d | None => 0 end.

(** The player state of the first voice client, if there is one. *)
Definition first_player (w : World) : option player :=
  match voice_clients w with
  | vc :: _ => Some (vc_player vc)
  | [] => None
  end.

(** What a successful [start_playback] leaves in [PLAYING_STATE]. *)
Definition fresh_state (t : option string) (u : string) (info : Info) (now : Q)
  : PlayingState :=
  mkPlayingState t (Some u) (Some (thumb_of info))
    (Some (duration_of info)) (Some now) None None None (Some false).

(** The timing fields agree with the player at clock [t]: playback started
    no later than [t]; a set pause flag comes with a pause time between the
    start and [t]; a paused player comes with a set pause flag. *)
Definition coherent (w : World) (t : Q) : Prop :=
  exists s0,
    start_time (PLAYING_STATE w) = Some s0 /\
    (s0 <= t)%Q /\
    (truthy_bool (paused (PLAYING_STATE w)) = true ->
       exists p, pause_at (PLAYING_STATE w) = Some p /\ (s0 <= p)%Q /\ (p <= t)%Q) /\
    (forall src, first_player w = Some (Paused src) ->
       truthy_bool (paused (PLAYING_STATE w)) = true).

(** [toggled w t w' t']: from world [w] at clock [t], a sequence of calls of
    [pause_toggle] at non-decreasing clock values, none of which raises,
    leads to [w'] at clock [t']. *)
Inductive toggled : World -> Q -> World -> Q -> Prop :=
| toggled_refl w t : toggled w t w t
| toggled_step w t w1 t1 now w2 :
    toggled w t w1 t1 ->
    (t1 <= now)%Q ->
    pause_toggle now w1 = (Ok tt, w2) ->
    toggled w t w2 now.

(** [elapsed_seconds] of the shared state. *)
Definition elapsed (w : World) (t : Q) : result Z :=
  elapsed_seconds (PLAYING_STATE w) t.

(** Where a run of [pause_toggle] calls on the stream [src] stands at clock
    [t], the clock of the last call: playback started no later than [t],
    and either the player plays and the pause flag is not set, or the
    player is paused, the flag is set and the pause time is [t]. *)
Definition toggling (src : string) (w : World) (t : Q) : Prop :=
  exists s0,
    start_time (PLAYING_STATE w) = Some s0 /\ (s0 <= t)%Q /\
    ((first_player w = Some (Playing src) /\
      truthy_bool (paused (PLAYING_STATE w)) = false) \/
     (first_player w = Some (Paused src) /\
      paused (PLAYING_STATE w) = Some true /\
      pause_at (PLAYING_STATE w) = Some t)).

(** The bot's event loop.  Coroutines run one at a time and give way to
    each other at an [await] only: a call of [start_playback] that finds
    the player playing pauses it and sleeps, and the loop may run other
    coroutines before the call goes on.  [sleeping] holds the calls that
    are inside their grace sleep, [clock] is the wall clock.  A sleeping
    call holds [vc_lock], a lock of threads: another [start_playback] that
    came to [with vc_lock] meanwhile would stop the thread of the loop for
    good, so a call starts only when none sleeps. *)
Record Loop : Type := mkLoop {
  loop_world : World;
  sleeping : list (track * Info);
  clock : Q
}.

Definition after_begin (l : Loop) (tr : track) (r : result progress)
  : list (track * Info) :=
  match r with
  | Ok (Sleeping info) => (sleeping l ++ [(tr, info)])%list
  | _ => sleeping l
  end.

Inductive loop_step : Loop -> Loop -> Prop :=
| step_start l tr now r w' :
    sleeping l = [] ->
    (clock l <= now)%Q ->
    start_playback_begin (Some tr) now (loop_world l) = (r, w') ->
    loop_step l (mkLoop w' (after_begin l tr r) now)
| step_wake l tr info rest now r w' :
    sleeping l = (tr, info) :: rest ->
    (clock l <= now)%Q ->
    start_playback_end tr info now (loop_world l) = (r, w') ->
    loop_step l (mkLoop w' rest now)
| step_toggle l now r w' :
    (clock l <= now)%Q ->
    pause_toggle now (loop_world l) = (r, w') ->
    loop_step l (mkLoop w' (sleeping l) now)
| step_leave l now r w' :
    (clock l <= now)%Q ->
    leave_voice (loop_world l) = (r, w') ->
    loop_step l (mkLoop w' (sleeping l) now).

Inductive reachable (l0 : Loop) : Loop -> Prop :=
| reach_here : reachable l0 l0
| reach_step l l' : reachable l0 l -> loop_step l l' -> reachable l0 l'.

(** The application right after start-up: one idle voice client, the state
    as [PlayingState()] built it, nothing in flight. *)
Definition startup : Loop := mkLoop demo_world [] 0.

(** One step of the loop, as a function. *)
Definition run_start (tr : track) (now : Q) (l : Loop) : Loop :=
  let o := start_playback_begin (Some tr) now (loop_world l) in
  mkLoop (snd o) (after_begin l tr (fst o)) now.

Definition run_toggle (now : Q) (l : Loop) : Loop :=
  mkLoop (snd (pause_toggle now (loop_world l))) (sleeping l) now.

(** Play a first track at 100, pause at 101, resume at 110, ask for a
    second track at 120 (the call pauses the player and sleeps), press
    Pause/Resume at 120.1. *)
Definition race_trace : Loop :=
  run_toggle (1201 # 10)
    (run_start (demo_track "second") 120
       (run_toggle 110
          (run_toggle 101
             (run_start (demo_track "first") 100 startup)))).

Definition playing_world : World :=
  snd (start_playback (Some (demo_track "abc")) 100 demo_world).

Definition paused_world : World := snd (pause_toggle 101 playing_world).




(** The [else] branch of [on_track_end] is taken. *)
Definition stop_branch (a : App) : bool :=
  negb (String.eqb (mode_var a) "loop" && truthy_track (current_track a))
  && negb (String.eqb (mode_var a) "next")
  && negb (String.eqb (mode_var a) "random").

(** The GUI after the [else] branch of [on_track_end]. *)
Definition after_stop (a : App) : App :=
  mkApp (mode_var a) None (pl_lb a) (pl_lb_curselection a) (tr_tv_children a)
        (tr_tv_selection a) (tr_tv_focus a) (pm a) (submitted a ++ [co_halt])
        (snd (modify_state clear (world a))).

Definition three_tracks : list track :=
  [demo_track "t0"; demo_track "t1"; demo_track "t2"].

(** A GUI with playlist [Mix] selected, its three tracks in the tree, the
    last one selected, and a voice client that is playing. *)
Definition demo_app (mode : string) : App :=
  mkApp mode (Some (demo_track "t2")) ["Mix"] [0] [0; 1; 2] [2] (Some 2)
        (mkPM [("Mix", three_tracks)] (mkFile None true)) []
        (mkWorld [mkVoiceClient 7 (Playing "https://cdn/stream")] [] []
           (fresh_state (Some "t2") "https://youtu.be/t2" demo_info 100) []
           (fun _ => Some demo_info) 0 0).


(** The text [encode] prints for [v] parses back to [v], with any text
    after it left over, given fuel above the weight of [v]. *)
Definition parses (v : json) : Prop :=
  forall (lvl fuel : nat) (rest : string),
    (weight v < fuel)%nat ->
    parse_value fuel (encode lvl v ++ rest) = Parsed v rest.

(** A store as Python can hold it: playlist names pairwise distinct, and
    so are the field names of every track (and of any dict below). *)
Definition store_ok (d : store) : bool := json_ok (to_json d).

(** Every string of the store can be written to the file: no playlist
    name, field name or string value holds a lone surrogate. *)
Definition store_utf8 (d : store) : bool := utf8_json (to_json d).

Definition tracks_utf8 (ts : list track) : bool :=
  forallb (fun tr => utf8_json (JObj tr)) ts.

(** The thread [_load_preview] stores the image it made:
    [st.preview_loaded = img]. *)
Definition preview_stored (img : Image) (w : World) : World :=
  snd (modify_state
         (fun st =>
            mkPlayingState (title st) (src_url st) (thumb_url st) (duration st)
              (start_time st) (paused st) (pause_at st) (Some img)
              (preview_loader_started st)) w).

(** When the stream of the first client runs out, its player is idle. *)
Definition stream_ends (w : World) : World :=
  snd (on_first_client
         (fun vc => if vc_is_playing vc then vc_stop vc else vc) w).

(** The event loop, the GUI timer and the preview loader thread when no
    coroutine runs while another one sleeps: every call of [start_playback]
    goes from its first line to its last before anything else happens. *)
Inductive serial_step : Loop -> Loop -> Prop :=
| serial_start l tr now r w' :
    (clock l <= now)%Q ->
    start_playback tr now (loop_world l) = (r, w') ->
    serial_step l (mkLoop w' (sleeping l) now)
| serial_toggle l now r w' :
    (clock l <= now)%Q ->
    pause_toggle now (loop_world l) = (r, w') ->
    serial_step l (mkLoop w' (sleeping l) now)
| serial_leave l now r w' :
    (clock l <= now)%Q ->
    leave_voice (loop_world l) = (r, w') ->
    serial_step l (mkLoop w' (sleeping l) now)
| serial_join l now r w' :
    (clock l <= now)%Q ->
    ensure_join (loop_world l) = (r, w') ->
    serial_step l (mkLoop w' (sleeping l) now)
| serial_tick l now a r a' :
    (clock l <= now)%Q ->
    world a = loop_world l ->
    In (r, a') (tick now a) ->
    serial_step l (mkLoop (world a') (sleeping l) now)
| serial_preview l now img :
    (clock l <= now)%Q ->
    serial_step l (mkLoop (preview_stored img (loop_world l)) (sleeping l) now)
| serial_stream_end l now :
    (clock l <= now)%Q ->
    serial_step l (mkLoop (stream_ends (loop_world l)) (sleeping l) now).

Inductive serial_reachable (l0 : Loop) : Loop -> Prop :=
| serial_here : serial_reachable l0 l0
| serial_next l l' :
    serial_reachable l0 l -> serial_step l l' -> serial_reachable l0 l'.

(** The timing invariant of serial runs, on the client list and the
    state: at most one voice client; a paused player comes with a set
    pause flag; while a title is set, playback started no later than [t]
    and a set pause flag comes with a pause time between the start and
    [t]. *)
Definition timing_ok (vcs : list VoiceClient) (st : PlayingState) (t : Q) : Prop :=
  (List.length vcs <= 1)%nat /\
  (forall vc rest, vcs = vc :: rest -> vc_is_paused vc = true ->
     truthy_bool (paused st) = true) /\
  (is_playing st = true ->
     exists s0,
       start_time st = Some s0 /\ (s0 <= t)%Q /\
       (truthy_bool (paused st) = true ->
          exists p, pause_at st = Some p /\ (s0 <= p)%Q /\ (p <= t)%Q)).

Definition world_ok (w : World) (t : Q) : Prop :=
  timing_ok (voice_clients w) (PLAYING_STATE w) t.

(** [z] is the reading the data model describes: 0 when nothing plays,
    else the floor of [pause_at - start_time] when paused and of
    [now - start_time] when not. *)
Definition reads_floor (st : PlayingState) (now : Q) (z : Z) : Prop :=
  if is_playing st then
    if truthy_bool (paused st) then
      exists s0 p, start_time st = Some s0 /\ pause_at st = Some p /\
                   z = Qfloor (p - s0)
    else
      exists s0, start_time st = Some s0 /\ z = Qfloor (now - s0)
  else z = 0.

(** [m] does not touch the discord_client module. *)
Definition keeps_world {A : Type} (m : G A) : Prop :=
  forall a r a', In (r, a') (m a) -> world a' = world a.

(** The two writes of [tick] after the policy ran. *)
Definition debounced (st : PlayingState) (now : Q) : PlayingState :=
  mkPlayingState (title st) (src_url st) (thumb_url st) (duration st)
    (start_time st) (Some true) (Some now) (preview_loaded st)
    (preview_loader_started st).

(** The GUI after [tick] noted that the preview loader was started. *)
Definition loader_marked (a : App) : App :=
  mkApp (mode_var a) (current_track a) (pl_lb a) (pl_lb_curselection a)
        (tr_tv_children a) (tr_tv_selection a) (tr_tv_focus a) (pm a)
        (submitted a) (snd (modify_state loader_started (world a))).

(** [tick] has no preview to start: one is loaded, or its loader was
    started. *)
Definition preview_settled (st : PlayingState) : bool :=
  match preview_loaded st with
  | Some _ => true
  | None => truthy_bool (preview_loader_started st)
  end.


(* ================================================================== *)
(** * Sessions of the playlist manager *)
(* ================================================================== *)

(** The calls the GUI makes on its manager. *)
Inductive command : Type :=
| AddPlaylist (name : string)
| RenamePlaylist (old new : string)
| DeletePlaylist (name : string)
| MovePlaylist (index delta : Z)
| AddTrack (pl_name : string) (tr : track)
| RenameTrack (pl_name : string) (idx : Z) (new_title : string)
| DeleteTrack (pl_name : string) (idx : Z)
| MoveTrack (pl_name : string) (idx delta : Z).

Definition run_command (c : command) : M PM unit :=
  match c with
  | AddPlaylist name => add_playlist name
  | RenamePlaylist old new => rename_playlist old new
  | DeletePlaylist name => delete_playlist name
  | MovePlaylist index delta => move_playlist index delta
  | AddTrack pl tr => add_track pl tr
  | RenameTrack pl idx t => rename_track pl idx t
  | DeleteTrack pl idx => delete_track pl idx
  | MoveTrack pl idx delta => move_track pl idx delta
  end.

(** One call after the other; a call that raises ends in the GUI's event
    loop and the next call finds the manager as the failed one left it. *)
Fixpoint run_commands (cs : list command) (s : PM) : PM :=
  match cs with
  | [] => s
  | c :: cs' => run_commands cs' (snd (run_command c s))
  end.

(** A track handed to [add_track] is a Python dict: its field names are
    pairwise distinct (and so are those of any dict inside it). *)
Definition command_ok (c : command) : bool :=
  match c with
  | AddTrack _ tr => json_ok (JObj tr)
  | _ => true
  end.

(** The strings a call brings into the store can be written to the file:
    the new playlist name, the new title, the strings of the new track. *)
Definition command_utf8 (c : command) : bool :=
  match c with
  | AddPlaylist name => utf8_valid name
  | RenamePlaylist _ new => utf8_valid new
  | AddTrack _ tr => utf8_json (JObj tr)
  | RenameTrack _ _ new_title => utf8_valid new_title
  | _ => true
  end.

(** The index a transposition of positions [a] and [b] sends [n] to. *)
Definition transpose (a b n : nat) : nat :=
  if Nat.eqb n a then b else if Nat.eqb n b then a else n.

(** Every track of a playlist is a Python dict. *)
Definition tracks_ok (ts : list track) : bool :=
  forallb (fun tr => json_ok (JObj tr)) ts.

(** The file holds what the manager holds: loading it now would change
    nothing. *)
Definition file_agrees (s : PM) : Prop := load s = Some (Ok tt, s).

(** [x] is [v] or a value inside [v]: an item of a list, the value of a
    field, at any depth.  A dict object that a record holds, as itself or
    inside, has its value inside the value of the record. *)
Fixpoint inside (x v : json) : Prop :=
  x = v \/
  match v with
  | JArr l =>
      (fix any (l : list json) : Prop :=
         match l with
         | [] => False
         | y :: ys => inside x y \/ any ys
         end) l
  | JObj ms =>
      (fix any (ms : list (string * json)) : Prop :=
         match ms with
         | [] => False
         | (_, y) :: ys => inside x y \/ any ys
         end) ms
  | _ => False
  end.

(** The record whose title a call changes in place, if it changes one. *)
Definition renamed_record (c : command) (s : PM) : option track :=
  match c with
  | RenameTrack pl idx _ =>
      match dict_get pl (_data s) with
      | Some ts =>
          if (0 <=? idx) && (idx <? len ts)
          then nth_error ts (Z.to_nat idx)
          else None
      | None => None
      end
  | _ => None
  end.

(** The playlist a track-level call works on. *)
Definition target_playlist (c : command) : option string :=
  match c with
  | AddTrack pl _ | RenameTrack pl _ _ | DeleteTrack pl _ | MoveTrack pl _ _ =>
      Some pl
  | _ => None
  end.

(** A string between double quotes. *)
Definition quoted (s : string) : string :=
  String dquote (s ++ String dquote EmptyString).

(** A playlist file, not writable, in which the name [A] is written
    twice. *)
Definition twice_named_file : File :=
  mkFile (Some ("{" ++ quoted "A" ++ ": [], " ++ quoted "B" ++ ": [{}], "
                ++ quoted "A" ++ ": [{}]}"))
         false.

(** A manager that has just been created where no playlist file exists. *)
Definition new_pm : PM := mkPM [] (mkFile None true).

(** A store with one track whose [url] is the lone surrogate U+D800. *)
Definition surrogate_store : store :=
  [("A", [[("title", JStr "ok"); ("url", JStr (utf8 55296))]])].

(** A playlist file in ASCII that names U+D800 by its escape. *)
Definition escaped_file : File :=
  mkFile (Some ("{" ++ quoted "A" ++ ": [{" ++ quoted "title" ++ ": "
                ++ quoted "ok" ++ ", " ++ quoted "url" ++ ": "
                ++ quoted (String backslash "ud800") ++ "}]}"))
         true.

(** The same file after [save] gave up at the [url] of that track. *)
Definition torn_file : File :=
  mkFile (Some ("{" ++ newline_indent 1 ++ quoted "A" ++ ": ["
                ++ newline_indent 2 ++ "{"
                ++ newline_indent 3 ++ quoted "title" ++ ": " ++ quoted "ok"
                ++ "," ++ newline_indent 3 ++ quoted "url" ++ ": "))
         true.

(* ================================================================== *)
(** * Further sample data for the Discord client *)
(* ================================================================== *)

(** A track record without a title. *)
Definition untitled_track : track := [("url", JStr "https://youtu.be/abc")].

(** No voice client yet; channel 5 is the configured one, the target user
    42 sits in channel 9. *)
Definition away_world : World :=
  mkWorld [] [mkChannel 5 true [] true; mkChannel 9 true [42] true]
          [mkGuild [mkChannel 9 true [42] true]]
          PlayingState_init [] (fun _ => Some demo_info) 5 42.

(** A resolver that knows no URL, and a world that has it. *)
Definition offline_world : World :=
  mkWorld [mkVoiceClient 7 Idle] [] [] PlayingState_init [] (fun _ => None) 0 0.

(** A world that shares the metadata cache of [w] and in which yt-dlp
    resolves nothing. *)
Definition cache_only (w : World) : World :=
  mkWorld [] [] [] PlayingState_init (_ytdlp_cache w) (fun _ => None) 0 0.

(** A first track is started at 100; at 120 a second one is asked for, and
    that call has paused the player and sleeps. *)
Definition restart_asleep : Loop :=
  run_start (demo_track "second") 120
    (run_start (demo_track "first") 100 startup).

(** Steps of a serial run, as functions. *)
Definition serial_start_at (tr : track) (now : Q) (l : Loop) : Loop :=
  mkLoop (snd (start_playback (Some tr) now (loop_world l))) (sleeping l) now.

Definition serial_toggle_at (now : Q) (l : Loop) : Loop :=
  mkLoop (snd (pause_toggle now (loop_world l))) (sleeping l) now.

(** Play at 100, pause at 101, resume at 110, play another track at 120. *)
Definition serial_trace : Loop :=
  serial_start_at (demo_track "second") 120
    (serial_toggle_at 110
       (serial_toggle_at 101
          (serial_start_at (demo_track "first") 100 startup))).

(* ================================================================== *)
(** * utils.py *)
(* ================================================================== *)

Module Utils.

(** [str(n)] for an [int]. *)
Definition str_int (n : Z) : string :=
  DecimalString.NilZero.string_of_int (Z.to_int n).

(** [f"{n:02d}"]: the digits of [n], with a zero in front when that makes
    fewer than two characters. *)
Definition pad2 (n : Z) : string :=
  let s := str_int n in
  if (String.length s <? 2)%nat then "0" ++ s else s.

(** [timedelta(seconds=n)] for an [int]: the normalised [days] and
    [seconds]; [None] is [OverflowError], raised when [days] has more than
    nine digits. *)
Definition timedelta (seconds : Z) : option (Z * Z) :=
  let days := seconds / 86400 in
  if (-999999999 <=? days) && (days <=? 999999999)
  then Some (days, seconds mod 86400)
  else None.

(** [fmt]; [None] is the [OverflowError] of [timedelta]. *)
Definition fmt (seconds : Q) : option string :=
  let seconds := Z.max 0 (py_int seconds) in
  match timedelta seconds with
  | None => None
  | Some (days, td_seconds) =>
      let h := td_seconds / 3600 in
      let remainder := td_seconds mod 3600 in
      let m := remainder / 60 in
      let s := remainder mod 60 in
      if negb (days =? 0) || negb (h =? 0)
      then Some (str_int (days * 24 + h) ++ ":" ++ pad2 m ++ ":" ++ pad2 s)
      else Some (pad2 m ++ ":" ++ pad2 s)
  end.

End Utils.

(* ================================================================== *)
(** * youtube_utils.py: the video id of a URL *)
(* ================================================================== *)

Module YoutubeUtils.

(** The character class [[A-Za-z0-9_-]]. *)
Definition id_char (c : ascii) : bool :=
  let n := N_of_ascii c in
  (((65 <=? n) && (n <=? 90)) || ((97 <=? n) && (n <=? 122))
   || ((48 <=? n) && (n <=? 57)) || (n =? 95) || (n =? 45))%N.

(** [[A-Za-z0-9_-]{n}] at the head of [s]: the characters matched. *)
Fixpoint take_id (n : nat) (s : string) : option string :=
  match n with
  | O => Some ""
  | S n' =>
      match s with
      | String c r =>
          if id_char c
          then match take_id n' r with
               | Some t => Some (String c t)
               | None => None
               end
          else None
      | EmptyString => None
      end
  end.

(** [_YT_RE] matched at the head of [s]: group 1.  The alternatives [v=]
    and [/] are tried in this order. *)
Definition match_here (s : string) : option string :=
  match match strip_prefix "v=" s with
        | Some r => take_id 11 r
        | None => None
        end with
  | Some id => Some id
  | None =>
      match strip_prefix "/" s with
      | Some r => take_id 11 r
      | None => None
      end
  end.

(** [youtube_id]: [_YT_RE.search(url)], the leftmost match. *)
Fixpoint youtube_id (url : string) : option string :=
  match match_here url with
  | Some id => Some id
  | None =>
      match url with
      | String _ r => youtube_id r
      | EmptyString => None
      end
  end.

End YoutubeUtils.

Import Utils YoutubeUtils.

(* ================================================================== *)
(** * gui.py: the track tree and the edit buttons *)
(* ================================================================== *)

Module GuiEditing.

Import PlaylistManager DiscordClient Gui GuiPlayback.
Local Open Scope gui_scope.

















End GuiEditing.

Import GuiEditing.

(** The end-of-track test of [tick]: a title is set, the duration is not
    0, the elapsed time has reached it, and the pause flag is not set. *)
Definition track_over (st : PlayingState) (now : Q) : bool :=
  is_playing st &&
  match shown_elapsed st now, duration st with
  | Ok e, Some dur =>
      negb (dur =? 0) && (dur <=? e) && negb (truthy_bool (paused st))
  | _, _ => false
  end.

(** The GUI after [on_track_end] asked for [tr] again. *)
Definition after_replay (a : App) (tr : track) : App :=
  mkApp (mode_var a) (current_track a) (pl_lb a) (pl_lb_curselection a)
        (tr_tv_children a) (tr_tv_selection a) (tr_tv_focus a) (pm a)
        (submitted a ++ [co_start_playback tr]) (world a).



(** A GUI in mode [loop] that has no current track. *)
Definition solo_loop_app : App :=
  mkApp "loop" None ["Solo"] [0] [0] [] None
        (mkPM [("Solo", [demo_track "only"])] (mkFile None true)) []
        demo_world.














(** The GUI after the timer fired at 400 on [demo_app "next"], whose
    track of 200 seconds was started at 100. *)
Definition after_tick : App :=
  Eval vm_compute in
    snd (hd (Ok tt, demo_app "next") (tick 400 (demo_app "next"))).

(* ================================================================== *)
(** * Properties *)
(* ================================================================== *)

(** ** Dictionaries *)

Section DictFacts.

Context {A : Type}.
Implicit Types (d : dict A) (k : string) (v : A).

Lemma dict_in_true_iff k d :
  dict_in k d = true <-> exists v, dict_get k d = Some v.
Proof.
  unfold dict_in. destruct (dict_get k d) as [v|].
  - split; [intros _; now exists v | reflexivity].
  - split; [discriminate | intros [v Hv]; discriminate].
Qed.

Lemma dict_in_false_iff k d : dict_in k d = false <-> dict_get k d = None.
Proof.
  unfold dict_in. destruct (dict_get k d); split; congruence.
Qed.

Lemma dict_get_not_key k d : ~ In k (keys d) -> dict_get k d = None.
Proof.
  induction d as [|[k' v'] t IH]; simpl; intros Hn; [reflexivity|].
  destruct (String.eqb_spec k k') as [->|Hne].
  - exfalso. apply Hn. now left.
  - apply IH. intros Hin. apply Hn. now right.
Qed.

Lemma dict_get_key k d : In k (keys d) -> exists v, dict_get k d = Some v.
Proof.
  induction d as [|[k' v'] t IH]; simpl; intros Hin; [contradiction|].
  destruct (String.eqb_spec k k') as [->|Hne].
  - now exists v'.
  - destruct Hin as [Heq|Hin]; [congruence | now apply IH].
Qed.

Lemma dict_set_fresh k v d : dict_get k d = None -> dict_set k v d = (d ++ [(k, v)])%list.
Proof.
  induction d as [|[k' v'] t IH]; simpl; intros Hg; [reflexivity|].
  destruct (String.eqb k k'); [discriminate|].
  now rewrite IH.
Qed.

Lemma filter_other_than_absent k d :
  ~ In k (keys d) -> filter (other_than k) d = d.
Proof.
  induction d as [|[k' v'] t IH]; simpl; intros Hn; [reflexivity|].
  unfold other_than at 1. simpl.
  destruct (String.eqb_spec k' k) as [->|Hne]; simpl.
  - exfalso. apply Hn. now left.
  - rewrite IH; [reflexivity|]. intros Hin. apply Hn. now right.
Qed.

Lemma dict_remove_filter k d :
  NoDup (keys d) -> dict_remove k d = filter (other_than k) d.
Proof.
  induction d as [|[k' v'] t IH]; simpl; intros Hnd; [reflexivity|].
  inversion Hnd as [|? ? Hnin Hnd']; subst.
  unfold other_than at 1. simpl.
  destruct (String.eqb_spec k k') as [->|Hne].
  - rewrite String.eqb_refl. simpl. now rewrite filter_other_than_absent.
  - destruct (String.eqb_spec k' k) as [Heq|_]; [congruence|]. simpl.
    now rewrite IH.
Qed.

Lemma dict_get_remove_other k k' d :
  k <> k' -> dict_get k (dict_remove k' d) = dict_get k d.
Proof.
  intros Hne. induction d as [|[k0 v0] t IH]; simpl; [reflexivity|].
  destruct (String.eqb_spec k' k0) as [->|Hne0].
  - destruct (String.eqb_spec k k0); [congruence | reflexivity].
  - simpl. now rewrite IH.
Qed.

Lemma dict_set_present k v d :
  dict_get k d <> None -> keys (dict_set k v d) = keys d.
Proof.
  induction d as [|[k' v'] t IH]; simpl; intros Hg; [congruence|].
  destruct (String.eqb_spec k k') as [->|Hne]; simpl; [reflexivity|].
  now rewrite IH.
Qed.

End DictFacts.

(** ** The playlist manager *)

Section ManagerFacts.

Implicit Types (s : PM) (d : store).

(** [save] returns, whatever happens to the file: the file is left alone
    when it cannot be opened, and holds the chunks written otherwise. *)
Lemma save_run s :
  save s
  = (Ok tt,
     if writable (disk s)
     then mkPM (_data s)
            (mkFile (Some (snd (write_chunks (chunks 0 (to_json (_data s))) "")))
                    true)
     else s).
Proof.
  unfold save, try_except, bind, get_data, write_file, ret. simpl.
  destruct (writable (disk s)); [|reflexivity].
  destruct (write_chunks _ _) as [[[]|e] text]; reflexivity.
Qed.

Lemma save_data s : _data (snd (save s)) = _data s /\ fst (save s) = Ok tt.
Proof.
  rewrite save_run. simpl. destruct (writable (disk s)); auto.
Qed.

Lemma save_after_set s d :
  exists s', (set_data d ;;; save)%py s = (Ok tt, s') /\ _data s' = d.
Proof.
  unfold bind, set_data. simpl.
  destruct (save (mkPM d (disk s))) as [r s'] eqn:E.
  pose proof (save_data (mkPM d (disk s))) as [Hd Hr].
  rewrite E in Hd, Hr. simpl in Hd, Hr. subst r.
  exists s'. now split.
Qed.

Lemma _tracks_missing s pl :
  dict_in pl (_data s) = false ->
  _tracks pl s = (Raise (KeyError ("Playlist not found: " ++ pl)), s).
Proof.
  intros H. unfold _tracks, bind, get_data, raise. simpl. now rewrite H.
Qed.

Lemma _tracks_present s pl ts :
  dict_get pl (_data s) = Some ts -> _tracks pl s = (Ok ts, s).
Proof.
  intros H. unfold _tracks, bind, get_data, lift, dict_getitem, dict_in. simpl.
  now rewrite H.
Qed.

End ManagerFacts.

(** C10.  [rename_playlist old new]: when [old] names a playlist and [new]
    names none, the store afterwards is the old store without the entry of
    [old] (the other entries keep their order and their tracks) followed by
    one last entry that maps [new] to the track list [old] had; when [old]
    is missing or [new] is taken, nothing changes.  No case raises. *)
Theorem rename_playlist_moves_to_end (s : PM) (old new : string) :
  NoDup (keys (_data s)) ->
  exists s',
    rename_playlist old new s = (Ok tt, s') /\
    match dict_get old (_data s) with
    | Some ts =>
        if dict_in new (_data s) then s' = s
        else _data s' = (filter (other_than old) (_data s) ++ [(new, ts)])%list
    | None => s' = s
    end.
Proof.
  intros Hnd. unfold rename_playlist, bind at 1, get_data at 1. simpl.
  unfold dict_in at 1.
  destruct (dict_get old (_data s)) as [ts|] eqn:Hold; simpl.
  - destruct (dict_in new (_data s)) eqn:Hnew; simpl.
    + exists s. now split.
    + unfold bind at 1, lift, dict_pop. rewrite Hold. simpl.
      destruct (save_after_set s (dict_set new ts (dict_remove old (_data s))))
        as (s' & Hrun & Hd).
      exists s'. split; [exact Hrun|].
      rewrite Hd. rewrite dict_set_fresh.
      * now rewrite dict_remove_filter.
      * apply dict_in_false_iff in Hnew.
        destruct (String.eqb_spec new old) as [->|Hne]; [congruence|].
        now rewrite dict_get_remove_other.
  - exists s. now split.
Qed.

Lemma rock_store_keys_nodup : NoDup (keys rock_store).
Proof.
  repeat constructor; simpl; intuition discriminate.
Qed.

Lemma rename_playlist_moves_to_end_witness :
  NoDup (keys (_data rock_pm)) /\
  exists s',
    rename_playlist "Rock" "Metal" rock_pm = (Ok tt, s') /\
    _data s' =
      [("Jazz", []);
       ("Pop", [[("title", JStr "b"); ("url", JStr "u2"); ("vid", JStr "x")]]);
       ("Metal", [[("title", JStr "a"); ("url", JStr "u1"); ("vid", JNull)]])].
Proof.
  split; [exact rock_store_keys_nodup|].
  destruct (rename_playlist_moves_to_end rock_pm "Rock" "Metal"
              rock_store_keys_nodup) as (s' & Hrun & Hshape).
  exists s'. split; [exact Hrun | exact Hshape].
Defined.

Section MissingResource.

Variables (s : PM) (pl : string).

Lemma rename_playlist_missing new :
  dict_in pl (_data s) = false -> rename_playlist pl new s = (Ok tt, s).
Proof.
  intros H. unfold rename_playlist, bind, get_data. simpl. now rewrite H.
Qed.

Lemma delete_playlist_missing :
  dict_in pl (_data s) = false -> delete_playlist pl s = (Ok tt, s).
Proof.
  intros H. unfold delete_playlist, bind, get_data. simpl. now rewrite H.
Qed.

Lemma track_ops_missing_playlist :
  dict_in pl (_data s) = false ->
  let err := (Raise (KeyError ("Playlist not found: " ++ pl)), s) in
  (forall tr, add_track pl tr s = err) /\
  (forall idx t, rename_track pl idx t s = err) /\
  (forall idx, delete_track pl idx s = err) /\
  (forall idx delta, move_track pl idx delta s = err).
Proof.
  intros H err. subst err.
  repeat split; intros;
    unfold add_track, rename_track, delete_track, move_track, bind;
    now rewrite (_tracks_missing _ _ H).
Qed.

Lemma track_ops_bad_index ts idx :
  dict_get pl (_data s) = Some ts ->
  ~ (0 <= idx < len ts) ->
  (forall t, rename_track pl idx t s = (Ok tt, s)) /\
  delete_track pl idx s = (Ok tt, s) /\
  (forall i delta, i + delta = idx -> move_track pl i delta s = (Ok tt, s)).
Proof.
  intros Hg Hidx.
  assert (Hb : (0 <=? idx) && (idx <? len ts) = false).
  { apply andb_false_iff.
    destruct (Z.leb_spec 0 idx); [right | now left].
    apply Z.ltb_ge. lia. }
  repeat split; intros;
    unfold rename_track, delete_track, move_track, bind;
    rewrite (_tracks_present _ _ _ Hg); subst; now rewrite Hb.
Qed.

Lemma move_playlist_bad_target index delta :
  ~ (0 <= index + delta < len (keys (_data s))) ->
  move_playlist index delta s = (Ok tt, s).
Proof.
  intros Hidx. unfold move_playlist, bind, get_data. simpl.
  assert (Hb : (0 <=? index + delta) && (index + delta <? len (keys (_data s))) = false).
  { apply andb_false_iff.
    destruct (Z.leb_spec 0 (index + delta)); [right | now left].
    apply Z.ltb_ge. lia. }
  now rewrite Hb.
Qed.

End MissingResource.

(** C4, as the code has it.  What an operation does when its resource is
    missing.  [rename_playlist] and [delete_playlist] on an absent name,
    [rename_track] and [delete_track] with an index out of range, and
    [move_track] and [move_playlist] with a target index out of range
    return without raising and change neither the store nor the file.  The
    four track operations on an absent playlist name raise [KeyError] and
    change neither the store nor the file. *)
Theorem missing_resource_outcomes (s : PM) (pl : string) :
  (dict_in pl (_data s) = false ->
     (forall new, rename_playlist pl new s = (Ok tt, s)) /\
     delete_playlist pl s = (Ok tt, s) /\
     let err := (Raise (KeyError ("Playlist not found: " ++ pl)), s) in
     (forall tr, add_track pl tr s = err) /\
     (forall idx t, rename_track pl idx t s = err) /\
     (forall idx, delete_track pl idx s = err) /\
     (forall idx delta, move_track pl idx delta s = err)) /\
  (forall ts idx,
     dict_get pl (_data s) = Some ts ->
     ~ (0 <= idx < len ts) ->
     (forall t, rename_track pl idx t s = (Ok tt, s)) /\
     delete_track pl idx s = (Ok tt, s) /\
     (forall i delta, i + delta = idx -> move_track pl i delta s = (Ok tt, s))) /\
  (forall index delta,
     ~ (0 <= index + delta < len (keys (_data s))) ->
     move_playlist index delta s = (Ok tt, s)).
Proof.
  split; [|split].
  - intros H. split; [|split].
    + intros new. now apply rename_playlist_missing.
    + now apply delete_playlist_missing.
    + now apply track_ops_missing_playlist.
  - intros ts idx. apply track_ops_bad_index.
  - apply move_playlist_bad_target.
Qed.

Lemma missing_resource_outcomes_witness :
  delete_playlist "Blues" rock_pm = (Ok tt, rock_pm) /\
  rename_track "Blues" 0 "t" rock_pm
    = (Raise (KeyError "Playlist not found: Blues"), rock_pm) /\
  delete_track "Rock" 1 rock_pm = (Ok tt, rock_pm) /\
  move_playlist 2 1 rock_pm = (Ok tt, rock_pm).
Proof.
  destruct (missing_resource_outcomes rock_pm "Blues") as (Hmiss & _ & Hmove).
  destruct (Hmiss eq_refl) as (_ & Hdel & _ & Hren & _).
  destruct (missing_resource_outcomes rock_pm "Rock") as (_ & Hidx & _).
  destruct (Hidx _ 1 eq_refl ltac:(unfold len; simpl; lia)) as (_ & Hdt & _).
  split; [exact Hdel|].
  split; [exact (Hren 0 "t")|].
  split; [exact Hdt|].
  apply Hmove. unfold len. simpl. lia.
Defined.

(** [add_track] on a playlist name that is not in the store raises
    [KeyError]; it is not ignored silently (C4 as stated). *)
Lemma add_track_missing_playlist_raises :
  dict_in "Blues" (_data rock_pm) = false /\
  add_track "Blues" [("title", JStr "t"); ("url", JStr "u")] rock_pm
    = (Raise (KeyError "Playlist not found: Blues"), rock_pm).
Proof.
  split; reflexivity.
Qed.

(** ** Truncation *)

Section Truncation.

Local Open Scope Q_scope.

Lemma py_int_le (x y : Q) : x <= y -> (py_int x <= py_int y)%Z.
Proof.
  unfold Qle, py_int. intros H.
  rewrite <- (Z.quot_mul_cancel_r (Qnum x) (Zpos (Qden x)) (Zpos (Qden y)))
    by discriminate.
  rewrite <- (Z.quot_mul_cancel_r (Qnum y) (Zpos (Qden y)) (Zpos (Qden x)))
    by discriminate.
  rewrite (Z.mul_comm (Zpos (Qden y)) (Zpos (Qden x))).
  apply Z.quot_le_mono; [reflexivity | exact H].
Qed.

Lemma py_int_eq (x y : Q) : x == y -> py_int x = py_int y.
Proof.
  intros H. apply Z.le_antisymm; apply py_int_le; rewrite H; apply Qle_refl.
Qed.

Lemma py_int_nonneg (x : Q) : 0 <= x -> (0 <= py_int x)%Z /\ py_int x = Qfloor x.
Proof.
  destruct x as [n d]. unfold Qle, py_int, Qfloor. simpl. intros H.
  rewrite Z.mul_1_r in H. split.
  - apply Z.quot_pos; lia.
  - apply Z.quot_div_nonneg; lia.
Qed.

End Truncation.

(** ** start_playback *)

Section StartPlayback.

Lemma ytdlp_info_state url w info w1 :
  ytdlp_info url w = (Ok info, w1) ->
  PLAYING_STATE w1 = PLAYING_STATE w /\ voice_clients w1 = voice_clients w.
Proof.
  unfold ytdlp_info, bind, get, ret, raise, set_cache. simpl.
  destruct (dict_get url (_ytdlp_cache w)).
  - intros [= _ <-]. auto.
  - destruct (extract_info w url); intros [= _ <-]; auto.
Qed.

Lemma connect_result ch w r w' :
  connect ch w = (Ok r, w') ->
  PLAYING_STATE w' = PLAYING_STATE w /\
  r = Some (mkVoiceClient (ch_id ch) Idle) /\
  voice_clients w' = (voice_clients w ++ [mkVoiceClient (ch_id ch) Idle])%list.
Proof.
  unfold connect. destruct (ch_connectable ch).
  - unfold bind, get, set_voice_clients, ret. simpl. intros [= <- <-]. auto.
  - unfold raise. discriminate.
Qed.

Lemma ensure_join_none w w' :
  ensure_join w = (Ok None, w') -> w' = w /\ voice_clients w = [].
Proof.
  unfold ensure_join, bind at 1, get at 1. simpl.
  destruct (voice_clients w) as [|vc rest] eqn:Hvc.
  - intros H.
    repeat match type of H with
    | context [match ?x with _ => _ end] => destruct x eqn:?
    | connect ?c ?w = (Ok None, _) =>
        apply connect_result in H; destruct H as (_ & H & _); discriminate
    end.
    all: try (unfold ret in H; injection H as <-; auto).
  - unfold ret. discriminate.
Qed.

Lemma ensure_join_some w vc w' :
  ensure_join w = (Ok (Some vc), w') ->
  PLAYING_STATE w' = PLAYING_STATE w /\
  exists rest, voice_clients w' = vc :: rest.
Proof.
  unfold ensure_join, bind at 1, get at 1. simpl.
  destruct (voice_clients w) as [|v rest] eqn:Hvc.
  - intros H.
    repeat match type of H with
    | context [match ?x with _ => _ end] => destruct x eqn:?
    end.
    all: try (unfold ret in H; discriminate).
    all: apply connect_result in H; destruct H as (Hst & Hr & Hl);
      rewrite Hvc in Hl; simpl in Hl; injection Hr as ->;
      split; [exact Hst | eauto].
  - unfold ret. intros [= <- <-]. split; [reflexivity | eauto].
Qed.

Lemma str_item_opt key tr u :
  str_item key tr = Ok u -> opt_str_item key tr = Ok (Some u).
Proof.
  unfold str_item, opt_str_item.
  destruct (dict_get key tr) as [[| | | |]|]; congruence.
Qed.

End StartPlayback.

Ltac run_world :=
  unfold start_playback_end, update_state, vc_play, on_first_client,
    modify_state, set_state, set_voice_clients, set_cache,
    bind, ret, get, lift, raise; simpl.

(** A call of [start_playback] that finds its track, its metadata and a
    voice client runs to the end, whatever the player was doing. *)
Lemma start_playback_run (w : World) (now : Q) (tr : track)
      (t : option string) (u : string)
      (info : Info) (w1 w2 : World) (vc : VoiceClient) :
  opt_str_item "title" tr = Ok t ->
  str_item "url" tr = Ok u ->
  ytdlp_info u w = (Ok info, w1) ->
  ensure_join w1 = (Ok (Some vc), w2) ->
  exists w',
    start_playback (Some tr) now w = (Ok tt, w') /\
    PLAYING_STATE w' = fresh_state t u info now /\
    first_player w' = Some (Playing (info_url info)).
Proof.
  intros Ht Hu Hinfo Hjoin.
  destruct (ensure_join_some _ _ _ Hjoin) as (_ & rest & Hvc).
  pose proof (str_item_opt _ _ _ Hu) as Hu'.
  destruct tr as [|f fs]; [discriminate|].
  unfold start_playback, start_playback_begin.
  unfold bind at 1 2 3 4, lift at 1.
  rewrite Hu, Hinfo, Hjoin.
  destruct vc as [c [|src|src]]; unfold vc_is_playing, vc_is_paused; simpl;
    run_world; rewrite Hvc; simpl; rewrite Ht; simpl; rewrite Hu'; simpl;
    eexists; (split; [reflexivity|]); split; reflexivity.
Qed.

(** C3.  [start_playback] with no track ([None] or an empty dict) returns
    without raising and leaves the whole world as it was.  When the
    track's metadata is found and [ensure_join] returns [None], the call
    returns without raising and [PLAYING_STATE] is what it was (only the
    metadata cache may have grown). *)
Theorem start_playback_silent_noop (w : World) (now : Q) :
  start_playback None now w = (Ok tt, w) /\
  start_playback (Some []) now w = (Ok tt, w) /\
  forall tr url info w1 w2,
    str_item "url" tr = Ok url ->
    ytdlp_info url w = (Ok info, w1) ->
    ensure_join w1 = (Ok None, w2) ->
    start_playback (Some tr) now w = (Ok tt, w1) /\
    PLAYING_STATE w1 = PLAYING_STATE w.
Proof.
  split; [reflexivity|]. split; [reflexivity|].
  intros tr url info w1 w2 Hurl Hinfo Hjoin.
  destruct (ensure_join_none _ _ Hjoin) as [-> Hvc].
  destruct (ytdlp_info_state _ _ _ _ Hinfo) as [Hst _].
  split; [|exact Hst].
  destruct tr as [|f fs]; [discriminate|].
  unfold start_playback, start_playback_begin, bind, lift.
  rewrite Hurl, Hinfo, Hjoin. reflexivity.
Qed.

Lemma start_playback_silent_noop_witness :
  exists w1,
    start_playback (Some (demo_track "abc")) 100 lonely_world = (Ok tt, w1) /\
    PLAYING_STATE w1 = PlayingState_init.
Proof.
  destruct (start_playback_silent_noop lonely_world 100) as (_ & _ & H).
  eexists.
  apply (H (demo_track "abc") "https://youtu.be/abc" demo_info _ _
           eq_refl eq_refl eq_refl).
Defined.

(** C2, as the code has it.  A call of [start_playback] that finds its
    track, its metadata and a voice client ends with the player playing the
    resolved stream and with [PLAYING_STATE] equal to [fresh_state]: title
    and source URL of the track, thumbnail and duration of the metadata,
    start time [now], no preview, loader flag [False].  Nothing of the
    earlier state survives.  The pause flag and the pause time are [None]
    and not the declared defaults [False] and [0.0], because [clear]
    stores [None] in every field. *)
Theorem start_playback_overwrites_state (w : World) (now : Q) (tr : track)
        (t : option string) (u : string) (info : Info) (w1 w2 : World)
        (vc : VoiceClient) :
  opt_str_item "title" tr = Ok t ->
  str_item "url" tr = Ok u ->
  ytdlp_info u w = (Ok info, w1) ->
  ensure_join w1 = (Ok (Some vc), w2) ->
  exists w',
    start_playback (Some tr) now w = (Ok tt, w') /\
    PLAYING_STATE w' = fresh_state t u info now /\
    first_player w' = Some (Playing (info_url info)) /\
    paused (PLAYING_STATE w') = None /\
    pause_at (PLAYING_STATE w') = None /\
    paused PlayingState_init = Some false /\
    pause_at PlayingState_init = Some 0%Q.
Proof.
  intros Ht Hu Hinfo Hjoin.
  destruct (start_playback_run w now tr t u info w1 w2 vc Ht Hu Hinfo Hjoin)
    as (w' & Hrun & Hst & Hpl).
  exists w'. rewrite Hst. repeat split; assumption.
Qed.

Lemma start_playback_overwrites_state_witness :
  exists w',
    start_playback (Some (demo_track "abc")) 100 demo_world = (Ok tt, w') /\
    PLAYING_STATE w'
      = mkPlayingState (Some "abc") (Some "https://youtu.be/abc")
          (Some "https://i.ytimg.com/vi/dQw4w9WgXcQ/hqdefault.jpg")
          (Some 200) (Some 100%Q) None None None (Some false).
Proof.
  destruct (start_playback_overwrites_state demo_world 100 (demo_track "abc")
              (Some "abc") "https://youtu.be/abc" demo_info _ _ _
              eq_refl eq_refl eq_refl eq_refl)
    as (w' & Hrun & Hst & _).
  exists w'. split; [exact Hrun | exact Hst].
Defined.
Section PauseResume.

Local Open Scope Q_scope.

Lemma coherent_later w t t' : coherent w t -> t <= t' -> coherent w t'.
Proof.
  intros (s0 & Hs & Hle & Hp & Hv) Ht. exists s0.
  split; [exact Hs|]. split; [lra|]. split; [|exact Hv].
  intros Hpa. destruct (Hp Hpa) as (p & Hp1 & Hp2 & Hp3).
  exists p. repeat split; try assumption; lra.
Qed.

Lemma coherent_elapsed_mono w t t1 t2 :
  coherent w t -> t <= t1 -> t1 <= t2 ->
  exists e1 e2,
    elapsed w t1 = Ok e1 /\ elapsed w t2 = Ok e2 /\ (e1 <= e2)%Z.
Proof.
  intros (s0 & Hs & Hle & Hp & _) H1 H2.
  unfold elapsed, elapsed_seconds.
  destruct (is_playing (PLAYING_STATE w)); simpl.
  - destruct (truthy_bool (paused (PLAYING_STATE w))) eqn:Hpa.
    + destruct (Hp eq_refl) as (p & -> & _ & _). rewrite Hs. simpl.
      do 2 eexists. repeat split. apply Z.le_refl.
    + rewrite Hs. simpl. do 2 eexists. repeat split.
      apply py_int_le. lra.
  - exists 0%Z, 0%Z. repeat split. apply Z.le_refl.
Qed.

Lemma toggle_step w t now :
  coherent w t -> t <= now ->
  exists w',
    pause_toggle now w = (Ok tt, w') /\
    coherent w' now /\
    (forall src, first_player w = Some (Paused src) ->
       exists s0 p s1,
         start_time (PLAYING_STATE w) = Some s0 /\
         pause_at (PLAYING_STATE w) = Some p /\
         start_time (PLAYING_STATE w') = Some s1 /\
         s1 == s0 + (now - p) /\
         elapsed w' now = elapsed w now) /\
    (forall t1 t2, t <= t1 -> t1 <= now -> now <= t2 ->
       exists e1 e2,
         elapsed w t1 = Ok e1 /\ elapsed w' t2 = Ok e2 /\ (e1 <= e2)%Z).
Proof.
  intros Hc Hnow.
  pose proof Hc as (s0 & Hs & Hle & Hp & Hv).
  unfold pause_toggle, bind at 1, get at 1.
  destruct (voice_clients w) as [|[c pl] rest] eqn:Hvc.
  - exists w. split; [reflexivity|].
    split; [now apply coherent_later with t|].
    split; [unfold first_player; rewrite Hvc; discriminate|].
    intros t1 t2 H1 H2 H3. apply coherent_elapsed_mono with t; trivial; lra.
  - destruct pl as [|src|src]; unfold vc_is_playing, vc_is_paused; simpl.
    + exists w. split; [reflexivity|].
      split; [now apply coherent_later with t|].
      split; [unfold first_player; rewrite Hvc; discriminate|].
      intros t1 t2 H1 H2 H3. apply coherent_elapsed_mono with t; trivial; lra.
    + run_world. rewrite Hvc. simpl.
      eexists. split; [reflexivity|]. split; [|split].
      * exists s0. simpl. split; [exact Hs|]. split; [lra|]. split.
        -- intros _. exists now. repeat split; lra.
        -- reflexivity.
      * unfold first_player. rewrite Hvc. simpl. discriminate.
      * intros t1 t2 H1 H2 H3.
        unfold elapsed, elapsed_seconds, is_playing. simpl.
        destruct (truthy_str (title (PLAYING_STATE w))); simpl.
        -- rewrite Hs. simpl.
           destruct (truthy_bool (paused (PLAYING_STATE w))) eqn:Hpa.
           ++ destruct (Hp eq_refl) as (p & -> & Hp2 & Hp3). simpl.
              do 2 eexists. repeat split. apply py_int_le. lra.
           ++ simpl. do 2 eexists. repeat split. apply py_int_le. lra.
        -- exists 0%Z, 0%Z. repeat split. apply Z.le_refl.
    + assert (Hpa : truthy_bool (paused (PLAYING_STATE w)) = true).
      { apply (Hv src). unfold first_player. now rewrite Hvc. }
      destruct (Hp Hpa) as (p & Hpat & Hp2 & Hp3).
      run_world. rewrite Hvc. simpl. unfold float_sub. rewrite Hpat, Hs. simpl.
      eexists. split; [reflexivity|]. split; [|split].
      * eexists. simpl. split; [reflexivity|]. split; [lra|]. split.
        -- discriminate.
        -- discriminate.
      * intros src' _. exists s0, p. eexists. simpl.
        split; [reflexivity|]. split; [reflexivity|]. split; [reflexivity|].
        split; [reflexivity|].
        unfold elapsed, elapsed_seconds, is_playing. simpl.
        destruct (truthy_str (title (PLAYING_STATE w))); simpl; [|reflexivity].
        rewrite Hpa, Hpat, Hs. simpl. f_equal. apply py_int_eq. ring.
      * intros t1 t2 H1 H2 H3.
        unfold elapsed, elapsed_seconds, is_playing. simpl.
        destruct (truthy_str (title (PLAYING_STATE w))); simpl.
        -- rewrite Hpa, Hpat, Hs. simpl.
           do 2 eexists. repeat split. apply py_int_le. lra.
        -- exists 0%Z, 0%Z. repeat split. apply Z.le_refl.
Qed.

End PauseResume.

Lemma toggled_coherent w0 t0 w t :
  coherent w0 t0 -> toggled w0 t0 w t -> coherent w t.
Proof.
  intros Hc Hrun. induction Hrun as [|w0 t0 w1 t1 now w2 _ IH Hle Htog].
  - exact Hc.
  - destruct (toggle_step w1 t1 now (IH Hc) Hle) as (w' & Hrun' & Hc' & _).
    rewrite Htog in Hrun'. injection Hrun' as <-. exact Hc'.
Qed.

Lemma fresh_state_coherent w t u info now src :
  PLAYING_STATE w = fresh_state t u info now ->
  first_player w = Some (Playing src) ->
  coherent w now.
Proof.
  intros Hst Hpl. exists now. rewrite Hst, Hpl. simpl.
  split; [reflexivity|]. split; [apply Qle_refl|]. split; discriminate.
Qed.

Section PauseThenResume.

Local Open Scope Q_scope.

Lemma toggling_coherent src w t : toggling src w t -> coherent w t.
Proof.
  intros (s0 & Hs & Hle & [[Hpl Hf] | (Hpl & Hfl & Hpa)]); exists s0.
  - split; [exact Hs|]. split; [exact Hle|]. split.
    + intros Ht. congruence.
    + intros src' Hp. congruence.
  - split; [exact Hs|]. split; [exact Hle|]. split.
    + intros _. exists t. split; [exact Hpa|]. split; [exact Hle | apply Qle_refl].
    + intros src' _. now rewrite Hfl.
Qed.

(** One call of [pause_toggle] in such a run: what it writes. *)
Lemma toggling_step src w t now :
  toggling src w t -> t <= now ->
  exists w',
    pause_toggle now w = (Ok tt, w') /\
    toggling src w' now /\
    (first_player w = Some (Playing src) ->
       first_player w' = Some (Paused src) /\
       paused (PLAYING_STATE w') = Some true /\
       pause_at (PLAYING_STATE w') = Some now /\
       start_time (PLAYING_STATE w') = start_time (PLAYING_STATE w) /\
       forall t', now <= t' -> elapsed w' t' = elapsed w now) /\
    (first_player w = Some (Paused src) ->
       exists s0 s1,
         start_time (PLAYING_STATE w) = Some s0 /\
         pause_at (PLAYING_STATE w) = Some t /\
         start_time (PLAYING_STATE w') = Some s1 /\
         s1 == s0 + (now - t) /\
         first_player w' = Some (Playing src) /\
         paused (PLAYING_STATE w') = Some false /\
         elapsed w' now = elapsed w now).
Proof.
  intros (s0 & Hs & Hle & Hcase) Hnow.
  unfold pause_toggle, bind at 1, get at 1.
  destruct Hcase as [[Hpl Hf] | (Hpl & Hfl & Hpa)];
    unfold first_player in Hpl;
    destruct (voice_clients w) as [|[c pl] rest] eqn:Hvc; try discriminate;
    simpl in Hpl; injection Hpl as ->;
    unfold vc_is_playing, vc_is_paused; simpl.
  - run_world. rewrite Hvc. simpl.
    eexists. split; [reflexivity|]. split; [|split].
    + exists s0. simpl. split; [exact Hs|]. split; [lra|]. right.
      unfold first_player. simpl. auto.
    + intros _. unfold first_player. simpl.
      split; [reflexivity|]. split; [reflexivity|]. split; [reflexivity|].
      split; [reflexivity|].
      intros t' Ht'. unfold elapsed, elapsed_seconds, is_playing. simpl.
      destruct (truthy_str (title (PLAYING_STATE w))); simpl; [|reflexivity].
      now rewrite Hf, Hs.
    + unfold first_player. rewrite Hvc. simpl. discriminate.
  - run_world. rewrite Hvc. simpl. unfold float_sub. rewrite Hpa, Hs. simpl.
    eexists. split; [reflexivity|]. split; [|split].
    + eexists. simpl. split; [reflexivity|]. split; [lra|]. left.
      unfold first_player. simpl. auto.
    + unfold first_player. rewrite Hvc. simpl. discriminate.
    + intros _. exists s0. eexists. simpl.
      split; [reflexivity|]. split; [reflexivity|]. split; [reflexivity|].
      split; [reflexivity|]. unfold first_player. simpl.
      split; [reflexivity|]. split; [reflexivity|].
      unfold elapsed, elapsed_seconds, is_playing. simpl.
      destruct (truthy_str (title (PLAYING_STATE w))); simpl; [|reflexivity].
      rewrite Hfl, Hpa, Hs. simpl. f_equal. apply py_int_eq. ring.
Qed.

Lemma toggled_toggling src w0 t0 w t :
  toggling src w0 t0 -> toggled w0 t0 w t -> toggling src w t.
Proof.
  intros H0 Hrun. induction Hrun as [|w t w1 t1 now w2 _ IH Hle Htog];
    [exact H0|].
  destruct (toggling_step src w1 t1 now (IH H0) Hle) as (w' & Hrun' & Hc' & _).
  rewrite Htog in Hrun'. now injection Hrun' as <-.
Qed.

Lemma fresh_state_toggling w t u info now :
  PLAYING_STATE w = fresh_state t u info now ->
  first_player w = Some (Playing (info_url info)) ->
  toggling (info_url info) w now.
Proof.
  intros Hst Hpl. exists now. rewrite Hst. simpl.
  split; [reflexivity|]. split; [apply Qle_refl|]. left. auto.
Qed.

End PauseThenResume.

(** C1.  Start a track, then call [pause_toggle] any number of times at
    non-decreasing clock values, with nothing else in between; let [t] be
    the clock of the last of these calls (of the start when there was
    none).  Then the player plays or is paused, and the next call of
    [pause_toggle], at any later clock value [now], returns without raising,
    and:
    - if the player plays, the call pauses it, sets the pause flag and
      records [now] as the pause time, leaves the start time alone, and
      [elapsed_seconds] read at any time from [now] on is what it read at
      [now] before the call;
    - if the player is paused, the pause time is [t], the call resumes the
      player, clears the pause flag and sets the start time to the old one
      plus [now - t], the time spent paused, and [elapsed_seconds] read at
      [now] is the same before and after the call;
    - [elapsed_seconds] never decreases: not between two readings before
      the call, and not from a reading before the call to a reading after
      it. *)
Theorem pause_resume_elapsed_continuous
        (wprev : World) (now0 : Q) (tr : track) (ti : option string)
        (u : string) (info : Info) (w1 w2 : World) (vc : VoiceClient)
        (w0 w : World) (t now : Q) :
  opt_str_item "title" tr = Ok ti ->
  str_item "url" tr = Ok u ->
  ytdlp_info u wprev = (Ok info, w1) ->
  ensure_join w1 = (Ok (Some vc), w2) ->
  start_playback (Some tr) now0 wprev = (Ok tt, w0) ->
  toggled w0 now0 w t ->
  (t <= now)%Q ->
  exists w',
    pause_toggle now w = (Ok tt, w') /\
    (first_player w = Some (Playing (info_url info)) \/
     first_player w = Some (Paused (info_url info))) /\
    (first_player w = Some (Playing (info_url info)) ->
       first_player w' = Some (Paused (info_url info)) /\
       paused (PLAYING_STATE w') = Some true /\
       pause_at (PLAYING_STATE w') = Some now /\
       start_time (PLAYING_STATE w') = start_time (PLAYING_STATE w) /\
       forall t', (now <= t')%Q -> elapsed w' t' = elapsed w now) /\
    (first_player w = Some (Paused (info_url info)) ->
       exists s0 s1,
         start_time (PLAYING_STATE w) = Some s0 /\
         pause_at (PLAYING_STATE w) = Some t /\
         start_time (PLAYING_STATE w') = Some s1 /\
         (s1 == s0 + (now - t))%Q /\
         first_player w' = Some (Playing (info_url info)) /\
         paused (PLAYING_STATE w') = Some false /\
         elapsed w' now = elapsed w now) /\
    (forall t1 t2, (t <= t1)%Q -> (t1 <= t2)%Q ->
       exists e1 e2,
         elapsed w t1 = Ok e1 /\ elapsed w t2 = Ok e2 /\ e1 <= e2) /\
    (forall t1 t2, (t <= t1)%Q -> (t1 <= now)%Q -> (now <= t2)%Q ->
       exists e1 e2,
         elapsed w t1 = Ok e1 /\ elapsed w' t2 = Ok e2 /\ e1 <= e2).
Proof.
  intros Hti Hu Hinfo Hjoin Hstart Hrun Hnow.
  destruct (start_playback_run wprev now0 tr ti u info w1 w2 vc Hti Hu Hinfo Hjoin)
    as (w0' & Hrun0 & Hst & Hpl).
  rewrite Hstart in Hrun0. injection Hrun0 as <-.
  assert (Ht : toggling (info_url info) w t).
  { apply toggled_toggling with w0 now0; [|exact Hrun].
    eapply fresh_state_toggling; eassumption. }
  pose proof (toggling_coherent _ _ _ Ht) as Hc.
  destruct (toggling_step _ w t now Ht Hnow) as (w' & Htog & _ & Hpause & Hres).
  destruct (toggle_step w t now Hc Hnow) as (w'' & Htog' & _ & _ & Hmono).
  rewrite Htog in Htog'. injection Htog' as <-.
  exists w'. split; [exact Htog|]. split.
  { destruct Ht as (s0 & _ & _ & [[H _] | [H _]]); auto. }
  split; [exact Hpause|]. split; [exact Hres|]. split; [|exact Hmono].
  intros t1 t2 H1 H2. now apply coherent_elapsed_mono with t.
Qed.

(** A track started at 100 and paused at 101 is resumed at 110: the start
    time moves by the nine seconds of the pause, and the reading at 110 is
    the one second played, before and after. *)
Lemma pause_resume_elapsed_continuous_witness :
  first_player paused_world = Some (Paused "https://cdn/stream") /\
  pause_at (PLAYING_STATE paused_world) = Some 101%Q /\
  exists w' s1,
    pause_toggle 110 paused_world = (Ok tt, w') /\
    first_player w' = Some (Playing "https://cdn/stream") /\
    start_time (PLAYING_STATE w') = Some s1 /\ (s1 == 109)%Q /\
    elapsed paused_world 110 = Ok 1 /\
    elapsed w' 110 = Ok 1.
Proof.
  assert (H100 : (100 <= 100)%Q) by (unfold Qle; simpl; lia).
  assert (H101 : (100 <= 101)%Q) by (unfold Qle; simpl; lia).
  assert (H110 : (101 <= 110)%Q) by (unfold Qle; simpl; lia).
  destruct (pause_resume_elapsed_continuous
              demo_world 100 (demo_track "abc") (Some "abc") "https://youtu.be/abc"
              demo_info _ _ _ playing_world playing_world 100 101
              eq_refl eq_refl eq_refl eq_refl eq_refl
              (toggled_refl playing_world 100) H101)
    as (wp & Hp & _ & Hpause & _).
  assert (Ewp : wp = paused_world)
    by (unfold paused_world; now rewrite Hp).
  subst wp.
  destruct (Hpause eq_refl) as (Hpl & _ & Hat & _ & _).
  destruct (pause_resume_elapsed_continuous
              demo_world 100 (demo_track "abc") (Some "abc") "https://youtu.be/abc"
              demo_info _ _ _ playing_world paused_world 101 110
              eq_refl eq_refl eq_refl eq_refl eq_refl
              (toggled_step _ _ _ _ 101 _ (toggled_refl playing_world 100)
                 H101 eq_refl)
              H110)
    as (w' & Htog & _ & _ & Hres & _).
  destruct (Hres Hpl) as (s0 & s1 & Hs0 & _ & Hs1 & Heq & Hpl' & _ & He).
  split; [exact Hpl|]. split; [exact Hat|].
  exists w', s1. split; [exact Htog|]. split; [exact Hpl'|].
  split; [exact Hs1|]. split.
  - rewrite Heq. injection Hs0 as <-. reflexivity.
  - split; [reflexivity|]. rewrite He. reflexivity.
Defined.

(** ** The event loop *)

Lemma run_start_step tr now l :
  sleeping l = [] ->
  (clock l <= now)%Q -> loop_step l (run_start tr now l).
Proof.
  intros Hs H. unfold run_start.
  destruct (start_playback_begin (Some tr) now (loop_world l)) as [r w'] eqn:E.
  simpl. now apply step_start.
Qed.

Lemma run_toggle_step now l :
  (clock l <= now)%Q -> loop_step l (run_toggle now l).
Proof.
  intros H. unfold run_toggle.
  destruct (pause_toggle now (loop_world l)) as [r w'] eqn:E.
  simpl. now apply step_toggle with r.
Qed.

(** C9, on the code.  A state the running program reaches in which a track
    is playing (the title is set) and [elapsed_seconds] is negative: the
    user resumes a track that was paused for nine seconds after one second
    of play, asks for another track, and presses Pause/Resume while that
    call of [start_playback] sleeps between [vc.pause()] and [vc.stop()].
    [pause_toggle] finds the player paused, takes the stale [pause_at] of
    the earlier pause and moves [start_time] past the clock. *)
Theorem elapsed_negative_in_grace_sleep :
  reachable startup race_trace /\
  title (PLAYING_STATE (loop_world race_trace)) = Some "first" /\
  paused (PLAYING_STATE (loop_world race_trace)) = Some false /\
  sleeping race_trace = [(demo_track "second", demo_info)] /\
  elapsed (loop_world race_trace) (clock race_trace) = Ok (-8).
Proof.
  split; [|repeat split; reflexivity].
  unfold race_trace.
  repeat (eapply reach_step;
          [| first [apply run_toggle_step
                   | apply run_start_step; [reflexivity|]];
             unfold Qle; simpl; lia]).
  apply reach_here.
Qed.

(** ** End of track *)

Section EndOfTrack.















(** C5, on the code.  In the [else] branch (mode [stop], or any mode that
    is not handled above it) [on_track_end] submits [_halt], clears the
    shared state and forgets the current track.  [is_playing] is false
    afterwards.  But [_halt] reads [voice_clients] from [BOT_LOOP], the
    asyncio event loop, which has no such attribute: the coroutine raises
    [AttributeError] and leaves the world as it is, so the player is not
    stopped.  And the cleared state holds [None] in every field, not the
    declared defaults. *)
Theorem on_track_end_stop_keeps_stream (a : App) :
  stop_branch a = true ->
  on_track_end a = [(Ok tt, after_stop a)] /\
  current_track (after_stop a) = None /\
  is_playing (PLAYING_STATE (world (after_stop a))) = false /\
  submitted (after_stop a) = (submitted a ++ [co_halt])%list /\
  voice_clients (world (after_stop a)) = voice_clients (world a) /\
  (forall now w,
     run_coroutine co_halt now w = (Raise (AttributeError "voice_clients"), w)) /\
  PLAYING_STATE (world (after_stop a)) <> PlayingState_init.
Proof.
  intros Hb. unfold stop_branch in Hb.
  apply andb_true_iff in Hb as [Hb Hrandom].
  apply andb_true_iff in Hb as [Hloop Hnext].
  apply negb_true_iff in Hloop, Hnext, Hrandom.
  split.
  - unfold on_track_end, g_bind at 1, g_get at 1. simpl.
    rewrite Hloop, Hnext, Hrandom. reflexivity.
  - repeat split; try reflexivity. discriminate.
Qed.



Lemma on_track_end_stop_keeps_stream_witness :
  on_track_end (demo_app "stop") = [(Ok tt, after_stop (demo_app "stop"))] /\
  run_coroutine co_halt 300 (world (after_stop (demo_app "stop")))
    = (Raise (AttributeError "voice_clients"), world (after_stop (demo_app "stop"))) /\
  first_player (world (after_stop (demo_app "stop")))
    = Some (Playing "https://cdn/stream").
Proof.
  destruct (on_track_end_stop_keeps_stream (demo_app "stop") eq_refl)
    as (Hrun & _ & _ & _ & _ & Hhalt & _).
  split; [exact Hrun|]. split; [apply Hhalt | reflexivity].
Defined.

End EndOfTrack.

(** ** json: dumps, then loads *)

Section Strings.

Lemma str_app_assoc (a b c : string) : ((a ++ b) ++ c = a ++ (b ++ c))%string.
Proof. induction a as [|x a IH]; simpl; [reflexivity | now rewrite IH]. Qed.

Lemma str_app_nil_r (a : string) : (a ++ "" = a)%string.
Proof. induction a as [|x a IH]; simpl; [reflexivity | now rewrite IH]. Qed.

Lemma str_length_app (a b : string) :
  String.length (a ++ b) = (String.length a + String.length b)%nat.
Proof. induction a as [|x a IH]; simpl; [reflexivity | now rewrite IH]. Qed.

End Strings.

Section StringLiterals.

Lemma scan_escape_char (c : ascii) (tail : string) :
  scan (escape_char c ++ tail)
  = match scan tail with
    | Some (ts, r) => Some (tok_of c :: ts, r)
    | None => None
    end.
Proof.
  destruct c as [[] [] [] [] [] [] [] []]; reflexivity.
Qed.

Lemma render_tok_of (c : ascii) (ts : list tok) :
  render (tok_of c :: ts) = String c (render ts).
Proof.
  destruct c as [[] [] [] [] [] [] [] []]; reflexivity.
Qed.

Lemma tok_of_small (c : ascii) :
  match tok_of c with Esc n => (n < 32)%N | Raw _ => True end.
Proof.
  destruct c as [[] [] [] [] [] [] [] []]; simpl; exact I || reflexivity.
Qed.

End StringLiterals.

Section StringRoundTrip.


Lemma scan_escape (s rest : string) :
  scan (escape s ++ String dquote rest) = Some (toks s, rest).
Proof.
  induction s as [|c s IH]; simpl.
  - reflexivity.
  - rewrite str_app_assoc, scan_escape_char, IH. reflexivity.
Qed.


Lemma combine_small (ts : list tok) :
  Forall small_tok ts -> combine_surrogates ts = ts.
Proof.
  induction ts as [|t ts IH]; intros H; [reflexivity|].
  inversion H as [|? ? Ht Hts]; subst.
  destruct t as [c|hi].
  - simpl. now rewrite IH.
  - destruct ts as [|[c|lo] ts2].
    + reflexivity.
    + change (combine_surrogates (Esc hi :: Raw c :: ts2))
        with (Esc hi :: combine_surrogates (Raw c :: ts2)).
      now rewrite IH.
    + simpl in Ht.
      assert (Hhi : (55296 <=? hi)%N = false) by (apply N.leb_gt; lia).
      cbn [combine_surrogates]. rewrite Hhi. cbn [andb].
      f_equal. apply IH. exact Hts.
Qed.

Lemma toks_small (s : string) : Forall small_tok (toks s).
Proof.
  induction s as [|c s IH]; simpl; constructor; [apply tok_of_small | exact IH].
Qed.

Lemma render_toks (s : string) : render (toks s) = s.
Proof.
  induction s as [|c s IH]; [reflexivity|].
  cbn [toks]. now rewrite render_tok_of, IH.
Qed.

Lemma scanstring_encode (s rest : string) :
  scanstring (escape s ++ String dquote rest) = Some (s, rest).
Proof.
  unfold scanstring. rewrite scan_escape, combine_small, render_toks.
  - reflexivity.
  - apply toks_small.
Qed.

End StringRoundTrip.


Section ValueRoundTrip.

Lemma json_nested_ind (P : json -> Prop) :
  P JNull ->
  (forall b, P (JBool b)) ->
  (forall s, P (JStr s)) ->
  (forall l, Forall P l -> P (JArr l)) ->
  (forall l, Forall (fun kv => P (snd kv)) l -> P (JObj l)) ->
  forall v, P v.
Proof.
  intros Hnull Hbool Hstr Harr Hobj.
  fix IH 1. intros [|b|s|l|l].
  - exact Hnull.
  - apply Hbool.
  - apply Hstr.
  - apply Harr. induction l as [|x l IHl]; constructor; [apply IH | exact IHl].
  - apply Hobj. induction l as [|x l IHl]; constructor; [apply IH | exact IHl].
Qed.

Lemma skip_ws_spaces (n : nat) (s : string) :
  skip_ws (spaces n ++ s) = skip_ws s.
Proof. induction n as [|n IH]; simpl; [reflexivity | exact IH]. Qed.

Lemma skip_ws_newline_indent (n : nat) (s : string) :
  skip_ws (newline_indent n ++ s) = skip_ws s.
Proof. unfold newline_indent. simpl. apply skip_ws_spaces. Qed.

Lemma encode_head (lvl : nat) (v : json) (rest : string) :
  exists c r,
    (encode lvl v ++ rest)%string = String c r /\
    is_ws c = false /\
    Ascii.eqb c "]" = false /\
    Ascii.eqb c "}" = false.
Proof.
  destruct v as [|[]|s|[|x xs]|[|[k x] xs]]; simpl; do 2 eexists;
    (split; [reflexivity|]); repeat split; reflexivity.
Qed.

Lemma skip_ws_encode (lvl : nat) (v : json) (rest : string) :
  skip_ws (encode lvl v ++ rest) = (encode lvl v ++ rest)%string.
Proof.
  destruct (encode_head lvl v rest) as (c & r & -> & Hws & _).
  simpl. now rewrite Hws.
Qed.

(** *** The shape of the encoder's text *)

Ltac str_norm := repeat (rewrite str_app_assoc; cbn [append]).

Lemma encode_string_app (s rest : string) :
  (encode_string s ++ rest)%string = String dquote (escape s ++ String dquote rest).
Proof. unfold encode_string. simpl. str_norm. reflexivity. Qed.

Lemma encode_items_cons (enc : json -> string) (sep : string) (y : json)
      (ys : list json) (tail : string) :
  (encode_items enc sep (y :: ys) ++ tail)%string
  = String "," (sep ++ enc y ++ encode_items enc sep ys ++ tail).
Proof. simpl. str_norm. reflexivity. Qed.

Lemma encode_members_cons (enc : json -> string) (sep k : string) (y : json)
      (ys : list (string * json)) (tail : string) :
  (encode_members enc sep ((k, y) :: ys) ++ tail)%string
  = String "," (sep ++ String dquote (escape k ++ String dquote
      (String ":" (String " " (enc y ++ encode_members enc sep ys ++ tail))))).
Proof.
  simpl. str_norm. reflexivity.
Qed.

Lemma encode_arr_cons (lvl : nat) (x : json) (xs : list json) (rest : string) :
  (encode lvl (JArr (x :: xs)) ++ rest)%string
  = String "["
      (newline_indent (S lvl) ++ encode (S lvl) x
       ++ encode_items (encode (S lvl)) (newline_indent (S lvl)) xs
       ++ newline_indent lvl ++ String "]" rest).
Proof. simpl. str_norm. reflexivity. Qed.

Lemma encode_obj_cons (lvl : nat) (k : string) (x : json)
      (xs : list (string * json)) (rest : string) :
  (encode lvl (JObj ((k, x) :: xs)) ++ rest)%string
  = String "{"
      (newline_indent (S lvl) ++ String dquote (escape k ++ String dquote
         (String ":" (String " " (encode (S lvl) x
           ++ encode_members (encode (S lvl)) (newline_indent (S lvl)) xs
           ++ newline_indent lvl ++ String "}" rest))))).
Proof.
  simpl. str_norm. reflexivity.
Qed.

(** *** One step of the parser *)

Lemma parse_value_string (f : nat) (r str rest : string) :
  scanstring r = Some (str, rest) ->
  parse_value (S f) (String dquote r) = Parsed (JStr str) rest.
Proof. intros H. cbn [parse_value]. simpl (Ascii.eqb dquote dquote). now rewrite H. Qed.

Lemma parse_value_arr_nil (f : nat) (r r1 : string) :
  skip_ws r = String "]" r1 ->
  parse_value (S f) (String "[" r) = Parsed (JArr []) r1.
Proof. intros H. cbn [parse_value]. simpl (Ascii.eqb _ _). now rewrite H. Qed.

Lemma parse_value_arr (f : nat) (r r1 rest : string) (c1 : ascii) (vs : list json) :
  skip_ws r = String c1 r1 ->
  Ascii.eqb c1 "]" = false ->
  parse_elems f (String c1 r1) = Parsed vs rest ->
  parse_value (S f) (String "[" r) = Parsed (JArr vs) rest.
Proof.
  intros H Hc Hp. cbn [parse_value]. simpl (Ascii.eqb _ _). now rewrite H, Hc, Hp.
Qed.

Lemma parse_value_obj_nil (f : nat) (r r1 : string) :
  skip_ws r = String "}" r1 ->
  parse_value (S f) (String "{" r) = Parsed (JObj []) r1.
Proof. intros H. cbn [parse_value]. simpl (Ascii.eqb _ _). now rewrite H. Qed.

Lemma parse_value_obj (f : nat) (r r1 rest : string) (c1 : ascii)
      (ps : list (string * json)) :
  skip_ws r = String c1 r1 ->
  Ascii.eqb c1 "}" = false ->
  parse_members f (String c1 r1) = Parsed ps rest ->
  parse_value (S f) (String "{" r) = Parsed (JObj (dict_of_pairs ps)) rest.
Proof.
  intros H Hc Hp. cbn [parse_value]. simpl (Ascii.eqb _ _). now rewrite H, Hc, Hp.
Qed.

Lemma parse_elems_last (f : nat) (s r r1 : string) (v : json) :
  parse_value f s = Parsed v r ->
  skip_ws r = String "]" r1 ->
  parse_elems (S f) s = Parsed [v] r1.
Proof. intros Hv Hr. cbn [parse_elems]. now rewrite Hv, Hr. Qed.

Lemma parse_elems_more (f : nat) (s r r1 rest : string) (v : json) (vs : list json) :
  parse_value f s = Parsed v r ->
  skip_ws r = String "," r1 ->
  parse_elems f (skip_ws r1) = Parsed vs rest ->
  parse_elems (S f) s = Parsed (v :: vs) rest.
Proof.
  intros Hv Hr Hp. cbn [parse_elems]. rewrite Hv, Hr.
  simpl (Ascii.eqb _ _). now rewrite Hp.
Qed.

Lemma parse_members_last (f : nat) (r r1 r2 r3 r4 key : string) (v : json) :
  scanstring r = Some (key, r1) ->
  skip_ws r1 = String ":" r2 ->
  parse_value f (skip_ws r2) = Parsed v r3 ->
  skip_ws r3 = String "}" r4 ->
  parse_members (S f) (String dquote r) = Parsed [(key, v)] r4.
Proof.
  intros Hk H1 Hv H3. cbn [parse_members]. simpl (Ascii.eqb dquote dquote).
  rewrite Hk, H1. simpl (Ascii.eqb _ _). now rewrite Hv, H3.
Qed.

Lemma parse_members_more (f : nat) (r r1 r2 r3 r4 rest key : string) (v : json)
      (ps : list (string * json)) :
  scanstring r = Some (key, r1) ->
  skip_ws r1 = String ":" r2 ->
  parse_value f (skip_ws r2) = Parsed v r3 ->
  skip_ws r3 = String "," r4 ->
  parse_members f (skip_ws r4) = Parsed ps rest ->
  parse_members (S f) (String dquote r) = Parsed ((key, v) :: ps) rest.
Proof.
  intros Hk H1 Hv H3 Hp. cbn [parse_members]. simpl (Ascii.eqb dquote dquote).
  rewrite Hk, H1. simpl (Ascii.eqb _ _). rewrite Hv, H3.
  simpl (Ascii.eqb _ _). now rewrite Hp.
Qed.

(** *** Items and members *)

Lemma parse_elems_encode (L : nat) (closing rest : string) :
  skip_ws (closing ++ String "]" rest) = String "]" rest ->
  forall (xs : list json) (x : json) (fuel : nat),
    Forall parses (x :: xs) ->
    (list_sum (map (fun y => S (weight y)) (x :: xs)) < fuel)%nat ->
    parse_elems fuel
      (encode L x ++ encode_items (encode L) (newline_indent L) xs
       ++ closing ++ String "]" rest)
    = Parsed (x :: xs) rest.
Proof.
  intros Hclose. induction xs as [|y ys IH]; intros x fuel Hall Hfuel;
    inversion Hall as [|? ? Hx Hrest]; subst; simpl in Hfuel;
    (destruct fuel as [|f]; [lia|]).
  - eapply parse_elems_last; [apply Hx; lia | exact Hclose].
  - eapply parse_elems_more.
    + apply Hx. lia.
    + rewrite encode_items_cons. reflexivity.
    + rewrite skip_ws_newline_indent, skip_ws_encode.
      apply IH; [exact Hrest | simpl; lia].
Qed.

Lemma parse_members_encode (L : nat) (closing rest : string) :
  skip_ws (closing ++ String "}" rest) = String "}" rest ->
  forall (xs : list (string * json)) (k : string) (x : json) (fuel : nat),
    Forall (fun kv => parses (snd kv)) ((k, x) :: xs) ->
    (list_sum (map (fun kv => S (weight (snd kv))) ((k, x) :: xs)) < fuel)%nat ->
    parse_members fuel
      (String dquote (escape k ++ String dquote
         (String ":" (String " " (encode L x
            ++ encode_members (encode L) (newline_indent L) xs
            ++ closing ++ String "}" rest)))))
    = Parsed ((k, x) :: xs) rest.
Proof.
  intros Hclose. induction xs as [|[k' y] ys IH]; intros k x fuel Hall Hfuel;
    inversion Hall as [|? ? Hx Hrest]; subst; simpl in Hx, Hfuel;
    (destruct fuel as [|f]; [lia|]).
  - eapply parse_members_last.
    + apply scanstring_encode.
    + reflexivity.
    + cbn [skip_ws]. simpl (is_ws " "). cbn iota. rewrite skip_ws_encode.
      apply Hx. lia.
    + exact Hclose.
  - eapply parse_members_more.
    + apply scanstring_encode.
    + reflexivity.
    + cbn [skip_ws]. simpl (is_ws " "). cbn iota. rewrite skip_ws_encode.
      apply Hx. lia.
    + rewrite encode_members_cons. reflexivity.
    + rewrite skip_ws_newline_indent. cbn [skip_ws]. simpl (is_ws dquote). cbn iota.
      apply IH; [exact Hrest | simpl; lia].
Qed.

End ValueRoundTrip.

Section DumpLoad.

Lemma existsb_eqb_in (k : string) (l : list string) :
  existsb (String.eqb k) l = true <-> In k l.
Proof.
  rewrite existsb_exists. split.
  - intros (x & Hx & He). apply String.eqb_eq in He. now subst.
  - intros H. exists k. split; [exact H | apply String.eqb_refl].
Qed.

Lemma distinct_NoDup (l : list string) : distinct l = true <-> NoDup l.
Proof.
  induction l as [|k l IH]; simpl.
  - split; [constructor | reflexivity].
  - rewrite andb_true_iff, negb_true_iff, IH. split.
    + intros [Hn Hd]. constructor; [|exact Hd].
      intros Hin. apply existsb_eqb_in in Hin. congruence.
    + intros H. inversion H as [|? ? Hn Hd]; subst. split; [|exact Hd].
      destruct (existsb (String.eqb k) l) eqn:E; [|reflexivity].
      apply existsb_eqb_in in E. contradiction.
Qed.

Lemma dict_of_pairs_distinct {A : Type} (ps : list (string * A)) :
  distinct (map fst ps) = true -> dict_of_pairs ps = ps.
Proof.
  intros Hd. apply distinct_NoDup in Hd. unfold dict_of_pairs.
  enough (H : forall acc,
             NoDup (keys acc ++ map fst ps) ->
             fold_left (fun d kv => dict_set (fst kv) (snd kv) d) ps acc
             = (acc ++ ps)%list) by (apply (H []); exact Hd).
  clear Hd. induction ps as [|[k v] ps IH]; intros acc Hnd; simpl.
  - now rewrite app_nil_r.
  - rewrite dict_set_fresh.
    + rewrite IH.
      * now rewrite <- app_assoc.
      * unfold keys in *. rewrite map_app, <- app_assoc. exact Hnd.
    + apply dict_get_not_key. simpl in Hnd.
      apply NoDup_remove_2 in Hnd. intros Hin. apply Hnd.
      apply in_or_app. now left.
Qed.

Lemma all_values_parse (v : json) : json_ok v = true -> parses v.
Proof.
  induction v as [|b|s|l IH|l IH] using json_nested_ind; intros Hok lvl fuel rest Hfuel;
    (destruct fuel as [|f]; [lia|]).
  - reflexivity.
  - destruct b; reflexivity.
  - cbn [encode]. rewrite encode_string_app.
    apply parse_value_string, scanstring_encode.
  - destruct l as [|x xs].
    + reflexivity.
    + rewrite encode_arr_cons.
      destruct (encode_head (S lvl) x
                  (encode_items (encode (S lvl)) (newline_indent (S lvl)) xs
                   ++ newline_indent lvl ++ String "]" rest))
        as (c & r & Hshape & Hws & Hc & _).
      eapply parse_value_arr.
      * rewrite skip_ws_newline_indent, skip_ws_encode. exact Hshape.
      * exact Hc.
      * rewrite <- Hshape. apply parse_elems_encode.
        -- apply skip_ws_newline_indent.
        -- cbn [json_ok] in Hok. rewrite forallb_forall in Hok.
           rewrite Forall_forall in IH |- *. intros y Hy.
           apply IH; [exact Hy | now apply Hok].
        -- cbn [weight] in Hfuel. lia.
  - destruct l as [|[k x] xs].
    + reflexivity.
    + cbn [json_ok] in Hok. apply andb_true_iff in Hok as [Hkeys Hok].
      rewrite encode_obj_cons.
      eapply eq_trans.
      * eapply parse_value_obj.
        -- rewrite skip_ws_newline_indent. reflexivity.
        -- reflexivity.
        -- apply parse_members_encode.
           ++ apply skip_ws_newline_indent.
           ++ rewrite forallb_forall in Hok.
              rewrite Forall_forall in IH |- *. intros y Hy.
              apply IH; [exact Hy | now apply Hok].
           ++ cbn [weight] in Hfuel. lia.
      * now rewrite dict_of_pairs_distinct.
Qed.

Lemma list_sum_cons (a : nat) (l : list nat) :
  list_sum (a :: l) = (a + list_sum l)%nat.
Proof. reflexivity. Qed.

Lemma newline_indent_pos (n : nat) :
  (1 <= String.length (newline_indent n))%nat.
Proof. simpl. lia. Qed.

Lemma weight_le_length (v : json) (lvl : nat) :
  (weight v <= String.length (encode lvl v))%nat.
Proof.
  revert lvl.
  induction v as [|b|s|l IH|l IH] using json_nested_ind; intros lvl.
  - simpl. lia.
  - destruct b; simpl; lia.
  - simpl. lia.
  - destruct l as [|x xs]; [simpl; lia|].
    inversion IH as [|? ? Hx Hxs]; subst.
    cbn [encode weight map]; rewrite ?list_sum_cons. rewrite !str_length_app.
    specialize (Hx (S lvl)).
    assert (Hitems : (list_sum (map (fun y => S (weight y)) xs)
                      <= String.length (encode_items (encode (S lvl))
                                          (newline_indent (S lvl)) xs))%nat).
    { clear Hx IH. induction xs as [|y ys IHys]; [simpl; lia|].
      inversion Hxs as [|? ? Hy Hys]; subst.
      cbn [encode_items map]; rewrite ?list_sum_cons. rewrite !str_length_app.
      specialize (Hy (S lvl)). specialize (IHys Hys).
      simpl (String.length ","). lia. }
    pose proof (newline_indent_pos (S lvl)).
    simpl (String.length "["). lia.
  - destruct l as [|[k x] xs]; [simpl; lia|].
    inversion IH as [|? ? Hx Hxs]; subst. simpl in Hx.
    cbn [encode weight map snd]; rewrite ?list_sum_cons. rewrite !str_length_app.
    specialize (Hx (S lvl)).
    assert (Hitems : (list_sum (map (fun kv => S (weight (snd kv))) xs)
                      <= String.length (encode_members (encode (S lvl))
                                          (newline_indent (S lvl)) xs))%nat).
    { clear Hx IH. induction xs as [|[k' y] ys IHys]; [simpl; lia|].
      inversion Hxs as [|? ? Hy Hys]; subst. simpl in Hy.
      cbn [encode_members map snd]; rewrite ?list_sum_cons. rewrite !str_length_app.
      specialize (Hy (S lvl)). specialize (IHys Hys).
      simpl (String.length ","). lia. }
    pose proof (newline_indent_pos (S lvl)).
    simpl (String.length "{"). lia.
Qed.

(** [json.loads(json.dumps(v, ensure_ascii=False, indent=2)) == v] *)
Lemma loads_dumps (v : json) : json_ok v = true -> loads (dumps v) = Some (Ok v).
Proof.
  intros Hok. unfold loads, dumps.
  rewrite <- (str_app_nil_r (encode 0 v)) at 2.
  rewrite skip_ws_encode.
  rewrite (all_values_parse v Hok 0%nat).
  - reflexivity.
  - pose proof (weight_le_length v 0%nat). lia.
Qed.

Lemma all_some_map_Some {X Y : Type} (f : X -> option Y) (g : X -> Y) (l : list X) :
  (forall x, In x l -> f x = Some (g x)) -> all_some (map f l) = Some (map g l).
Proof.
  induction l as [|x l IH]; intros H; simpl; [reflexivity|].
  rewrite (H x (or_introl eq_refl)), IH; [reflexivity|].
  intros y Hy. apply H. now right.
Qed.

Lemma as_playlist_tracks (ts : list track) :
  as_playlist (JArr (map JObj ts)) = Some ts.
Proof.
  unfold as_playlist. rewrite map_map.
  rewrite (all_some_map_Some _ (fun tr => tr)); [now rewrite map_id|].
  reflexivity.
Qed.

Lemma of_json_to_json (d : store) : of_json (to_json d) = Some d.
Proof.
  unfold of_json, to_json. rewrite map_map.
  rewrite (all_some_map_Some _ (fun kv => kv)); [now rewrite map_id|].
  intros [k ts] _. cbn [fst snd]. now rewrite as_playlist_tracks.
Qed.

End DumpLoad.


(** ** What can be written: UTF-8 *)

Section Utf8.

Lemma between_not_ascii (lo hi : N) (c : ascii) :
  (128 <= lo)%N -> between lo hi c = true -> (N_of_ascii c <? 128)%N = false.
Proof.
  unfold between. intros Hlo H. apply andb_true_iff in H as [H _].
  apply N.leb_le in H. apply N.ltb_ge. lia.
Qed.

Lemma utf8_valid_app (a b : string) :
  utf8_valid a = true -> utf8_valid b = true -> utf8_valid (a ++ b) = true.
Proof.
  intros Ha Hb.
  assert (H : forall n a, (String.length a <= n)%nat ->
                          utf8_valid a = true -> utf8_valid (a ++ b) = true).
  { clear a Ha. induction n as [|n IH]; intros a Hl Ha.
    - destruct a; [exact Hb | simpl in Hl; lia].
    - destruct a as [|b0 r]; [exact Hb|].
      cbn [append]. cbn [utf8_valid] in Ha |- *. cbv zeta in Ha |- *.
      destruct (N_of_ascii b0 <? 128)%N.
      { apply IH; [simpl in Hl; lia | exact Ha]. }
      destruct (between 194 223 b0).
      { destruct r as [|b1 r1]; [discriminate|]. cbn [append].
        apply andb_true_iff in Ha as [H1 H2]. rewrite H1. cbn [andb].
        apply IH; [simpl in Hl; lia | exact H2]. }
      destruct (between 224 239 b0).
      { destruct r as [|b1 [|b2 r2]]; try discriminate. cbn [append].
        apply andb_true_iff in Ha as [H1 H2]. rewrite H1. cbn [andb].
        apply IH; [simpl in Hl; lia | exact H2]. }
      destruct (between 240 244 b0); [|discriminate].
      destruct r as [|b1 [|b2 [|b3 r3]]]; try discriminate. cbn [append].
      apply andb_true_iff in Ha as [H1 H2]. rewrite H1. cbn [andb].
      apply IH; [simpl in Hl; lia | exact H2]. }
  now apply (H (String.length a)).
Qed.

Lemma escape_char_not_ascii (c : ascii) :
  (N_of_ascii c <? 128)%N = false -> escape_char c = String c "".
Proof.
  destruct c as [[] [] [] [] [] [] [] []]; intros H;
    (reflexivity || (vm_compute in H; discriminate H)).
Qed.

Lemma escape_char_ascii (c : ascii) :
  (N_of_ascii c <? 128)%N = true -> utf8_valid (escape_char c) = true.
Proof.
  destruct c as [[] [] [] [] [] [] [] []]; intros H;
    (reflexivity || (vm_compute in H; discriminate H)).
Qed.

(** Escaping touches ASCII characters only. *)
Lemma escape_valid (s : string) :
  utf8_valid s = true -> utf8_valid (escape s) = true.
Proof.
  assert (H : forall n s, (String.length s <= n)%nat ->
                          utf8_valid s = true -> utf8_valid (escape s) = true).
  { clear s. induction n as [|n IH]; intros s Hl Hs.
    - destruct s; [reflexivity | simpl in Hl; lia].
    - destruct s as [|b0 r]; [reflexivity|].
      cbn [escape]. cbn [utf8_valid] in Hs. cbv zeta in Hs.
      destruct (N_of_ascii b0 <? 128)%N eqn:E0.
      { apply utf8_valid_app; [now apply escape_char_ascii|].
        apply IH; [simpl in Hl; lia | exact Hs]. }
      rewrite (escape_char_not_ascii _ E0). cbn [append].
      cbn [utf8_valid]. cbv zeta. rewrite E0.
      destruct (between 194 223 b0).
      { destruct r as [|b1 r1]; [discriminate|].
        apply andb_true_iff in Hs as [H1 H2].
        cbn [escape].
        rewrite (escape_char_not_ascii b1)
          by (apply (between_not_ascii 128 191); [lia | exact H1]).
        cbn [append]. rewrite H1. cbn [andb].
        apply IH; [simpl in Hl; lia | exact H2]. }
      destruct (between 224 239 b0).
      { destruct r as [|b1 [|b2 r2]]; try discriminate.
        apply andb_true_iff in Hs as [H12 H3].
        pose proof H12 as H12'. apply andb_true_iff in H12' as [H1 H2].
        cbn [escape].
        rewrite (escape_char_not_ascii b1)
          by (eapply between_not_ascii; [|exact H1];
              destruct (N_of_ascii b0 =? 224)%N; lia).
        rewrite (escape_char_not_ascii b2)
          by (apply (between_not_ascii 128 191); [lia | exact H2]).
        cbn [append]. rewrite H12. cbn [andb].
        apply IH; [simpl in Hl; lia | exact H3]. }
      destruct (between 240 244 b0); [|discriminate].
      destruct r as [|b1 [|b2 [|b3 r3]]]; try discriminate.
      apply andb_true_iff in Hs as [H123 H4].
      pose proof H123 as H123'. apply andb_true_iff in H123' as [H12 H3].
      apply andb_true_iff in H12 as [H1 H2].
      cbn [escape].
      rewrite (escape_char_not_ascii b1)
        by (eapply between_not_ascii; [|exact H1];
            destruct (N_of_ascii b0 =? 240)%N; lia).
      rewrite (escape_char_not_ascii b2)
        by (apply (between_not_ascii 128 191); [lia | exact H2]).
      rewrite (escape_char_not_ascii b3)
        by (apply (between_not_ascii 128 191); [lia | exact H3]).
      cbn [append]. rewrite H123. cbn [andb].
      apply IH; [simpl in Hl; lia | exact H4]. }
  apply (H (String.length s)). lia.
Qed.

Lemma encode_string_valid (s : string) :
  utf8_valid s = true -> utf8_valid (encode_string s) = true.
Proof.
  intros H. unfold encode_string.
  change (utf8_valid (escape s ++ String dquote "") = true).
  apply utf8_valid_app; [now apply escape_valid | reflexivity].
Qed.

Lemma spaces_valid (n : nat) : utf8_valid (spaces n) = true.
Proof. induction n as [|n IH]; [reflexivity | exact IH]. Qed.

Lemma newline_indent_valid (n : nat) : utf8_valid (newline_indent n) = true.
Proof. unfold newline_indent. apply spaces_valid. Qed.

Definition valid_chunks (cs : list string) : Prop :=
  Forall (fun c => utf8_valid c = true) cs.

Lemma valid_chunks_app (l1 l2 : list string) :
  valid_chunks l1 -> valid_chunks l2 -> valid_chunks (l1 ++ l2).
Proof. intros H1 H2. apply Forall_app. now split. Qed.

Lemma join_app (l1 l2 : list string) :
  join (l1 ++ l2) = (join l1 ++ join l2)%string.
Proof.
  induction l1 as [|c l1 IH]; [reflexivity|].
  simpl. now rewrite IH, str_app_assoc.
Qed.

Lemma join_valid (cs : list string) :
  valid_chunks cs -> utf8_valid (join cs) = true.
Proof.
  induction 1 as [|c cs Hc _ IH]; [reflexivity|].
  simpl. now apply utf8_valid_app.
Qed.

(** Chunks that can all be encoded are all written. *)
Lemma write_chunks_valid (cs : list string) (written : string) :
  valid_chunks cs ->
  write_chunks cs written = (Ok tt, (written ++ join cs)%string).
Proof.
  intros H. revert written.
  induction H as [|c cs Hc _ IH]; intros written; simpl.
  - now rewrite str_app_nil_r.
  - rewrite Hc, IH. now rewrite str_app_assoc.
Qed.

(** The chunks of a value, put together, are its text. *)
Lemma item_chunks_join (lvl : nat) (buf : string) (y : json) :
  join (chunks lvl y) = encode lvl y ->
  join (item_chunks (chunks lvl) buf y) = (buf ++ encode lvl y)%string.
Proof.
  intros H. destruct y as [|[]|t|l|l]; cbn [item_chunks join];
    rewrite ?str_app_nil_r; try reflexivity; now rewrite H.
Qed.

Lemma chunks_join (v : json) (lvl : nat) :
  join (chunks lvl v) = encode lvl v.
Proof.
  revert lvl.
  induction v as [|b|t|l IH|l IH] using json_nested_ind; intros lvl.
  - reflexivity.
  - destruct b; reflexivity.
  - cbn [chunks join encode]. apply str_app_nil_r.
  - destruct l as [|x xs]; [reflexivity|].
    inversion IH as [|? ? Hx Hxs]; subst.
    cbn [chunks encode]. rewrite !join_app.
    rewrite (item_chunks_join _ _ _ (Hx (S lvl))).
    assert (Hitems : join (chunk_items (chunks (S lvl)) (newline_indent (S lvl)) xs)
                     = encode_items (encode (S lvl)) (newline_indent (S lvl)) xs).
    { clear Hx IH. induction xs as [|y ys IHys]; [reflexivity|].
      inversion Hxs as [|? ? Hy Hys]; subst.
      cbn [chunk_items encode_items]. rewrite join_app.
      rewrite (item_chunks_join _ _ _ (Hy (S lvl))), (IHys Hys).
      now rewrite !str_app_assoc. }
    rewrite Hitems. cbn [join]. rewrite str_app_nil_r.
    now rewrite !str_app_assoc.
  - destruct l as [|[k x] xs]; [reflexivity|].
    inversion IH as [|? ? Hx Hxs]; subst. cbn [snd] in Hx.
    cbn [chunks encode join]. rewrite !join_app, (Hx (S lvl)).
    assert (Hitems : join (chunk_members (chunks (S lvl)) (newline_indent (S lvl)) xs)
                     = encode_members (encode (S lvl)) (newline_indent (S lvl)) xs).
    { clear Hx IH. induction xs as [|[k' y] ys IHys]; [reflexivity|].
      inversion Hxs as [|? ? Hy Hys]; subst. cbn [snd] in Hy.
      cbn [chunk_members encode_members join]. rewrite join_app.
      rewrite (Hy (S lvl)), (IHys Hys).
      now rewrite !str_app_assoc. }
    rewrite Hitems. cbn [join]. rewrite str_app_nil_r.
    now rewrite ?str_app_assoc.
Qed.

Lemma item_chunks_valid (lvl : nat) (buf : string) (y : json) :
  utf8_valid buf = true ->
  utf8_json y = true ->
  valid_chunks (chunks lvl y) ->
  valid_chunks (item_chunks (chunks lvl) buf y).
Proof.
  intros Hb Hy H. destruct y as [|[]|t|l|l]; cbn [item_chunks];
    try (constructor; [|constructor]; apply utf8_valid_app; [exact Hb|]);
    try reflexivity.
  - now apply encode_string_valid.
  - constructor; assumption.
  - constructor; assumption.
Qed.

(** A value whose strings can be encoded gives chunks that can be. *)
Lemma chunks_valid (v : json) (lvl : nat) :
  utf8_json v = true -> valid_chunks (chunks lvl v).
Proof.
  revert lvl.
  induction v as [|b|t|l IH|l IH] using json_nested_ind; intros lvl Hv.
  - repeat constructor.
  - destruct b; repeat constructor.
  - constructor; [|constructor]. now apply encode_string_valid.
  - destruct l as [|x xs]; [repeat constructor|].
    inversion IH as [|? ? Hx Hxs]; subst.
    cbn [utf8_json forallb] in Hv. apply andb_true_iff in Hv as [Hvx Hvxs].
    cbn [chunks]. apply valid_chunks_app; [|apply valid_chunks_app].
    + apply item_chunks_valid; [|exact Hvx | now apply Hx].
      apply (utf8_valid_app "["); [reflexivity | apply newline_indent_valid].
    + clear Hx IH Hvx. induction xs as [|y ys IHys]; [constructor|].
      inversion Hxs as [|? ? Hy Hys]; subst.
      cbn [forallb] in Hvxs. apply andb_true_iff in Hvxs as [Hvy Hvys].
      cbn [chunk_items]. apply valid_chunks_app; [|now apply IHys].
      apply item_chunks_valid; [|exact Hvy | now apply Hy].
      apply (utf8_valid_app ","); [reflexivity | apply newline_indent_valid].
    + constructor; [apply newline_indent_valid|]. repeat constructor.
  - destruct l as [|[k x] xs]; [repeat constructor|].
    inversion IH as [|? ? Hx Hxs]; subst. cbn [snd] in Hx.
    cbn [utf8_json forallb fst snd] in Hv.
    apply andb_true_iff in Hv as [Hkx Hvxs].
    apply andb_true_iff in Hkx as [Hk Hvx].
    cbn [chunks].
    constructor; [reflexivity|]. constructor; [apply newline_indent_valid|].
    constructor; [now apply encode_string_valid|].
    constructor; [reflexivity|].
    apply valid_chunks_app; [now apply Hx|]. apply valid_chunks_app.
    + clear Hx IH Hvx Hk. induction xs as [|[k' y] ys IHys]; [constructor|].
      inversion Hxs as [|? ? Hy Hys]; subst. cbn [snd] in Hy.
      cbn [forallb fst snd] in Hvxs. apply andb_true_iff in Hvxs as [Hky Hvys].
      apply andb_true_iff in Hky as [Hk' Hvy].
      cbn [chunk_members].
      constructor.
      { apply (utf8_valid_app ","); [reflexivity | apply newline_indent_valid]. }
      constructor; [now apply encode_string_valid|].
      constructor; [reflexivity|].
      apply valid_chunks_app; [now apply Hy | now apply IHys].
    + constructor; [apply newline_indent_valid|]. repeat constructor.
Qed.

Lemma dumps_valid (v : json) : utf8_json v = true -> utf8_valid (dumps v) = true.
Proof.
  intros H. unfold dumps. rewrite <- chunks_join.
  now apply join_valid, chunks_valid.
Qed.

(** Writing succeeds on a writable file when every string of the store
    can be encoded, and the file then holds the text of the store. *)
Lemma save_writable (s : PM) :
  writable (disk s) = true ->
  store_utf8 (_data s) = true ->
  save s = (Ok tt, mkPM (_data s) (mkFile (Some (dumps (to_json (_data s)))) true)).
Proof.
  intros Hw Hu. rewrite save_run, Hw.
  rewrite write_chunks_valid by (now apply chunks_valid).
  now rewrite chunks_join.
Qed.

(** Any manager on a file that holds the text of a store loads that
    store. *)
Lemma load_saved (d d0 : store) (w : bool) :
  store_ok d = true ->
  store_utf8 d = true ->
  load (mkPM d0 (mkFile (Some (dumps (to_json d))) w))
  = Some (Ok tt, mkPM d (mkFile (Some (dumps (to_json d))) w)).
Proof.
  intros Hok Hu. unfold load, decode_utf8. simpl.
  rewrite (dumps_valid _ Hu), (loads_dumps _ Hok), of_json_to_json.
  reflexivity.
Qed.

End Utf8.

(** C8, amended.  [save], then [load]: when the playlist file can be
    written, the store is one Python can hold (distinct playlist names,
    distinct field names in each track) and every string in it can be
    encoded as UTF-8 (no lone surrogate), [save] writes the text of the
    store, and [load], on any manager that reads that file, builds exactly
    the store: the same names in the same order, the same tracks in the
    same order, the same fields in the same order. *)
Theorem save_then_load_restores_store (s : PM) :
  writable (disk s) = true ->
  store_ok (_data s) = true ->
  store_utf8 (_data s) = true ->
  exists s1,
    save s = (Ok tt, s1) /\
    _data s1 = _data s /\
    content (disk s1) = Some (dumps (to_json (_data s))) /\
    (forall d0, load (mkPM d0 (disk s1)) = Some (Ok tt, mkPM (_data s) (disk s1))) /\
    load s1 = Some (Ok tt, s1).
Proof.
  intros Hw Hok Hu. rewrite (save_writable s Hw Hu).
  eexists. split; [reflexivity|]. split; [reflexivity|].
  split; [reflexivity|]. simpl. split.
  - intros d0. now apply load_saved.
  - now apply load_saved.
Qed.

(** C8 as stated fails on a store that holds a lone surrogate.  The file
    [escaped_file] is plain ASCII and names the code point U+D800 by an
    escape; [load] builds the store [surrogate_store] from it.  [save] on
    that store empties the file, writes the chunks up to the string that
    cannot be encoded, and swallows the [UnicodeEncodeError]; what is left
    in the file is not JSON, and [load] then builds the empty store. *)
Lemma save_then_load_loses_store :
  load (mkPM [] escaped_file) = Some (Ok tt, mkPM surrogate_store escaped_file) /\
  writable escaped_file = true /\
  store_ok surrogate_store = true /\
  save (mkPM surrogate_store escaped_file)
    = (Ok tt, mkPM surrogate_store torn_file) /\
  load (mkPM surrogate_store torn_file) = Some (Ok tt, mkPM [] torn_file) /\
  surrogate_store <> [].
Proof.
  split; [vm_compute; reflexivity|]. split; [reflexivity|].
  split; [reflexivity|]. split; [vm_compute; reflexivity|].
  split; [vm_compute; reflexivity | discriminate].
Qed.

Lemma save_then_load_restores_store_witness :
  exists s1,
    save rock_pm = (Ok tt, s1) /\
    _data s1 = rock_store /\
    load (mkPM [] (disk s1)) = Some (Ok tt, s1).
Proof.
  destruct (save_then_load_restores_store rock_pm eq_refl eq_refl eq_refl)
    as (s1 & Hsave & Hdata & _ & Hfresh & Hload).
  exists s1. split; [exact Hsave|]. split; [exact Hdata|].
  rewrite (Hfresh []). destruct s1 as [d1 f1]. simpl in Hdata.
  rewrite Hdata. reflexivity.
Defined.

(** ** Serial runs *)

Section Serial.

Local Open Scope Q_scope.

Lemma timing_ok_later vcs st t t' :
  timing_ok vcs st t -> t <= t' -> timing_ok vcs st t'.
Proof.
  intros (Hlen & Hv & Hp) Ht. split; [exact Hlen|]. split; [exact Hv|].
  intros Hpl. destruct (Hp Hpl) as (s0 & Hs & Hle & Hpa).
  exists s0. split; [exact Hs|]. split; [lra|].
  intros Hf. destruct (Hpa Hf) as (p & Hp1 & Hp2 & Hp3).
  exists p. repeat split; try assumption; lra.
Qed.

Lemma timing_ok_clear vcs st t :
  (List.length vcs <= 1)%nat ->
  (forall vc rest, vcs = vc :: rest -> vc_is_paused vc = false) ->
  timing_ok vcs (clear st) t.
Proof.
  intros Hlen Hv. split; [exact Hlen|]. split.
  - intros vc rest E Hp. rewrite (Hv vc rest E) in Hp. discriminate.
  - discriminate.
Qed.

Lemma timing_ok_elapsed vcs st t now :
  timing_ok vcs st t -> t <= now ->
  exists z,
    elapsed_seconds st now = Ok z /\ (0 <= z)%Z /\
    reads_floor st now z.
Proof.
  intros (_ & _ & Hp) Hnow. unfold elapsed_seconds, reads_floor.
  destruct (is_playing st) eqn:Hpl; simpl.
  - destruct (Hp eq_refl) as (s0 & Hs & Hle & Hpa).
    destruct (truthy_bool (paused st)) eqn:Hf.
    + destruct (Hpa eq_refl) as (p & -> & Hp2 & Hp3). rewrite Hs. simpl.
      eexists. split; [reflexivity|].
      destruct (py_int_nonneg (p - s0)) as [H0 Hfl]; [lra|].
      split; [exact H0|]. exists s0, p. auto.
    + rewrite Hs. simpl. eexists. split; [reflexivity|].
      destruct (py_int_nonneg (now - s0)) as [H0 Hfl]; [lra|].
      split; [exact H0|]. exists s0. auto.
  - exists 0%Z. split; [reflexivity|]. split; [apply Z.le_refl | reflexivity].
Qed.

Lemma ytdlp_info_any url w r w1 :
  ytdlp_info url w = (r, w1) ->
  PLAYING_STATE w1 = PLAYING_STATE w /\ voice_clients w1 = voice_clients w.
Proof.
  unfold ytdlp_info, bind, get, ret, raise, set_cache. simpl.
  destruct (dict_get url (_ytdlp_cache w)).
  - intros [= _ <-]. auto.
  - destruct (extract_info w url); intros [= _ <-]; auto.
Qed.

Lemma connect_any ch w r w' :
  connect ch w = (r, w') ->
  PLAYING_STATE w' = PLAYING_STATE w /\
  ((r = Raise ClientException /\ w' = w) \/
   (r = Ok (Some (mkVoiceClient (ch_id ch) Idle)) /\
    voice_clients w' = (voice_clients w ++ [mkVoiceClient (ch_id ch) Idle])%list)).
Proof.
  unfold connect. destruct (ch_connectable ch).
  - unfold bind, get, set_voice_clients, ret. simpl. intros [= <- <-]. auto.
  - unfold raise. intros [= <- <-]. auto.
Qed.

(** [ensure_join] leaves the state alone; it returns the first client or
    nothing without a change, or it connects an idle client to an empty
    list. *)
Lemma ensure_join_any w r w' :
  ensure_join w = (r, w') ->
  PLAYING_STATE w' = PLAYING_STATE w /\
  ((voice_clients w' = voice_clients w /\
    match r with
    | Ok (Some vc) => exists rest, voice_clients w = vc :: rest
    | _ => True
    end) \/
   (voice_clients w = [] /\
    exists c, r = Ok (Some (mkVoiceClient c Idle)) /\
              voice_clients w' = [mkVoiceClient c Idle])).
Proof.
  unfold ensure_join, bind at 1, get at 1. simpl.
  destruct (voice_clients w) as [|v rest] eqn:Hvc.
  - intros H.
    repeat match type of H with
    | context [match ?x with _ => _ end] => destruct x eqn:?
    end.
    all: try (unfold ret in H; injection H as <- <-; rewrite Hvc; auto).
    all: apply connect_any in H;
      destruct H as (Hst & [[-> ->] | [-> Hl]]);
      [rewrite Hvc; auto
      | rewrite Hvc in Hl; simpl in Hl; split; [exact Hst|]; right;
        split; [reflexivity | eauto]].
  - unfold ret. intros [= <- <-]. rewrite Hvc. split; [reflexivity|].
    left. split; [reflexivity | eauto].
Qed.

Lemma toggle_ok w t now r w' :
  world_ok w t -> t <= now ->
  pause_toggle now w = (r, w') ->
  world_ok w' now.
Proof.
  unfold world_ok. intros Hok Hnow.
  pose proof (timing_ok_later _ _ _ _ Hok Hnow) as Hlater.
  destruct Hok as (Hlen & Hv & Hp).
  unfold pause_toggle, bind at 1, get at 1.
  destruct (voice_clients w) as [|[c pl] rest] eqn:Hvc.
  - intros [= _ <-]. now rewrite Hvc.
  - destruct pl as [|src|src]; unfold vc_is_playing, vc_is_paused; simpl.
    + intros [= _ <-]. now rewrite Hvc.
    + run_world. rewrite Hvc. simpl. intros [= _ <-]. simpl.
      split; [exact Hlen|]. split; [reflexivity|].
      intros Hpl. destruct (Hp Hpl) as (s0 & Hs & Hle & _).
      exists s0. split; [exact Hs|]. split; [lra|].
      intros _. exists now. repeat split; lra.
    + assert (Hf : truthy_bool (paused (PLAYING_STATE w)) = true)
        by (apply (Hv _ _ eq_refl); reflexivity).
      run_world. rewrite Hvc. simpl. unfold float_sub.
      destruct (pause_at (PLAYING_STATE w)) as [p|] eqn:Hpat.
      * destruct (start_time (PLAYING_STATE w)) as [s0|] eqn:Hs.
        -- simpl. intros [= _ <-]. simpl.
           split; [exact Hlen|]. split; [intros ? ? [= <- <-]; discriminate|].
           intros Hpl. destruct (Hp Hpl) as (s0' & [= <-] & Hle & Hpa).
           destruct (Hpa Hf) as (p' & [= <-] & Hp2 & Hp3).
           eexists. split; [reflexivity|]. split; [lra | discriminate].
        -- simpl. intros [= _ <-]. simpl.
           split; [exact Hlen|]. split; [intros ? ? [= <- <-]; discriminate|].
           intros Hpl. destruct (Hp Hpl) as (s0' & Hs' & _). congruence.
      * simpl. intros [= _ <-]. simpl.
        split; [exact Hlen|]. split; [intros ? ? [= <- <-]; discriminate|].
        intros Hpl. destruct (Hp Hpl) as (s0' & _ & _ & Hpa).
        destruct (Hpa Hf) as (p' & Hp' & _). congruence.
Qed.

Lemma leave_ok w t now r w' :
  world_ok w t -> t <= now ->
  leave_voice w = (r, w') ->
  world_ok w' now.
Proof.
  unfold world_ok. intros Hok Hnow.
  pose proof (timing_ok_later _ _ _ _ Hok Hnow) as Hlater.
  destruct Hok as (Hlen & _).
  unfold leave_voice, bind at 1, get at 1.
  destruct (voice_clients w) as [|vc rest] eqn:Hvc.
  - intros [= _ <-]. now rewrite Hvc.
  - run_world. intros [= _ <-]. simpl.
    simpl in Hlen. destruct rest; [|simpl in Hlen; lia].
    apply timing_ok_clear; [simpl; lia | discriminate].
Qed.

Lemma join_ok w t now r w' :
  world_ok w t -> t <= now ->
  ensure_join w = (r, w') ->
  world_ok w' now.
Proof.
  unfold world_ok. intros Hok Hnow Hj.
  pose proof (timing_ok_later _ _ _ _ Hok Hnow) as Hlater.
  destruct (ensure_join_any _ _ _ Hj) as (Hst & [[Hv _] | (Hv & c & _ & Hv')]).
  - now rewrite Hst, Hv.
  - rewrite Hst, Hv'. rewrite Hv in Hlater.
    destruct Hlater as (_ & _ & Hp).
    split; [simpl; lia|]. split; [|exact Hp].
    intros vc rest [= <- <-]. discriminate.
Qed.

Lemma stream_end_ok w t now :
  world_ok w t -> t <= now -> world_ok (stream_ends w) now.
Proof.
  unfold world_ok. intros Hok Hnow.
  pose proof (timing_ok_later _ _ _ _ Hok Hnow) as (Hlen & Hv & Hp).
  unfold stream_ends. run_world.
  destruct (voice_clients w) as [|[c pl] rest] eqn:Hvc; simpl.
  - rewrite Hvc. now repeat split.
  - split; [exact Hlen|]. split; [|exact Hp].
    intros vc rest' [= <- <-] Hpa. apply (Hv _ _ eq_refl).
    destruct pl; simpl in *; (discriminate || reflexivity).
Qed.

Lemma start_ok w t now tr r w' :
  world_ok w t -> t <= now ->
  start_playback tr now w = (r, w') ->
  world_ok w' now.
Proof.
  unfold world_ok. intros Hok Hnow.
  pose proof (timing_ok_later _ _ _ _ Hok Hnow) as Hlater.
  destruct tr as [[|f fs]|]; try (intros [= _ <-]; exact Hlater).
  unfold start_playback, start_playback_begin.
  unfold bind at 1 2. unfold lift at 1.
  destruct (str_item "url" (f :: fs)) as [url|e] eqn:Hu;
    [|intros [= _ <-]; exact Hlater].
  unfold bind at 1.
  destruct (ytdlp_info url w) as [[info|e] w1] eqn:Hi;
    destruct (ytdlp_info_any _ _ _ _ Hi) as [Hst1 Hvc1];
    [|intros [= _ <-]; now rewrite Hst1, Hvc1].
  unfold bind at 1.
  destruct (ensure_join w1) as [[[vc|]|e] w2] eqn:Hj;
    destruct (ensure_join_any _ _ _ Hj) as (Hst2 & Hcases).
  2, 3: intros [= _ <-]; rewrite Hst2, Hst1;
    destruct Hcases as [[-> _] | (_ & c & Hr & _)];
    [now rewrite Hvc1 | discriminate].
  assert (Hone : voice_clients w2 = [vc] /\ (vc_is_paused vc = true ->
                   truthy_bool (paused (PLAYING_STATE w)) = true)).
  { destruct Hlater as (Hlen & Hv & _).
    destruct Hcases as [[Hsame (rest & Hvc)] | (_ & c & [= ->] & Hv2)].
    - rewrite Hvc1 in Hvc. rewrite Hsame, Hvc1, Hvc. rewrite Hvc in Hlen.
      destruct rest; [|simpl in Hlen; lia].
      split; [reflexivity|]. intros Hp. now apply (Hv _ _ Hvc).
    - split; [exact Hv2 | discriminate]. }
  destruct Hone as [Hvc2 _].
  pose proof (str_item_opt _ _ _ Hu) as Hu'.
  destruct vc as [c [|src|src]]; unfold vc_is_playing, vc_is_paused; simpl;
    run_world; rewrite Hvc2; simpl;
    (destruct (opt_str_item "title" (f :: fs)) as [ti|e];
     simpl; [rewrite Hu'; simpl|]);
    intros [= _ <-]; simpl;
    (split; [simpl; lia|]);
    (split; [intros ? ? [= <- <-]; discriminate|]);
    try discriminate;
    intros _; exists now; (split; [reflexivity|]);
    (split; [apply Qle_refl | discriminate]).
Qed.

Lemma keeps_world_bind {A B : Type} (m : G A) (k : A -> G B) :
  keeps_world m -> (forall x, keeps_world (k x)) -> keeps_world (g_bind m k).
Proof.
  intros Hm Hk a r a' Hin. unfold g_bind in Hin.
  apply in_flat_map in Hin as ([[x|e] a1] & Hin1 & Hin2).
  - rewrite (Hk x a1 r a' Hin2). now apply (Hm a (Ok x)).
  - destruct Hin2 as [[= <- <-]|[]]. now apply (Hm a (Raise e)).
Qed.

Lemma keeps_world_single {A : Type} (m : G A) :
  (forall a, exists r a', m a = [(r, a')] /\ world a' = world a) ->
  keeps_world m.
Proof.
  intros H a r a' Hin. destruct (H a) as (r0 & a0 & E & Hw).
  rewrite E in Hin. destruct Hin as [[= <- <-]|[]]. exact Hw.
Qed.

Lemma keeps_world_prims :
  (forall i, keeps_world (selection_set i)) /\
  (forall i, keeps_world (focus i)) /\
  (forall c, keeps_world (run_async c)) /\
  (forall t, keeps_world (set_current_track t)) /\
  (forall n, keeps_world (randrange n)) /\
  keeps_world g_get.
Proof.
  split; [|split; [|split; [|split; [|split]]]].
  - intros i. apply keeps_world_single. intros a. unfold selection_set.
    destruct (existsb _ _); eauto.
  - intros i. apply keeps_world_single. intros a. unfold focus.
    destruct (existsb _ _); eauto.
  - intros c. apply keeps_world_single. intros a. unfold run_async. eauto.
  - intros t. apply keeps_world_single. intros a. unfold set_current_track.
    eauto.
  - intros n a r a' Hin. unfold randrange in Hin.
    apply in_map_iff in Hin as (k & [= _ <-] & _). reflexivity.
  - apply keeps_world_single. intros a. unfold g_get. eauto.
Qed.

Lemma keeps_world_ret {A : Type} (x : A) : keeps_world (g_ret x).
Proof. apply keeps_world_single. intros a. unfold g_ret. eauto. Qed.

Lemma keeps_world_result {A : Type} (r : result A) : keeps_world (g_result r).
Proof. apply keeps_world_single. intros a. unfold g_result. eauto. Qed.

Lemma keeps_world_play_selected : keeps_world play_selected.
Proof.
  destruct keeps_world_prims as (_ & _ & Hrun & Hcur & _ & Hget).
  unfold play_selected, selected_track.
  apply keeps_world_bind.
  - apply keeps_world_bind; [exact Hget|]. intros a.
    destruct (pl_lb_curselection a), (tr_tv_selection a);
      try apply keeps_world_ret.
    apply keeps_world_bind; [apply keeps_world_result|]. intros tracks.
    apply keeps_world_bind; [apply keeps_world_result|]. intros tr.
    apply keeps_world_ret.
  - intros [[|f fs]|]; try apply keeps_world_ret.
    apply keeps_world_bind; [apply Hcur | intros _; apply Hrun].
Qed.

Lemma keeps_world_select_and_play (i : Z) :
  keeps_world (selection_set i ;;; focus i ;;; play_selected)%gui.
Proof.
  destruct keeps_world_prims as (Hsel & Hfoc & _).
  apply keeps_world_bind; [apply Hsel | intros _].
  apply keeps_world_bind; [apply Hfoc | intros _].
  apply keeps_world_play_selected.
Qed.

(** [on_track_end] leaves the discord_client module alone, or clears the
    state (the [else] branch); it never touches the voice clients. *)
Lemma on_track_end_world a r a' :
  In (r, a') (on_track_end a) ->
  world a' = world a \/ world a' = snd (modify_state clear (world a)).
Proof.
  destruct keeps_world_prims as (_ & _ & Hrun & _ & Hrand & Hget).
  unfold on_track_end. unfold g_bind at 1, g_get at 1. simpl.
  rewrite app_nil_r.
  destruct (String.eqb (mode_var a) "loop" && truthy_track (current_track a)).
  { intros Hin. left. revert Hin. destruct (current_track a).
    - apply Hrun.
    - apply keeps_world_ret. }
  destruct (String.eqb (mode_var a) "next").
  { intros Hin. left. revert Hin.
    destruct (pl_lb_curselection a); [apply keeps_world_ret|].
    apply keeps_world_bind; [apply keeps_world_result|].
    intros [|t0 ts]; [apply keeps_world_ret|].
    apply keeps_world_select_and_play. }
  destruct (String.eqb (mode_var a) "random").
  { intros Hin. left. revert Hin.
    destruct (pl_lb_curselection a); [apply keeps_world_ret|].
    apply keeps_world_bind; [apply keeps_world_result|].
    intros [|t0 ts]; [apply keeps_world_ret|].
    apply keeps_world_bind; [apply Hrand|]. intros idx.
    apply keeps_world_select_and_play. }
  intros [[= _ <-]|[]]. right. reflexivity.
Qed.

Lemma show_preview_cases a r a' :
  In (r, a') (show_preview a) ->
  r = Ok tt /\
  (if preview_settled (PLAYING_STATE (world a)) then a' = a
   else a' = loader_marked a).
Proof.
  unfold show_preview, preview_settled, g_bind at 1, g_get at 1. simpl.
  rewrite app_nil_r.
  destruct (preview_loaded (PLAYING_STATE (world a))) as [img|].
  - intros [[= <- <-]|[]]. destruct a; auto.
  - destruct (truthy_bool (preview_loader_started (PLAYING_STATE (world a)))); simpl.
    + intros [[= <- <-]|[]]. destruct a; auto.
    + intros [[= <- <-]|[]]. auto.
Qed.

Lemma show_preview_state a r a' :
  In (r, a') (show_preview a) ->
  r = Ok tt /\
  voice_clients (world a') = voice_clients (world a) /\
  (PLAYING_STATE (world a') = PLAYING_STATE (world a) \/
   PLAYING_STATE (world a') = loader_started (PLAYING_STATE (world a))).
Proof.
  intros Hin. destruct (show_preview_cases _ _ _ Hin) as [-> H].
  split; [reflexivity|].
  destruct (preview_settled (PLAYING_STATE (world a))); subst a'; auto.
Qed.

(** What [tick] can do to the discord_client module. *)
Lemma tick_world now a r a' :
  In (r, a') (tick now a) ->
  let st := PLAYING_STATE (world a) in
  voice_clients (world a') = voice_clients (world a) /\
  exists st1,
    (st1 = st \/
     (is_playing st = true /\ truthy_bool (paused st) = false /\
      (st1 = clear st \/
       st1 = debounced st now \/
       st1 = debounced (clear st) now))) /\
    (PLAYING_STATE (world a') = st1 \/
     PLAYING_STATE (world a') = loader_started st1).
Proof.
  unfold tick. unfold g_bind at 1, g_get at 1. simpl. rewrite app_nil_r.
  destruct (is_playing (PLAYING_STATE (world a))) eqn:Hpl;
    [|intros [[= _ <-]|[]]; split; [reflexivity|];
     eexists; split; left; reflexivity].
  unfold g_bind at 1, g_result at 1. simpl. rewrite app_nil_r.
  destruct (shown_elapsed (PLAYING_STATE (world a)) now) as [e|ex];
    [|intros [[= _ <-]|[]]; split; [reflexivity|];
     eexists; split; left; reflexivity].
  destruct (duration (PLAYING_STATE (world a))) as [dur|];
    [|intros [[= _ <-]|[]]; split; [reflexivity|];
     eexists; split; left; reflexivity].
  intros Hin. unfold g_bind at 1 in Hin.
  apply in_flat_map in Hin as ([r1 a1] & Hin1 & Hin2).
  assert (H1 : voice_clients (world a1) = voice_clients (world a) /\
               (PLAYING_STATE (world a1) = PLAYING_STATE (world a) \/
                (truthy_bool (paused (PLAYING_STATE (world a))) = false /\
                 (PLAYING_STATE (world a1) = clear (PLAYING_STATE (world a)) \/
                  PLAYING_STATE (world a1) = debounced (PLAYING_STATE (world a)) now \/
                  PLAYING_STATE (world a1)
                    = debounced (clear (PLAYING_STATE (world a))) now)))).
  { destruct (negb (dur =? 0)%Z && (dur <=? e)%Z
              && negb (truthy_bool (paused (PLAYING_STATE (world a))))) eqn:Hc;
      [|destruct Hin1 as [[= _ <-]|[]]; auto].
    apply andb_true_iff in Hc as [_ Hf]. apply negb_true_iff in Hf.
    unfold g_bind at 1 in Hin1.
    apply in_flat_map in Hin1 as ([[[]|ex] a0] & Hin0 & Hin1);
      apply on_track_end_world in Hin0.
    - unfold g_bind, modify_playing_state in Hin1. simpl in Hin1.
      destruct Hin1 as [[= _ <-]|[]]. simpl.
      destruct Hin0 as [-> | ->]; simpl; split; auto 8.
    - destruct Hin1 as [[= _ <-]|[]].
      destruct Hin0 as [-> | ->]; simpl; split; auto 8. }
  destruct H1 as (Hvc1 & Hst1).
  assert (H2 : voice_clients (world a') = voice_clients (world a1) /\
               (PLAYING_STATE (world a') = PLAYING_STATE (world a1) \/
                PLAYING_STATE (world a')
                  = loader_started (PLAYING_STATE (world a1)))).
  { destruct r1 as [[]|ex].
    - destruct (show_preview_state _ _ _ Hin2) as (_ & Hv & Hs). auto.
    - destruct Hin2 as [[= _ <-]|[]]. auto. }
  destruct H2 as (Hvc2 & Hst2).
  split; [congruence|].
  exists (PLAYING_STATE (world a1)). split; [|exact Hst2].
  destruct Hst1 as [->|(Hf & Hc)]; auto.
Qed.

Lemma timing_ok_loader_started vcs st t :
  timing_ok vcs st t -> timing_ok vcs (loader_started st) t.
Proof. intros H. exact H. Qed.

Lemma tick_ok w t now a r a' :
  world_ok w t -> t <= now ->
  world a = w ->
  In (r, a') (tick now a) ->
  world_ok (world a') now.
Proof.
  unfold world_ok. intros Hok Hnow <- Hin.
  pose proof (timing_ok_later _ _ _ _ Hok Hnow) as (Hlen & Hv & Hp).
  destruct (tick_world _ _ _ _ Hin) as (Hvc & st1 & Hst & Hst'). rewrite Hvc.
  assert (H1 : timing_ok (voice_clients (world a)) st1 now).
  { destruct Hst as [-> | (Hpl & Hf & [-> | [-> | ->]])].
    - now repeat split.
    - apply timing_ok_clear; [exact Hlen|].
      intros vc rest E. destruct (vc_is_paused vc) eqn:Hpa; [|reflexivity].
      rewrite (Hv vc rest E Hpa) in Hf. discriminate.
    - split; [exact Hlen|]. split; [reflexivity|].
      intros _. destruct (Hp Hpl) as (s0 & Hs & Hle & _).
      exists s0. simpl. split; [exact Hs|]. split; [exact Hle|].
      intros _. exists now. repeat split; lra.
    - split; [exact Hlen|]. split; [reflexivity | discriminate]. }
  destruct Hst' as [-> | ->]; [exact H1 | now apply timing_ok_loader_started].
Qed.

Lemma preview_ok w t now img :
  world_ok w t -> t <= now -> world_ok (preview_stored img w) now.
Proof.
  unfold world_ok. intros Hok Hnow.
  exact (timing_ok_later _ _ _ _ Hok Hnow).
Qed.

(** Serial runs.  Start where the timing invariant holds (for instance at
    start-up) and let calls of [start_playback], [pause_toggle],
    [leave_voice] and [ensure_join], ticks of the GUI timer, writes of the
    preview loader and ends of the stream follow each other at non-decreasing clock values, each call
    running to its end before the next begins.  Then [elapsed_seconds] read
    at any later clock value returns a number, and the number is not
    negative.  A negative reading needs a call of [pause_toggle] inside
    the grace sleep of [start_playback]. *)
Theorem serial_runs_keep_elapsed_nonneg (l0 l : Loop) :
  world_ok (loop_world l0) (clock l0) ->
  serial_reachable l0 l ->
  forall now, clock l <= now ->
    exists z,
      elapsed (loop_world l) now = Ok z /\ (0 <= z)%Z /\
      reads_floor (PLAYING_STATE (loop_world l)) now z.
Proof.
  intros H0 Hreach.
  assert (Hok : world_ok (loop_world l) (clock l)).
  { induction Hreach as [|l l' _ IH Hstep]; [exact H0|].
    destruct Hstep; simpl.
    - eapply start_ok; eauto.
    - eapply toggle_ok; eauto.
    - eapply leave_ok; eauto.
    - eapply join_ok; eauto.
    - eapply tick_ok; eauto.
    - eapply preview_ok; eauto.
    - eapply stream_end_ok; eauto. }
  intros now Hnow.
  now apply timing_ok_elapsed with (voice_clients (loop_world l)) (clock l).
Qed.

Lemma startup_world_ok : world_ok (loop_world startup) (clock startup).
Proof.
  split; [simpl; lia|]. split; [|discriminate].
  intros vc rest [= <- <-]. discriminate.
Qed.

End Serial.


(** ** Lists and dictionaries, continued *)

Section ListFacts.

Context {A : Type}.
Implicit Types (l : list A).

Lemma replace_nth_length n (a : A) l :
  List.length (replace_nth n a l) = List.length l.
Proof.
  revert n. induction l as [|h t IH]; intros [|n]; simpl; auto.
Qed.

Lemma nth_error_replace_nth n (a : A) l m :
  nth_error (replace_nth n a l) m
  = if Nat.eqb m n
    then (if Nat.ltb n (List.length l) then Some a else None)
    else nth_error l m.
Proof.
  revert n m. induction l as [|h t IH]; intros n m.
  - destruct n, m; simpl; try reflexivity. now destruct (Nat.eqb m n).
  - destruct n as [|n], m as [|m]; simpl; try reflexivity.
    rewrite IH. destruct (Nat.eqb m n); [|reflexivity].
    change (S n <? S (List.length t))%nat with (n <? List.length t)%nat.
    reflexivity.
Qed.

Lemma getitem_in_range l (i : Z) :
  0 <= i < len l ->
  exists a, getitem l i = Ok a /\ nth_error l (Z.to_nat i) = Some a.
Proof.
  unfold getitem, len. intros Hi.
  destruct (Z.ltb_spec i 0); [lia|].
  destruct (Z.leb_spec 0 i); [|lia].
  destruct (Z.ltb_spec i (Z.of_nat (List.length l))); [|lia]. simpl.
  destruct (nth_error l (Z.to_nat i)) as [a|] eqn:E; [eauto|].
  apply nth_error_None in E. lia.
Qed.

Lemma setitem_in_range l (i : Z) (a : A) :
  0 <= i < len l -> setitem l i a = Ok (replace_nth (Z.to_nat i) a l).
Proof.
  unfold setitem, len. intros Hi.
  destruct (Z.ltb_spec i 0); [lia|].
  destruct (Z.leb_spec 0 i); [|lia].
  destruct (Z.ltb_spec i (Z.of_nat (List.length l))); [|lia]. reflexivity.
Qed.

(** A swap of two valid positions is the transposition of the list. *)
Lemma swap_items_valid l (i j : Z) :
  0 <= i < len l -> 0 <= j < len l ->
  exists l',
    swap_items l i j = Ok l' /\
    List.length l' = List.length l /\
    forall n, nth_error l' n = nth_error l (transpose (Z.to_nat i) (Z.to_nat j) n).
Proof.
  intros Hi Hj. unfold swap_items.
  destruct (getitem_in_range l j Hj) as (aj & -> & Haj).
  destruct (getitem_in_range l i Hi) as (ai & -> & Hai).
  rewrite (setitem_in_range l i aj Hi).
  rewrite setitem_in_range
    by (unfold len in *; rewrite replace_nth_length; exact Hj).
  eexists. split; [reflexivity|]. split.
  - now rewrite !replace_nth_length.
  - intros n. rewrite !nth_error_replace_nth, replace_nth_length.
    unfold len in *. unfold transpose.
    assert (Hil : (Z.to_nat i <? List.length l)%nat = true)
      by (apply Nat.ltb_lt; lia).
    assert (Hjl : (Z.to_nat j <? List.length l)%nat = true)
      by (apply Nat.ltb_lt; lia).
    rewrite Hil, Hjl.
    destruct (Nat.eqb_spec n (Z.to_nat j)) as [->|Hnj].
    + destruct (Nat.eqb_spec (Z.to_nat j) (Z.to_nat i)) as [E|_].
      * now rewrite <- Hai, E.
      * now rewrite Hai.
    + destruct (Nat.eqb_spec n (Z.to_nat i)) as [->|Hni]; [now rewrite Haj|].
      reflexivity.
Qed.

Lemma transpose_involutive a b n : transpose a b (transpose a b n) = n.
Proof.
  unfold transpose.
  destruct (Nat.eqb_spec n a) as [->|Hna].
  - destruct (Nat.eqb_spec b a) as [->|Hba]; [reflexivity|].
    now rewrite Nat.eqb_refl.
  - destruct (Nat.eqb_spec n b) as [->|Hnb].
    + now rewrite Nat.eqb_refl.
    + destruct (Nat.eqb_spec n a); [contradiction|].
      destruct (Nat.eqb_spec n b); [contradiction | reflexivity].
Qed.

Lemma transpose_sym a b n : transpose a b n = transpose b a n.
Proof.
  unfold transpose.
  destruct (Nat.eqb_spec n a) as [Ea|Hna], (Nat.eqb_spec n b) as [Eb|Hnb];
    congruence.
Qed.

Lemma transpose_lt a b n k :
  (a < k)%nat -> (b < k)%nat -> (n < k)%nat -> (transpose a b n < k)%nat.
Proof.
  unfold transpose. intros. destruct (Nat.eqb n a), (Nat.eqb n b); assumption.
Qed.

(** A transposed list has the same elements, and no duplicate if the
    original had none. *)
Lemma transposed_In l l' a b :
  (a < List.length l)%nat -> (b < List.length l)%nat ->
  List.length l' = List.length l ->
  (forall n, nth_error l' n = nth_error l (transpose a b n)) ->
  forall x, In x l' <-> In x l.
Proof.
  intros Ha Hb Hlen Hnth x. split; intros Hin.
  - apply In_nth_error in Hin as [k Hk].
    rewrite Hnth in Hk. now apply nth_error_In in Hk.
  - apply In_nth_error in Hin as [k Hk].
    apply (nth_error_In l' (transpose a b k)).
    now rewrite Hnth, transpose_involutive.
Qed.

Lemma transposed_NoDup l l' a b :
  (a < List.length l)%nat -> (b < List.length l)%nat ->
  List.length l' = List.length l ->
  (forall n, nth_error l' n = nth_error l (transpose a b n)) ->
  NoDup l -> NoDup l'.
Proof.
  intros Ha Hb Hlen Hnth Hnd.
  rewrite NoDup_nth_error in Hnd |- *.
  intros n m Hn E. rewrite !Hnth in E. rewrite Hlen in Hn.
  apply Hnd in E; [|now apply transpose_lt].
  rewrite <- (transpose_involutive a b n), E. apply transpose_involutive.
Qed.

End ListFacts.

Section DictFacts2.

Context {A : Type}.
Implicit Types (d : dict A) (k : string) (v : A).

Lemma dict_get_In k v d : dict_get k d = Some v -> In (k, v) d.
Proof.
  induction d as [|[k' v'] t IH]; simpl; [discriminate|].
  destruct (String.eqb_spec k k') as [->|Hne].
  - intros [= ->]. now left.
  - intros H. right. now apply IH.
Qed.

Lemma In_dict_get k v d : NoDup (keys d) -> In (k, v) d -> dict_get k d = Some v.
Proof.
  induction d as [|[k' v'] t IH]; simpl; intros Hnd Hin; [contradiction|].
  inversion Hnd as [|? ? Hn Hnd']; subst.
  destruct Hin as [[= -> ->]|Hin].
  - now rewrite String.eqb_refl.
  - destruct (String.eqb_spec k k') as [->|Hne]; [|now apply IH].
    exfalso. apply Hn. change k' with (fst (k', v)). now apply in_map.
Qed.

Lemma keys_dict_set k v d :
  keys (dict_set k v d) = if dict_in k d then keys d else (keys d ++ [k])%list.
Proof.
  unfold dict_in. induction d as [|[k' v'] t IH]; simpl; [reflexivity|].
  destruct (String.eqb_spec k k') as [->|Hne]; simpl; [reflexivity|].
  rewrite IH. now destruct (dict_get k t).
Qed.

Lemma NoDup_keys_dict_set k v d : NoDup (keys d) -> NoDup (keys (dict_set k v d)).
Proof.
  intros Hnd. rewrite keys_dict_set. destruct (dict_in k d) eqn:E; [exact Hnd|].
  apply NoDup_app; [exact Hnd | repeat constructor; simpl; tauto |].
  intros x Hx [<-|[]]. apply dict_get_key in Hx as [w Hw].
  apply dict_in_false_iff in E. congruence.
Qed.

Lemma In_dict_set k v d kv : In kv (dict_set k v d) -> kv = (k, v) \/ In kv d.
Proof.
  induction d as [|[k' v'] t IH]; simpl.
  - intros [<-|[]]. now left.
  - destruct (String.eqb_spec k k') as [->|Hne]; simpl.
    + intros [<-|H]; auto.
    + intros [<-|H]; auto. destruct (IH H); auto.
Qed.

Lemma In_dict_remove k d kv : In kv (dict_remove k d) -> In kv d.
Proof.
  induction d as [|[k' v'] t IH]; simpl; [tauto|].
  destruct (String.eqb k k'); simpl; [auto|]. intros [<-|H]; auto.
Qed.

Lemma NoDup_keys_dict_remove k d : NoDup (keys d) -> NoDup (keys (dict_remove k d)).
Proof.
  induction d as [|[k' v'] t IH]; simpl; intros Hnd; [constructor|].
  inversion Hnd as [|? ? Hn Hnd']; subst.
  destruct (String.eqb k k'); simpl; [exact Hnd'|].
  constructor; [|now apply IH].
  intros Hin. apply Hn. unfold keys in *. apply in_map_iff in Hin as (kv & <- & Hkv).
  apply in_map. now apply In_dict_remove in Hkv.
Qed.

Lemma dict_get_set_same k v d : dict_get k (dict_set k v d) = Some v.
Proof.
  induction d as [|[k' v'] t IH]; simpl.
  - now rewrite String.eqb_refl.
  - destruct (String.eqb_spec k k') as [->|Hne]; simpl.
    + now rewrite String.eqb_refl.
    + destruct (String.eqb_spec k k'); [contradiction | exact IH].
Qed.

Lemma dict_get_set_other k k' v d :
  k' <> k -> dict_get k' (dict_set k v d) = dict_get k' d.
Proof.
  intros Hne. induction d as [|[k0 v0] t IH]; simpl.
  - destruct (String.eqb_spec k' k); [contradiction | reflexivity].
  - destruct (String.eqb_spec k k0) as [->|Hne0]; simpl.
    + destruct (String.eqb_spec k' k0); [contradiction | reflexivity].
    + now rewrite IH.
Qed.

(** [dict(pairs)] has distinct keys and only values the pairs gave. *)
Lemma dict_of_pairs_spec (ps : list (string * A)) :
  NoDup (keys (dict_of_pairs ps)) /\
  forall kv, In kv (dict_of_pairs ps) -> In kv ps.
Proof.
  unfold dict_of_pairs.
  enough (H : forall acc,
            NoDup (keys acc) ->
            NoDup (keys (fold_left (fun d kv => dict_set (fst kv) (snd kv) d) ps acc)) /\
            forall kv, In kv (fold_left (fun d kv => dict_set (fst kv) (snd kv) d) ps acc) ->
                       In kv acc \/ In kv ps).
  { destruct (H [] (NoDup_nil _)) as [H1 H2]. split; [exact H1|].
    intros kv Hin. destruct (H2 kv Hin) as [[]|]; assumption. }
  induction ps as [|[k v] ps IH]; intros acc Hnd; simpl.
  - auto.
  - destruct (IH (dict_set k v acc) (NoDup_keys_dict_set k v acc Hnd)) as [H1 H2].
    split; [exact H1|]. intros kv Hin.
    destruct (H2 kv Hin) as [Hs|Hp]; [|auto].
    destruct (In_dict_set _ _ _ _ Hs) as [->|Ha]; auto.
Qed.

End DictFacts2.

(** ** The playlist manager, continued *)

Section ManagerOps.

Implicit Types (s : PM) (d : store).

Lemma store_ok_iff d :
  store_ok d = true <->
  NoDup (keys d) /\ Forall (fun kv => tracks_ok (snd kv) = true) d.
Proof.
  unfold store_ok, to_json. cbn [json_ok].
  rewrite andb_true_iff, map_map. cbn [fst].
  change (map (fun x : string * list track => fst x) d) with (keys d).
  rewrite distinct_NoDup, forallb_forall, Forall_forall.
  split; intros [Hk Hv]; (split; [exact Hk|]).
  - intros kv Hin. specialize (Hv _ (in_map _ _ _ Hin)). cbn [snd json_ok] in Hv.
    unfold tracks_ok. rewrite forallb_forall in Hv |- *.
    intros tr Htr. apply Hv. now apply in_map.
  - intros j Hj. apply in_map_iff in Hj as (kv & <- & Hin).
    specialize (Hv kv Hin). cbn [snd json_ok]. unfold tracks_ok in Hv.
    rewrite forallb_forall in Hv |- *.
    intros x Hx. apply in_map_iff in Hx as (tr & <- & Htr). now apply Hv.
Qed.

Lemma saved_agrees d :
  store_ok d = true ->
  store_utf8 d = true ->
  file_agrees (mkPM d (mkFile (Some (dumps (to_json d))) true)).
Proof. intros Hok Hu. unfold file_agrees. now apply load_saved. Qed.

(** A call leaves the manager and the file alone, or ends with [save] on
    the new store; no call changes the store and then fails to reach
    [save]. *)
Lemma run_command_cases (c : command) s :
  snd (run_command c s) = s \/
  exists d', snd (run_command c s) = snd (save (mkPM d' (disk s))).
Proof.
  destruct c; simpl;
    unfold add_playlist, rename_playlist, delete_playlist, move_playlist,
      add_track, rename_track, delete_track, move_track, _tracks,
      update_tracks, bind, get_data, set_data, lift, ret, raise; simpl;
    repeat match goal with
    | |- context [if ?b then _ else _] => destruct b; simpl
    | |- context [match dict_pop ?k ?d with _ => _ end] =>
        destruct (dict_pop k d) as [[? ?]|?]; simpl
    | |- context [match swap_items ?l ?i ?j with _ => _ end] =>
        destruct (swap_items l i j); simpl
    | |- context [match items_for ?d ?l with _ => _ end] =>
        destruct (items_for d l); simpl
    | |- context [match dict_getitem ?k ?d with _ => _ end] =>
        destruct (dict_getitem k d); simpl
    | |- context [match getitem ?l ?i with _ => _ end] =>
        destruct (getitem l i); simpl
    | |- context [match setitem ?l ?i ?a with _ => _ end] =>
        destruct (setitem l i a); simpl
    end;
    try (left; reflexivity);
    right; eexists; reflexivity.
Qed.

Ltac run_pm :=
  unfold add_playlist, rename_playlist, delete_playlist, move_playlist,
    add_track, rename_track, delete_track, move_track, update_tracks,
    bind, get_data, set_data, lift, ret, raise; simpl.

(** *** What each call computes *)

Lemma add_playlist_run name s :
  add_playlist name s
  = if dict_in name (_data s) then (Ok tt, s)
    else save (mkPM (dict_set name [] (_data s)) (disk s)).
Proof. run_pm. now destruct (dict_in name (_data s)). Qed.

Lemma delete_playlist_run name s :
  delete_playlist name s
  = if dict_in name (_data s)
    then save (mkPM (dict_remove name (_data s)) (disk s))
    else (Ok tt, s).
Proof.
  run_pm. unfold dict_pop, dict_in.
  now destruct (dict_get name (_data s)).
Qed.

Lemma track_call_run pl s ts :
  dict_get pl (_data s) = Some ts ->
  (forall tr, add_track pl tr s
     = save (mkPM (dict_set pl (ts ++ [tr])%list (_data s)) (disk s))) /\
  (forall idx t, 0 <= idx < len ts ->
     exists tr,
       nth_error ts (Z.to_nat idx) = Some tr /\
       rename_track pl idx t s
       = save (mkPM (dict_set pl
                       (replace_nth (Z.to_nat idx)
                          (dict_set "title" (JStr t) tr) ts) (_data s))
                    (disk s))) /\
  (forall idx, 0 <= idx < len ts ->
     delete_track pl idx s
     = save (mkPM (dict_set pl (remove_nth (Z.to_nat idx) ts) (_data s)) (disk s))) /\
  (forall idx delta ts', 0 <= idx + delta < len ts ->
     swap_items ts idx (idx + delta) = Ok ts' ->
     move_track pl idx delta s = save (mkPM (dict_set pl ts' (_data s)) (disk s))) /\
  (forall idx delta e, 0 <= idx + delta < len ts ->
     swap_items ts idx (idx + delta) = Raise e ->
     move_track pl idx delta s = (Raise e, s)).
Proof.
  intros Hg.
  assert (Hb : forall i, 0 <= i < len ts -> (0 <=? i) && (i <? len ts) = true).
  { intros i Hi. apply andb_true_iff. split; [apply Z.leb_le | apply Z.ltb_lt]; lia. }
  split; [|split; [|split; [|split]]].
  - intros tr. run_pm. unfold bind. rewrite (_tracks_present _ _ _ Hg). reflexivity.
  - intros idx t Hi. destruct (getitem_in_range ts idx Hi) as (tr & Hget & Hnth).
    exists tr. split; [exact Hnth|].
    run_pm. unfold bind. rewrite (_tracks_present _ _ _ Hg), (Hb _ Hi), Hget.
    rewrite (setitem_in_range ts idx _ Hi). reflexivity.
  - intros idx Hi. run_pm. unfold bind.
    rewrite (_tracks_present _ _ _ Hg), (Hb _ Hi). reflexivity.
  - intros idx delta ts' Hi Hs. run_pm. unfold bind.
    rewrite (_tracks_present _ _ _ Hg), (Hb _ Hi), Hs. reflexivity.
  - intros idx delta e Hi Hs. run_pm. unfold bind.
    rewrite (_tracks_present _ _ _ Hg), (Hb _ Hi), Hs. reflexivity.
Qed.

Lemma items_for_entries (d : store) (l : list (string * list track)) :
  (forall kv, In kv l -> dict_get (fst kv) d = Some (snd kv)) ->
  items_for d (map fst l) = Ok l.
Proof.
  induction l as [|[k v] l IH]; intros H; simpl; [reflexivity|].
  pose proof (H (k, v) (or_introl eq_refl)) as Hk. simpl in Hk.
  unfold dict_getitem. rewrite Hk.
  rewrite IH; [reflexivity|]. intros kv Hin. apply H. now right.
Qed.

(** With both positions valid, [move_playlist] swaps the two entries of
    the store, and saves. *)
Lemma move_playlist_run index delta s :
  NoDup (keys (_data s)) ->
  0 <= index < len (_data s) ->
  0 <= index + delta < len (_data s) ->
  exists d',
    swap_items (_data s) index (index + delta) = Ok d' /\
    List.length d' = List.length (_data s) /\
    (forall n, nth_error d' n
               = nth_error (_data s)
                   (transpose (Z.to_nat index) (Z.to_nat (index + delta)) n)) /\
    NoDup (keys d') /\
    move_playlist index delta s = save (mkPM d' (disk s)).
Proof.
  intros Hnd Hi Hj.
  destruct (swap_items_valid (_data s) index (index + delta) Hi Hj)
    as (d' & Hswap & Hlen & Hnth).
  assert (Hlk : len (keys (_data s)) = len (_data s))
    by (unfold len, keys; now rewrite length_map).
  destruct (swap_items_valid (keys (_data s)) index (index + delta))
    as (ks' & Hkswap & Hklen & Hknth); try (rewrite Hlk; assumption).
  assert (Hks : ks' = keys d').
  { apply nth_error_ext. intros n. unfold keys in *.
    rewrite Hknth, !nth_error_map, Hnth. reflexivity. }
  subst ks'.
  assert (Hia : (Z.to_nat index < List.length (_data s))%nat) by (unfold len in Hi; lia).
  assert (Hja : (Z.to_nat (index + delta) < List.length (_data s))%nat)
    by (unfold len in Hj; lia).
  assert (Hnd' : NoDup (keys d')).
  { unfold keys in *.
    apply (transposed_NoDup (map fst (_data s)) (map fst d')
             (Z.to_nat index) (Z.to_nat (index + delta)));
      rewrite ?length_map; assumption. }
  exists d'. split; [exact Hswap|]. split; [exact Hlen|].
  split; [exact Hnth|]. split; [exact Hnd'|].
  run_pm. fold (keys (_data s)).
  assert (Hb : (0 <=? index + delta) && (index + delta <? len (keys (_data s))) = true).
  { rewrite Hlk. apply andb_true_iff. split; [apply Z.leb_le | apply Z.ltb_lt]; lia. }
  rewrite Hb, Hkswap. simpl.
  change (keys d') with (map fst d').
  rewrite items_for_entries.
  - simpl. rewrite dict_of_pairs_distinct; [reflexivity|].
    now apply distinct_NoDup.
  - intros kv Hin. destruct kv as [k v]. apply In_dict_get; [exact Hnd|].
    now apply (transposed_In (_data s) d' _ _ Hia Hja Hlen Hnth).
Qed.

End ManagerOps.

Section ManagerTheorems.

Implicit Types (s : PM) (d : store).

Lemma save_result s : exists s', save s = (Ok tt, s') /\ _data s' = _data s.
Proof.
  destruct (save s) as [r s'] eqn:E. pose proof (save_data s) as [Hd Hr].
  rewrite E in Hd, Hr. simpl in *. subst. eauto.
Qed.

(** [add_playlist]: a new name goes last, with no track; a name already
    there keeps its place and its tracks. *)
Theorem add_playlist_appends (s : PM) (name : string) :
  exists s',
    add_playlist name s = (Ok tt, s') /\
    if dict_in name (_data s) then s' = s
    else _data s' = (_data s ++ [(name, [])])%list.
Proof.
  rewrite add_playlist_run. destruct (dict_in name (_data s)) eqn:E.
  - now exists s.
  - destruct (save_result (mkPM (dict_set name [] (_data s)) (disk s)))
      as (s' & Hs & Hd).
    exists s'. split; [exact Hs|]. rewrite Hd. simpl.
    apply dict_set_fresh. now apply dict_in_false_iff.
Qed.

(** [delete_playlist] removes the entry of that name and nothing else. *)
Theorem delete_playlist_removes (s : PM) (name : string) :
  NoDup (keys (_data s)) ->
  exists s',
    delete_playlist name s = (Ok tt, s') /\
    _data s' = filter (other_than name) (_data s) /\
    (dict_in name (_data s) = false -> s' = s).
Proof.
  intros Hnd. rewrite delete_playlist_run.
  destruct (dict_in name (_data s)) eqn:E.
  - destruct (save_result (mkPM (dict_remove name (_data s)) (disk s)))
      as (s' & Hs & Hd).
    exists s'. split; [exact Hs|]. split; [|discriminate].
    rewrite Hd. simpl. now apply dict_remove_filter.
  - exists s. split; [reflexivity|]. split; [|reflexivity].
    symmetry. apply filter_other_than_absent. intros Hin.
    apply dict_get_key in Hin as [v Hv]. apply dict_in_false_iff in E. congruence.
Qed.

Lemma delete_playlist_removes_witness :
  exists s',
    delete_playlist "Jazz" rock_pm = (Ok tt, s') /\
    keys (_data s') = ["Rock"; "Pop"].
Proof.
  destruct (delete_playlist_removes rock_pm "Jazz" rock_store_keys_nodup)
    as (s' & Hrun & Hd & _).
  exists s'. split; [exact Hrun|]. rewrite Hd. reflexivity.
Defined.

(** [move_playlist] with both positions in range swaps the two entries:
    the names trade places and every name keeps its tracks. *)
Theorem move_playlist_swaps (s : PM) (index delta : Z) :
  NoDup (keys (_data s)) ->
  0 <= index < len (_data s) ->
  0 <= index + delta < len (_data s) ->
  exists s',
    move_playlist index delta s = (Ok tt, s') /\
    swap_items (_data s) index (index + delta) = Ok (_data s') /\
    (forall n, nth_error (keys (_data s')) n
               = nth_error (keys (_data s))
                   (transpose (Z.to_nat index) (Z.to_nat (index + delta)) n)) /\
    (forall k, dict_get k (_data s') = dict_get k (_data s)).
Proof.
  intros Hnd Hi Hj.
  destruct (move_playlist_run index delta s Hnd Hi Hj)
    as (d' & Hswap & Hlen & Hnth & Hnd' & Hrun).
  destruct (save_result (mkPM d' (disk s))) as (s' & Hs & Hd). simpl in Hd.
  exists s'. rewrite Hrun, Hd. split; [exact Hs|]. split; [exact Hswap|].
  assert (Hia : (Z.to_nat index < List.length (_data s))%nat) by (unfold len in Hi; lia).
  assert (Hja : (Z.to_nat (index + delta) < List.length (_data s))%nat)
    by (unfold len in Hj; lia).
  pose proof (transposed_In (_data s) d' _ _ Hia Hja Hlen Hnth) as Hin.
  split.
  - intros n. unfold keys. now rewrite !nth_error_map, Hnth.
  - intros k. destruct (dict_get k (_data s)) as [v|] eqn:E.
    + apply In_dict_get; [exact Hnd'|]. apply Hin. now apply dict_get_In.
    + destruct (dict_get k d') as [v|] eqn:E'; [|reflexivity].
      apply dict_get_In, Hin, (In_dict_get _ _ _ Hnd) in E'. congruence.
Qed.

Lemma move_playlist_swaps_witness :
  exists s',
    move_playlist 0 1 rock_pm = (Ok tt, s') /\
    keys (_data s') = ["Jazz"; "Rock"; "Pop"].
Proof.
  assert (H0 : 0 <= 0 < len (_data rock_pm)) by (unfold len; simpl; lia).
  assert (H1 : 0 <= 0 + 1 < len (_data rock_pm)) by (unfold len; simpl; lia).
  destruct (move_playlist_swaps rock_pm 0 1 rock_store_keys_nodup H0 H1)
    as (s' & Hrun & Hswap & _).
  exists s'. split; [exact Hrun|].
  injection Hswap as <-. reflexivity.
Defined.

End ManagerTheorems.

Section TrackTheorems.

Implicit Types (s : PM) (d : store).

Lemma dict_set_same_value {A : Type} (k : string) (v : A) (d : dict A) :
  dict_get k d = Some v -> dict_set k v d = d.
Proof.
  induction d as [|[k' v'] t IH]; simpl; [discriminate|].
  destruct (String.eqb_spec k k') as [->|Hne].
  - now intros [= ->].
  - intros H. now rewrite IH.
Qed.

Lemma dict_set_twice {A : Type} (k : string) (v w : A) (d : dict A) :
  dict_set k w (dict_set k v d) = dict_set k w d.
Proof.
  induction d as [|[k' v'] t IH]; simpl.
  - now rewrite String.eqb_refl.
  - destruct (String.eqb_spec k k') as [->|Hne]; simpl.
    + now rewrite String.eqb_refl.
    + destruct (String.eqb_spec k k'); [contradiction|]. now rewrite IH.
Qed.

Lemma remove_nth_app_last {A : Type} (l : list A) (a : A) :
  remove_nth (List.length l) (l ++ [a]) = l.
Proof. induction l as [|h t IH]; simpl; [reflexivity | now rewrite IH]. Qed.

(** [add_track] puts the track at the end of its playlist, and
    [delete_track] at that position takes it out again: the store is what
    it was. *)
Theorem add_then_delete_track (s : PM) (pl : string) (ts : list track)
        (tr : track) :
  dict_get pl (_data s) = Some ts ->
  exists s1 s2,
    add_track pl tr s = (Ok tt, s1) /\
    dict_get pl (_data s1) = Some (ts ++ [tr])%list /\
    delete_track pl (len ts) s1 = (Ok tt, s2) /\
    _data s2 = _data s.
Proof.
  intros Hg.
  destruct (track_call_run pl s ts Hg) as (Hadd & _).
  destruct (save_result (mkPM (dict_set pl (ts ++ [tr])%list (_data s)) (disk s)))
    as (s1 & Hs1 & Hd1). simpl in Hd1.
  assert (Hg1 : dict_get pl (_data s1) = Some (ts ++ [tr])%list)
    by (rewrite Hd1; apply dict_get_set_same).
  destruct (track_call_run pl s1 _ Hg1) as (_ & _ & Hdel & _).
  assert (Hi : 0 <= len ts < len (ts ++ [tr])%list)
    by (unfold len; rewrite length_app; simpl; lia).
  destruct (save_result
              (mkPM (dict_set pl (remove_nth (Z.to_nat (len ts)) (ts ++ [tr])%list)
                       (_data s1)) (disk s1)))
    as (s2 & Hs2 & Hd2). simpl in Hd2.
  exists s1, s2. rewrite Hadd, (Hdel _ Hi).
  split; [exact Hs1|]. split; [exact Hg1|]. split; [exact Hs2|].
  rewrite Hd2, Hd1. unfold len. rewrite Nat2Z.id, remove_nth_app_last.
  rewrite dict_set_twice. now apply dict_set_same_value.
Qed.

Lemma add_then_delete_track_witness :
  exists s1 s2,
    add_track "Jazz" (demo_track "x") rock_pm = (Ok tt, s1) /\
    delete_track "Jazz" 0 s1 = (Ok tt, s2) /\
    _data s2 = rock_store.
Proof.
  destruct (add_then_delete_track rock_pm "Jazz" [] (demo_track "x") eq_refl)
    as (s1 & s2 & H1 & _ & H2 & H3).
  exists s1, s2. split; [exact H1|]. split; [exact H2 | exact H3].
Defined.

(** [rename_track] on an existing playlist, at an index inside it: the
    call returns, the list keeps its length, the record at the index gets
    the new title and keeps its other fields, and every other record of
    the list that does not hold the renamed one (as itself or inside it)
    is as before.  A record that does hold it, the same dict object added
    twice for one, shows the new title too in the code; nothing is said
    about such a record here. *)
Theorem rename_track_changes_title_only (s : PM) (pl : string)
        (ts : list track) (idx : Z) (t : string) :
  dict_get pl (_data s) = Some ts ->
  0 <= idx < len ts ->
  exists s' ts' tr tr',
    rename_track pl idx t s = (Ok tt, s') /\
    dict_get pl (_data s') = Some ts' /\
    List.length ts' = List.length ts /\
    nth_error ts (Z.to_nat idx) = Some tr /\
    nth_error ts' (Z.to_nat idx) = Some tr' /\
    dict_get "title" tr' = Some (JStr t) /\
    (forall f, f <> "title" -> dict_get f tr' = dict_get f tr) /\
    (forall n other,
       n <> Z.to_nat idx ->
       nth_error ts n = Some other ->
       ~ inside (JObj tr) (JObj other) ->
       nth_error ts' n = Some other).
Proof.
  intros Hg Hi.
  destruct (track_call_run pl s ts Hg) as (_ & Hren & _).
  destruct (Hren idx t Hi) as (tr & Hnth & Hrun).
  match type of Hrun with _ = save ?x =>
    destruct (save_result x) as (s' & Hs & Hd) end. simpl in Hd.
  exists s', (replace_nth (Z.to_nat idx) (dict_set "title" (JStr t) tr) ts),
    tr, (dict_set "title" (JStr t) tr).
  rewrite Hrun. split; [exact Hs|].
  split; [rewrite Hd; apply dict_get_set_same|].
  split; [apply replace_nth_length|]. split; [exact Hnth|].
  split.
  { rewrite nth_error_replace_nth, Nat.eqb_refl.
    assert (H : (Z.to_nat idx <? List.length ts)%nat = true)
      by (apply Nat.ltb_lt; unfold len in Hi; lia).
    now rewrite H. }
  split; [apply dict_get_set_same|].
  split; [intros f Hf; now apply dict_get_set_other|].
  intros n other Hn Hother _. rewrite nth_error_replace_nth.
  destruct (Nat.eqb_spec n (Z.to_nat idx)); [contradiction | exact Hother].
Qed.

Lemma rename_track_changes_title_only_witness :
  exists s' ts' tr',
    rename_track "Mix" 1 "new" (mkPM [("Mix", three_tracks)] (mkFile None true))
      = (Ok tt, s') /\
    dict_get "Mix" (_data s') = Some ts' /\
    nth_error ts' 1 = Some tr' /\
    dict_get "title" tr' = Some (JStr "new") /\
    dict_get "url" tr' = Some (JStr "https://youtu.be/t1") /\
    nth_error ts' 0 = Some (demo_track "t0") /\
    nth_error ts' 2 = Some (demo_track "t2").
Proof.
  assert (Hi : 0 <= 1 < len three_tracks) by (unfold len; simpl; lia).
  destruct (rename_track_changes_title_only
              (mkPM [("Mix", three_tracks)] (mkFile None true)) "Mix" _ 1 "new"
              eq_refl Hi)
    as (s' & ts' & tr & tr' & Hrun & Hg & Hlen & Hn & Hn' & Ht & Hf & Hrest).
  injection Hn as <-.
  exists s', ts', tr'. split; [exact Hrun|]. split; [exact Hg|].
  split; [exact Hn'|]. split; [exact Ht|].
  split; [rewrite (Hf "url") by discriminate; reflexivity|].
  split.
  - apply Hrest; [discriminate | reflexivity |].
    simpl. intuition discriminate.
  - apply Hrest; [discriminate | reflexivity |].
    simpl. intuition discriminate.
Defined.

End TrackTheorems.

Section MoveTrack.

Implicit Types (s : PM) (d : store).

(** A negative index counts from the end. *)
Lemma getitem_negative {A : Type} (l : list A) (i : Z) :
  - len l <= i < 0 -> getitem l i = getitem l (i + len l).
Proof.
  intros Hi. unfold getitem.
  destruct (Z.ltb_spec i 0); [|lia].
  destruct (Z.ltb_spec (i + len l) 0); [lia | reflexivity].
Qed.

Lemma setitem_negative {A : Type} (l : list A) (i : Z) (a : A) :
  - len l <= i < 0 -> setitem l i a = setitem l (i + len l) a.
Proof.
  intros Hi. unfold setitem.
  destruct (Z.ltb_spec i 0); [|lia].
  destruct (Z.ltb_spec (i + len l) 0); [lia | reflexivity].
Qed.

Lemma swap_items_negative {A : Type} (l : list A) (i j : Z) :
  - len l <= i < 0 -> swap_items l i j = swap_items l (i + len l) j.
Proof.
  intros Hi. unfold swap_items.
  rewrite (getitem_negative l i Hi).
  destruct (getitem l j) as [aj|e]; [|reflexivity].
  destruct (getitem l (i + len l)) as [ai|e]; [|reflexivity].
  now rewrite (setitem_negative l i aj Hi).
Qed.

Lemma getitem_out_of_range {A : Type} (l : list A) (i : Z) :
  i < - len l \/ len l <= i -> getitem l i = Raise IndexError.
Proof.
  intros Hi. unfold getitem.
  destruct (Z.ltb_spec i 0).
  - destruct (Z.leb_spec 0 (i + len l)); [|reflexivity].
    destruct (Z.ltb_spec (i + len l) (len l)); [lia | reflexivity].
  - destruct (Z.leb_spec 0 i); [|reflexivity].
    destruct (Z.ltb_spec i (len l)); [lia | reflexivity].
Qed.

Lemma swap_items_source_out_of_range {A : Type} (l : list A) (i j : Z) :
  0 <= j < len l ->
  i < - len l \/ len l <= i ->
  swap_items l i j = Raise IndexError.
Proof.
  intros Hj Hi. unfold swap_items.
  destruct (getitem_in_range l j Hj) as (aj & -> & _).
  now rewrite (getitem_out_of_range l i Hi).
Qed.

(** [move_track] checks the target position only.  With the target in
    range, a source index below zero is counted from the end of the
    playlist (the call does what the call with [idx + len] does), and a
    source index beyond either end raises [IndexError] and changes
    nothing. *)
Theorem move_track_unchecked_source (s : PM) (pl : string) (ts : list track)
        (idx delta : Z) :
  dict_get pl (_data s) = Some ts ->
  0 <= idx + delta < len ts ->
  (- len ts <= idx < 0 ->
     move_track pl idx delta s = move_track pl (idx + len ts) (delta - len ts) s) /\
  (idx < - len ts \/ len ts <= idx ->
     move_track pl idx delta s = (Raise IndexError, s)).
Proof.
  intros Hg Hj.
  destruct (track_call_run pl s ts Hg) as (_ & _ & _ & Hok & Herr).
  split.
  - intros Hi.
    assert (Hj' : 0 <= idx + len ts + (delta - len ts) < len ts) by lia.
    assert (E : idx + len ts + (delta - len ts) = idx + delta) by lia.
    destruct (swap_items ts idx (idx + delta)) as [ts'|e] eqn:Hs.
    + rewrite (Hok idx delta ts' Hj Hs).
      symmetry. apply Hok; [exact Hj'|].
      now rewrite E, <- swap_items_negative.
    + rewrite (Herr idx delta e Hj Hs).
      symmetry. apply Herr; [exact Hj'|].
      now rewrite E, <- swap_items_negative.
  - intros Hi. apply Herr; [exact Hj|].
    now apply swap_items_source_out_of_range.
Qed.

Lemma move_track_unchecked_source_witness :
  move_track "Mix" (-1) 1 (pm (demo_app "stop"))
    = move_track "Mix" 2 (-2) (pm (demo_app "stop")) /\
  move_track "Mix" 7 (-7) (pm (demo_app "stop"))
    = (Raise IndexError, pm (demo_app "stop")).
Proof.
  assert (H1 : 0 <= -1 + 1 < len three_tracks) by (unfold len; simpl; lia).
  assert (H2 : 0 <= 7 + -7 < len three_tracks) by (unfold len; simpl; lia).
  split.
  - destruct (move_track_unchecked_source (pm (demo_app "stop")) "Mix"
                three_tracks (-1) 1 eq_refl H1) as [H _].
    apply H. unfold len. simpl. lia.
  - destruct (move_track_unchecked_source (pm (demo_app "stop")) "Mix"
                three_tracks 7 (-7) eq_refl H2) as [_ H].
    apply H. unfold len. simpl. lia.
Defined.

(** Moving a track and moving it back restores the store. *)
Theorem move_track_there_and_back (s : PM) (pl : string) (ts : list track)
        (idx delta : Z) :
  dict_get pl (_data s) = Some ts ->
  0 <= idx < len ts ->
  0 <= idx + delta < len ts ->
  exists s1 s2 ts1,
    move_track pl idx delta s = (Ok tt, s1) /\
    dict_get pl (_data s1) = Some ts1 /\
    nth_error ts1 (Z.to_nat (idx + delta)) = nth_error ts (Z.to_nat idx) /\
    nth_error ts1 (Z.to_nat idx) = nth_error ts (Z.to_nat (idx + delta)) /\
    move_track pl (idx + delta) (- delta) s1 = (Ok tt, s2) /\
    _data s2 = _data s.
Proof.
  intros Hg Hi Hj.
  destruct (track_call_run pl s ts Hg) as (_ & _ & _ & Hok & _).
  destruct (swap_items_valid ts idx (idx + delta) Hi Hj) as (ts1 & Hs1 & Hl1 & Hn1).
  destruct (save_result (mkPM (dict_set pl ts1 (_data s)) (disk s)))
    as (s1 & Hrun1 & Hd1). simpl in Hd1.
  assert (Hg1 : dict_get pl (_data s1) = Some ts1)
    by (rewrite Hd1; apply dict_get_set_same).
  destruct (track_call_run pl s1 ts1 Hg1) as (_ & _ & _ & Hok1 & _).
  assert (Hlen1 : len ts1 = len ts) by (unfold len; now rewrite Hl1).
  assert (Hi1 : 0 <= idx + delta < len ts1) by lia.
  assert (Hj1 : 0 <= idx + delta + - delta < len ts1) by lia.
  destruct (swap_items_valid ts1 (idx + delta) (idx + delta + - delta) Hi1 Hj1)
    as (ts2 & Hs2 & Hl2 & Hn2).
  destruct (save_result (mkPM (dict_set pl ts2 (_data s1)) (disk s1)))
    as (s2 & Hrun2 & Hd2). simpl in Hd2.
  assert (Hback : ts2 = ts).
  { apply nth_error_ext. intros n. rewrite Hn2, Hn1.
    replace (idx + delta + - delta) with idx by lia.
    now rewrite transpose_sym, transpose_involutive. }
  exists s1, s2, ts1.
  rewrite (Hok idx delta ts1 Hj Hs1), (Hok1 (idx + delta) (- delta) ts2 Hj1 Hs2).
  split; [exact Hrun1|]. split; [exact Hg1|].
  split.
  { rewrite Hn1. unfold transpose. rewrite Nat.eqb_refl.
    now destruct (Nat.eqb_spec (Z.to_nat (idx + delta)) (Z.to_nat idx)) as [->|]. }
  split.
  { rewrite Hn1. unfold transpose. now rewrite Nat.eqb_refl. }
  split; [exact Hrun2|].
  rewrite Hd2, Hd1, Hback, dict_set_twice. now apply dict_set_same_value.
Qed.

Lemma move_track_there_and_back_witness :
  exists s1 s2,
    move_track "Mix" 0 2 (pm (demo_app "stop")) = (Ok tt, s1) /\
    move_track "Mix" 2 (-2) s1 = (Ok tt, s2) /\
    _data s2 = _data (pm (demo_app "stop")).
Proof.
  assert (H0 : 0 <= 0 < len three_tracks) by (unfold len; simpl; lia).
  assert (H2 : 0 <= 0 + 2 < len three_tracks) by (unfold len; simpl; lia).
  destruct (move_track_there_and_back (pm (demo_app "stop")) "Mix" three_tracks
              0 2 eq_refl H0 H2)
    as (s1 & s2 & ts1 & Hr1 & _ & _ & _ & Hr2 & Hd).
  exists s1, s2. split; [exact Hr1|]. split; [exact Hr2 | exact Hd].
Defined.

End MoveTrack.

(** ** What [load] reads, and sessions on a writable file *)

Section LoadFacts.

Lemma forallb_In {X : Type} (p : X -> bool) (l l' : list X) :
  (forall x, In x l' -> In x l) -> forallb p l = true -> forallb p l' = true.
Proof.
  rewrite !forallb_forall. intros Hsub H x Hx. apply H, Hsub, Hx.
Qed.





End LoadFacts.

Ltac pm_unfold :=
  unfold add_playlist, rename_playlist, delete_playlist, move_playlist,
    add_track, rename_track, delete_track, move_track, update_tracks,
    bind, get_data, set_data, lift, ret, raise; simpl.

Section Membership.

Context {A : Type}.
Implicit Types (l : list A).

Lemma In_replace_nth n (a : A) l x :
  In x (replace_nth n a l) -> x = a \/ In x l.
Proof.
  revert n. induction l as [|h t IH]; intros [|n]; simpl; try tauto.
  - intros [<-|H]; auto.
  - intros [<-|H]; auto. destruct (IH _ H); auto.
Qed.

Lemma In_remove_nth n l x : In x (remove_nth n l) -> In x l.
Proof.
  revert n. induction l as [|h t IH]; intros [|n]; simpl; try tauto.
  intros [<-|H]; auto. right. now apply (IH n).
Qed.

Lemma getitem_In l (i : Z) (a : A) : getitem l i = Ok a -> In a l.
Proof.
  unfold getitem. destruct (_ && _); [|discriminate].
  destruct (nth_error l _) as [b|] eqn:E; [|discriminate].
  intros [= <-]. exact (nth_error_In _ _ E).
Qed.

Lemma setitem_In l l' (i : Z) (a : A) :
  setitem l i a = Ok l' -> forall x, In x l' -> x = a \/ In x l.
Proof.
  unfold setitem. destruct (_ && _); [|discriminate].
  intros [= <-] x. apply In_replace_nth.
Qed.

Lemma swap_items_In l l' (i j : Z) :
  swap_items l i j = Ok l' -> forall x, In x l' -> In x l.
Proof.
  unfold swap_items.
  destruct (getitem l j) as [aj|] eqn:Hj; [|discriminate].
  destruct (getitem l i) as [ai|] eqn:Hi; [|discriminate].
  destruct (setitem l i aj) as [l1|] eqn:H1; [|discriminate].
  intros H2 x Hx.
  destruct (setitem_In _ _ _ _ H2 x Hx) as [->|Hx1]; [exact (getitem_In _ _ _ Hi)|].
  destruct (setitem_In _ _ _ _ H1 x Hx1) as [->|]; [exact (getitem_In _ _ _ Hj)|].
  assumption.
Qed.

End Membership.

Section Sessions.

Implicit Types (s : PM) (d : store) (c : command).

Lemma store_ok_get d k ts :
  store_ok d = true -> dict_get k d = Some ts -> tracks_ok ts = true.
Proof.
  intros Hok Hg. apply store_ok_iff in Hok as [_ Hall].
  rewrite Forall_forall in Hall. exact (Hall _ (dict_get_In _ _ _ Hg)).
Qed.

Lemma store_ok_set d k ts :
  store_ok d = true -> tracks_ok ts = true -> store_ok (dict_set k ts d) = true.
Proof.
  intros Hok Hts. apply store_ok_iff in Hok as [Hnd Hall]. apply store_ok_iff.
  split; [now apply NoDup_keys_dict_set|].
  rewrite Forall_forall in Hall |- *. intros kv Hin.
  destruct (In_dict_set _ _ _ _ Hin) as [->|H]; [exact Hts | now apply Hall].
Qed.

Lemma store_ok_remove d k :
  store_ok d = true -> store_ok (dict_remove k d) = true.
Proof.
  intros Hok. apply store_ok_iff in Hok as [Hnd Hall]. apply store_ok_iff.
  split; [now apply NoDup_keys_dict_remove|].
  rewrite Forall_forall in Hall |- *. intros kv Hin.
  apply Hall. exact (In_dict_remove _ _ _ Hin).
Qed.

Lemma items_for_In d ks ps :
  items_for d ks = Ok ps -> forall kv, In kv ps -> In kv d.
Proof.
  revert ps. induction ks as [|k ks IH]; intros ps H; simpl in H.
  - injection H as <-. intros kv [].
  - unfold dict_getitem in H.
    destruct (dict_get k d) as [v|] eqn:Hg; [|discriminate].
    destruct (items_for d ks) as [r|]; [|discriminate].
    injection H as <-. intros kv [<-|Hin].
    + now apply dict_get_In.
    + exact (IH _ eq_refl _ Hin).
Qed.

Lemma store_ok_of_pairs d ps :
  store_ok d = true -> (forall kv, In kv ps -> In kv d) ->
  store_ok (dict_of_pairs ps) = true.
Proof.
  intros Hok Hsub. apply store_ok_iff in Hok as [_ Hall]. apply store_ok_iff.
  destruct (dict_of_pairs_spec ps) as [Hnd Hin].
  split; [exact Hnd|].
  rewrite Forall_forall in Hall |- *. intros kv Hkv. apply Hall, Hsub, Hin, Hkv.
Qed.

Lemma tracks_ok_In (ts ts' : list track) :
  (forall tr, In tr ts' -> In tr ts) -> tracks_ok ts = true -> tracks_ok ts' = true.
Proof. apply forallb_In. Qed.

Lemma tracks_ok_app (ts : list track) (tr : track) :
  tracks_ok ts = true -> json_ok (JObj tr) = true -> tracks_ok (ts ++ [tr]) = true.
Proof.
  intros Hts Htr. unfold tracks_ok in *. rewrite forallb_app.
  apply andb_true_iff. split; [exact Hts|]. cbn [forallb]. now rewrite Htr.
Qed.

Lemma retitled_ok (tr : track) (t : string) :
  json_ok (JObj tr) = true -> json_ok (JObj (dict_set "title" (JStr t) tr)) = true.
Proof.
  cbn [json_ok]. rewrite !andb_true_iff, !distinct_NoDup, !forallb_forall.
  intros [Hnd Hall]. split.
  - exact (NoDup_keys_dict_set _ _ _ Hnd).
  - intros kv Hin. destruct (In_dict_set _ _ _ _ Hin) as [->|H]; [reflexivity|].
    now apply Hall.
Qed.

Lemma in_range_true (i n : Z) : (0 <=? i) && (i <? n) = true <-> 0 <= i < n.
Proof. rewrite andb_true_iff, Z.leb_le, Z.ltb_lt. tauto. Qed.

(** A track-level call leaves the manager alone, or stores a new list for
    its playlist and saves; the new list holds tracks of the old one, the
    track handed in, or a track of the old one with a new title. *)
Lemma track_command_cases c pl s :
  target_playlist c = Some pl ->
  snd (run_command c s) = s \/
  exists ts ts',
    dict_get pl (_data s) = Some ts /\
    snd (run_command c s) = snd (save (mkPM (dict_set pl ts' (_data s)) (disk s))) /\
    (command_ok c = true -> tracks_ok ts = true -> tracks_ok ts' = true).
Proof.
  intros Ht.
  destruct (dict_get pl (_data s)) as [ts|] eqn:Hg.
  2:{ left. apply dict_in_false_iff in Hg.
      destruct c; try discriminate; injection Ht as ->; simpl;
        pm_unfold; unfold bind; now rewrite (_tracks_missing _ _ Hg). }
  destruct (track_call_run pl s ts Hg) as (Hadd & Hren & Hdel & Hmv & Hmverr).
  destruct c; try discriminate; injection Ht as ->; simpl.
  - right. exists ts, (ts ++ [tr])%list. split; [reflexivity|].
    split; [now rewrite Hadd|].
    simpl. intros Hc Hts. now apply tracks_ok_app.
  - destruct ((0 <=? idx) && (idx <? len ts)) eqn:Hb.
    + apply in_range_true in Hb. destruct (Hren idx new_title Hb) as (tr & Hn & Hrun).
      right. eexists ts, _. split; [reflexivity|]. split; [now rewrite Hrun|].
      intros _ Hts. unfold tracks_ok in *. rewrite forallb_forall in Hts |- *.
      intros x Hx. destruct (In_replace_nth _ _ _ _ Hx) as [->|Hin].
      * apply retitled_ok, Hts. exact (nth_error_In _ _ Hn).
      * now apply Hts.
    + left. pm_unfold. unfold bind. rewrite (_tracks_present _ _ _ Hg).
      now rewrite Hb.
  - destruct ((0 <=? idx) && (idx <? len ts)) eqn:Hb.
    + apply in_range_true in Hb.
      right. eexists ts, _. split; [reflexivity|]. split; [now rewrite (Hdel idx Hb)|].
      intros _. apply tracks_ok_In. intros tr. apply In_remove_nth.
    + left. pm_unfold. unfold bind. rewrite (_tracks_present _ _ _ Hg).
      now rewrite Hb.
  - destruct ((0 <=? idx + delta) && (idx + delta <? len ts)) eqn:Hb.
    + apply in_range_true in Hb.
      destruct (swap_items ts idx (idx + delta)) as [ts'|e] eqn:Hs.
      * right. exists ts, ts'. split; [reflexivity|].
        split; [now rewrite (Hmv idx delta ts' Hb Hs)|].
        intros _. apply tracks_ok_In. exact (swap_items_In _ _ _ _ Hs).
      * left. now rewrite (Hmverr idx delta e Hb Hs).
    + left. pm_unfold. unfold bind. rewrite (_tracks_present _ _ _ Hg).
      now rewrite Hb.
Qed.

(** A call leaves the manager alone, or saves a store in which names are
    still pairwise distinct. *)
Lemma run_command_keeps_store_ok c s :
  store_ok (_data s) = true -> command_ok c = true ->
  snd (run_command c s) = s \/
  exists d', store_ok d' = true /\
             snd (run_command c s) = snd (save (mkPM d' (disk s))).
Proof.
  intros Hok Hc.
  destruct (target_playlist c) as [pl|] eqn:Ht.
  { destruct (track_command_cases c pl s Ht) as [H|(ts & ts' & Hg & Hrun & Hts)];
      [now left|].
    right. exists (dict_set pl ts' (_data s)). split; [|exact Hrun].
    apply store_ok_set; [exact Hok|]. apply Hts; [exact Hc|].
    exact (store_ok_get _ _ _ Hok Hg). }
  destruct c; try discriminate; simpl.
  - rewrite add_playlist_run. destruct (dict_in name (_data s)); [now left|].
    right. eexists. split; [|reflexivity]. now apply store_ok_set.
  - pm_unfold. unfold dict_pop.
    destruct (negb (dict_in old (_data s)) || dict_in new (_data s)); [now left|].
    destruct (dict_get old (_data s)) as [v|] eqn:Hg; simpl; [|now left].
    right. eexists. split; [|reflexivity].
    apply store_ok_set; [now apply store_ok_remove|].
    exact (store_ok_get _ _ _ Hok Hg).
  - rewrite delete_playlist_run. destruct (dict_in name (_data s)); [|now left].
    right. eexists. split; [|reflexivity]. now apply store_ok_remove.
  - pm_unfold.
    destruct (negb _); [now left|].
    destruct (swap_items _ _ _) as [ks'|]; simpl; [|now left].
    destruct (items_for (_data s) ks') as [ps|] eqn:Hi; simpl; [|now left].
    right. eexists. split; [|reflexivity].
    apply (store_ok_of_pairs (_data s)); [exact Hok|].
    exact (items_for_In _ _ _ Hi).
Qed.

(** Where the tracks of the new list come from. *)
Lemma track_command_origin c pl s :
  target_playlist c = Some pl ->
  snd (run_command c s) = s \/
  exists ts ts',
    dict_get pl (_data s) = Some ts /\
    snd (run_command c s) = snd (save (mkPM (dict_set pl ts' (_data s)) (disk s))) /\
    forall x, In x ts' ->
      In x ts \/ c = AddTrack pl x \/
      exists tr idx t,
        c = RenameTrack pl idx t /\ In tr ts /\
        x = dict_set "title" (JStr t) tr.
Proof.
  intros Ht.
  destruct (dict_get pl (_data s)) as [ts|] eqn:Hg.
  2:{ left. apply dict_in_false_iff in Hg.
      destruct c; try discriminate; injection Ht as ->; simpl;
        pm_unfold; unfold bind; now rewrite (_tracks_missing _ _ Hg). }
  destruct (track_call_run pl s ts Hg) as (Hadd & Hren & Hdel & Hmv & Hmverr).
  destruct c; try discriminate; injection Ht as ->; simpl.
  - right. exists ts, (ts ++ [tr])%list. split; [reflexivity|].
    split; [now rewrite Hadd|].
    intros x Hx. apply in_app_or in Hx as [Hx|[<-|[]]]; auto.
  - destruct ((0 <=? idx) && (idx <? len ts)) eqn:Hb.
    + apply in_range_true in Hb. destruct (Hren idx new_title Hb) as (tr & Hn & Hrun).
      right. eexists ts, _. split; [reflexivity|]. split; [now rewrite Hrun|].
      intros x Hx. destruct (In_replace_nth _ _ _ _ Hx) as [->|Hin]; [|now left].
      right. right. exists tr, idx, new_title.
      split; [reflexivity|]. split; [exact (nth_error_In _ _ Hn) | reflexivity].
    + left. pm_unfold. unfold bind. rewrite (_tracks_present _ _ _ Hg).
      now rewrite Hb.
  - destruct ((0 <=? idx) && (idx <? len ts)) eqn:Hb.
    + apply in_range_true in Hb.
      right. eexists ts, _. split; [reflexivity|]. split; [now rewrite (Hdel idx Hb)|].
      intros x Hx. left. exact (In_remove_nth _ _ _ Hx).
    + left. pm_unfold. unfold bind. rewrite (_tracks_present _ _ _ Hg).
      now rewrite Hb.
  - destruct ((0 <=? idx + delta) && (idx + delta <? len ts)) eqn:Hb.
    + apply in_range_true in Hb.
      destruct (swap_items ts idx (idx + delta)) as [ts'|e] eqn:Hs.
      * right. exists ts, ts'. split; [reflexivity|].
        split; [now rewrite (Hmv idx delta ts' Hb Hs)|].
        intros x Hx. left. exact (swap_items_In _ _ _ _ Hs x Hx).
      * left. now rewrite (Hmverr idx delta e Hb Hs).
    + left. pm_unfold. unfold bind. rewrite (_tracks_present _ _ _ Hg).
      now rewrite Hb.
Qed.

Lemma forallb_map_eq {X Y : Type} (f : Y -> bool) (g : X -> Y) (l : list X) :
  forallb f (map g l) = forallb (fun x => f (g x)) l.
Proof. induction l as [|x l IH]; simpl; [reflexivity | now rewrite IH]. Qed.

Lemma store_utf8_iff d :
  store_utf8 d = true <->
  Forall (fun kv => utf8_valid (fst kv) = true /\ tracks_utf8 (snd kv) = true) d.
Proof.
  unfold store_utf8, to_json, tracks_utf8. cbn [utf8_json].
  rewrite forallb_map_eq, forallb_forall, Forall_forall.
  split; intros H kv Hin; specialize (H kv Hin); cbn [fst snd utf8_json] in *.
  - rewrite forallb_map_eq in H. now apply andb_true_iff in H.
  - rewrite forallb_map_eq. now apply andb_true_iff.
Qed.

Lemma store_utf8_get d k ts :
  store_utf8 d = true -> dict_get k d = Some ts ->
  utf8_valid k = true /\ tracks_utf8 ts = true.
Proof.
  intros Hu Hg. apply store_utf8_iff in Hu.
  rewrite Forall_forall in Hu. exact (Hu _ (dict_get_In _ _ _ Hg)).
Qed.

Lemma store_utf8_set d k ts :
  store_utf8 d = true -> utf8_valid k = true -> tracks_utf8 ts = true ->
  store_utf8 (dict_set k ts d) = true.
Proof.
  intros Hu Hk Hts. apply store_utf8_iff in Hu. apply store_utf8_iff.
  rewrite Forall_forall in Hu |- *. intros kv Hin.
  destruct (In_dict_set _ _ _ _ Hin) as [->|H]; [now split | now apply Hu].
Qed.

Lemma store_utf8_remove d k :
  store_utf8 d = true -> store_utf8 (dict_remove k d) = true.
Proof.
  intros Hu. apply store_utf8_iff in Hu. apply store_utf8_iff.
  rewrite Forall_forall in Hu |- *. intros kv Hin.
  apply Hu. exact (In_dict_remove _ _ _ Hin).
Qed.

Lemma store_utf8_of_pairs d ps :
  store_utf8 d = true -> (forall kv, In kv ps -> In kv d) ->
  store_utf8 (dict_of_pairs ps) = true.
Proof.
  intros Hu Hsub. apply store_utf8_iff in Hu. apply store_utf8_iff.
  destruct (dict_of_pairs_spec ps) as [_ Hin].
  rewrite Forall_forall in Hu |- *. intros kv Hkv. apply Hu, Hsub, Hin, Hkv.
Qed.

Lemma retitled_utf8 (tr : track) (t : string) :
  utf8_json (JObj tr) = true -> utf8_valid t = true ->
  utf8_json (JObj (dict_set "title" (JStr t) tr)) = true.
Proof.
  cbn [utf8_json]. rewrite !forallb_forall. intros Hall Ht kv Hin.
  destruct (In_dict_set _ _ _ _ Hin) as [->|H]; [|now apply Hall].
  cbn [fst snd utf8_json]. now rewrite Ht.
Qed.

(** A call whose strings can be written keeps a store whose strings can
    be written. *)
Lemma run_command_keeps_utf8 c s :
  store_utf8 (_data s) = true -> command_utf8 c = true ->
  store_utf8 (_data (snd (run_command c s))) = true.
Proof.
  intros Hu Hc.
  destruct (target_playlist c) as [pl|] eqn:Ht.
  { destruct (track_command_origin c pl s Ht) as [->|(ts & ts' & Hg & -> & Hfrom)];
      [exact Hu|].
    rewrite (proj1 (save_data _)). simpl.
    destruct (store_utf8_get _ _ _ Hu Hg) as [Hpl Hts].
    apply store_utf8_set; [exact Hu | exact Hpl |].
    unfold tracks_utf8 in *. rewrite forallb_forall in Hts |- *.
    intros x Hx.
    destruct (Hfrom x Hx) as [Hin|[->|(tr & idx & t & -> & Hin & ->)]].
    - now apply Hts.
    - exact Hc.
    - apply retitled_utf8; [now apply Hts | exact Hc]. }
  destruct c; try discriminate; simpl in Hc |- *.
  - rewrite add_playlist_run. destruct (dict_in name (_data s)); [exact Hu|].
    rewrite (proj1 (save_data _)). simpl. now apply store_utf8_set.
  - pm_unfold. unfold dict_pop.
    destruct (negb (dict_in old (_data s)) || dict_in new (_data s)); [exact Hu|].
    destruct (dict_get old (_data s)) as [v|] eqn:Hg; simpl; [|exact Hu].
    rewrite (proj1 (save_data _)). simpl.
    apply store_utf8_set; [now apply store_utf8_remove | exact Hc |].
    exact (proj2 (store_utf8_get _ _ _ Hu Hg)).
  - rewrite delete_playlist_run. destruct (dict_in name (_data s)); [|exact Hu].
    rewrite (proj1 (save_data _)). simpl. now apply store_utf8_remove.
  - pm_unfold.
    destruct (negb _); [exact Hu|].
    destruct (swap_items _ _ _) as [ks'|]; simpl; [|exact Hu].
    destruct (items_for (_data s) ks') as [ps|] eqn:Hi; simpl; [|exact Hu].
    rewrite (proj1 (save_data _)). simpl.
    apply (store_utf8_of_pairs (_data s)); [exact Hu|].
    exact (items_for_In _ _ _ Hi).
Qed.

End Sessions.

Section SessionTheorems.

Implicit Types (s : PM) (d : store) (c : command).



(** On a writable file whose text agrees with the manager, any sequence
    of calls, failing ones included, leaves the file agreeing with the
    manager: no call changes the store without the file following.  The
    strings of the store and of the calls are such as can be encoded as
    UTF-8; [save] gives up at a string that cannot be. *)
Theorem session_keeps_file_in_step (cs : list command) (s : PM) :
  writable (disk s) = true ->
  store_ok (_data s) = true ->
  store_utf8 (_data s) = true ->
  file_agrees s ->
  forallb command_ok cs = true ->
  forallb command_utf8 cs = true ->
  writable (disk (run_commands cs s)) = true /\
  store_ok (_data (run_commands cs s)) = true /\
  store_utf8 (_data (run_commands cs s)) = true /\
  file_agrees (run_commands cs s).
Proof.
  revert s. induction cs as [|c cs IH]; intros s Hw Hok Hu Hag Hcs Hcu; simpl.
  - auto.
  - simpl in Hcs, Hcu. apply andb_true_iff in Hcs as [Hc Hcs].
    apply andb_true_iff in Hcu as [Hc' Hcu].
    pose proof (run_command_keeps_utf8 c s Hu Hc') as Hu'.
    destruct (run_command_keeps_store_ok c s Hok Hc) as [Heq|(d' & Hd' & Heq)];
      rewrite Heq in Hu' |- *.
    + now apply IH.
    + rewrite (proj1 (save_data _)) in Hu'. simpl in Hu'.
      rewrite (save_writable (mkPM d' (disk s)) Hw Hu'). simpl.
      apply IH; simpl; auto. now apply saved_agrees.
Qed.

Lemma session_keeps_file_in_step_witness :
  file_agrees
    (run_commands [AddPlaylist "A"; AddTrack "A" (demo_track "x");
                   AddTrack "B" (demo_track "y"); MoveTrack "A" 5 (-5);
                   AddPlaylist "B"; MovePlaylist 1 (-1)] new_pm).
Proof.
  assert (Hag : file_agrees new_pm) by reflexivity.
  exact (proj2 (proj2 (proj2 (session_keeps_file_in_step
                         [AddPlaylist "A"; AddTrack "A" (demo_track "x");
                          AddTrack "B" (demo_track "y"); MoveTrack "A" 5 (-5);
                          AddPlaylist "B"; MovePlaylist 1 (-1)]
                         new_pm eq_refl eq_refl eq_refl Hag eq_refl eq_refl)))).
Defined.

(** A track-level call changes no playlist but its own: the names and
    their order stay, and every other playlist keeps its tracks, whether
    the call returns or raises.  For [rename_track] this is said of the
    playlists none of whose records holds the renamed one (as itself or
    inside it): a dict object that was added to two playlists shows its
    new title in both. *)
Theorem track_calls_touch_one_playlist (c : command) (pl : string) (s : PM) :
  target_playlist c = Some pl ->
  keys (_data (snd (run_command c s))) = keys (_data s) /\
  forall k, k <> pl ->
    (forall tr ts other,
       renamed_record c s = Some tr ->
       dict_get k (_data s) = Some ts -> In other ts ->
       ~ inside (JObj tr) (JObj other)) ->
    dict_get k (_data (snd (run_command c s))) = dict_get k (_data s).
Proof.
  intros Ht.
  destruct (track_command_cases c pl s Ht) as [->|(ts & ts' & Hg & -> & _)].
  - auto.
  - destruct (save_data (mkPM (dict_set pl ts' (_data s)) (disk s))) as [-> _].
    simpl. split.
    + rewrite keys_dict_set.
      assert (Hin : dict_in pl (_data s) = true)
        by (apply dict_in_true_iff; now exists ts).
      now rewrite Hin.
    + intros k Hk _. now apply dict_get_set_other.
Qed.

Lemma track_calls_touch_one_playlist_witness :
  keys (_data (snd (run_command (RenameTrack "Rock" 0 "new") rock_pm)))
    = ["Rock"; "Jazz"; "Pop"] /\
  dict_get "Pop" (_data (snd (run_command (RenameTrack "Rock" 0 "new") rock_pm)))
    = dict_get "Pop" rock_store.
Proof.
  destruct (track_calls_touch_one_playlist (RenameTrack "Rock" 0 "new") "Rock"
              rock_pm eq_refl) as [Hk Ho].
  split; [exact Hk|]. apply Ho; [discriminate|].
  intros tr ts other Hr Hg Hin Hins.
  injection Hr as <-. injection Hg as <-.
  destruct Hin as [<-|[]]. simpl in Hins. intuition discriminate.
Defined.

(** The result of a call and the store it leaves do not depend on the
    file. *)
Lemma run_command_ignores_disk c d (f1 f2 : File) :
  fst (run_command c (mkPM d f1)) = fst (run_command c (mkPM d f2)) /\
  _data (snd (run_command c (mkPM d f1))) = _data (snd (run_command c (mkPM d f2))).
Proof.
  assert (Hs : forall d' f f',
             fst (save (mkPM d' f)) = fst (save (mkPM d' f')) /\
             _data (snd (save (mkPM d' f))) = _data (snd (save (mkPM d' f')))).
  { intros d' f f'.
    destruct (save_data (mkPM d' f)) as [-> ->].
    destruct (save_data (mkPM d' f')) as [-> ->]. auto. }
  destruct c; simpl;
    unfold add_playlist, rename_playlist, delete_playlist, move_playlist,
      add_track, rename_track, delete_track, move_track, _tracks,
      update_tracks, bind, get_data, set_data, lift, ret, raise; simpl;
    repeat match goal with
    | |- context [if ?b then _ else _] => destruct b; simpl
    | |- context [match dict_pop ?k ?d with _ => _ end] =>
        destruct (dict_pop k d) as [[? ?]|?]; simpl
    | |- context [match swap_items ?l ?i ?j with _ => _ end] =>
        destruct (swap_items l i j); simpl
    | |- context [match items_for ?d ?l with _ => _ end] =>
        destruct (items_for d l); simpl
    | |- context [match dict_getitem ?k ?d with _ => _ end] =>
        destruct (dict_getitem k d); simpl
    | |- context [match getitem ?l ?i with _ => _ end] =>
        destruct (getitem l i); simpl
    | |- context [match setitem ?l ?i ?a with _ => _ end] =>
        destruct (setitem l i a); simpl
    end;
    try (split; reflexivity); apply Hs.
Qed.

(** When the file cannot be written, a call never reports it: the file
    stays as it was, and the call returns or raises, and changes the store
    in memory, exactly as it does with any other file in its place. *)
Theorem failed_write_goes_unnoticed (c : command) (s : PM) (f : File) :
  writable (disk s) = false ->
  disk (snd (run_command c s)) = disk s /\
  fst (run_command c s) = fst (run_command c (mkPM (_data s) f)) /\
  _data (snd (run_command c s)) = _data (snd (run_command c (mkPM (_data s) f))).
Proof.
  intros Hw. split.
  - destruct (run_command_cases c s) as [->|[d' ->]]; [reflexivity|].
    unfold save, try_except, bind, get_data, write_file, ret. simpl.
    now rewrite Hw.
  - destruct s as [d f0]. apply run_command_ignores_disk.
Qed.

Lemma failed_write_goes_unnoticed_witness :
  disk (snd (run_command (AddPlaylist "C") (mkPM [] twice_named_file)))
    = twice_named_file /\
  _data (snd (run_command (AddPlaylist "C") (mkPM [] twice_named_file)))
    = _data (snd (run_command (AddPlaylist "C") new_pm)).
Proof.
  destruct (failed_write_goes_unnoticed (AddPlaylist "C")
              (mkPM [] twice_named_file) (mkFile None true) eq_refl)
    as (Hd & _ & Hs).
  split; [exact Hd | exact Hs].
Defined.

End SessionTheorems.

(** ** The Discord client, continued *)

Section ClientTheorems.

(** A track record that has a URL and no title switches the stream and
    then fails: the player plays the new stream, [start_playback] raises
    [KeyError] after [clear] has run, and the state is left with every
    field [None], so nothing counts as playing. *)
Theorem start_playback_untitled_track (w : World) (now : Q) (tr : track)
        (u : string) (info : Info) (w1 w2 : World) (vc : VoiceClient) :
  dict_get "title" tr = None ->
  str_item "url" tr = Ok u ->
  ytdlp_info u w = (Ok info, w1) ->
  ensure_join w1 = (Ok (Some vc), w2) ->
  exists w',
    start_playback (Some tr) now w = (Raise (KeyError "title"), w') /\
    first_player w' = Some (Playing (info_url info)) /\
    PLAYING_STATE w' = clear (PLAYING_STATE w) /\
    is_playing (PLAYING_STATE w') = false /\
    forall t, elapsed w' t = Ok 0.
Proof.
  intros Ht Hu Hinfo Hjoin.
  destruct (ensure_join_some _ _ _ Hjoin) as (_ & rest & Hvc).
  assert (Ht' : opt_str_item "title" tr = Raise (KeyError "title"))
    by (unfold opt_str_item; now rewrite Ht).
  destruct tr as [|f fs]; [discriminate|].
  unfold start_playback, start_playback_begin.
  unfold bind at 1 2 3 4, lift at 1.
  rewrite Hu, Hinfo, Hjoin.
  destruct vc as [c [|src|src]]; unfold vc_is_playing, vc_is_paused; simpl;
    run_world; rewrite Hvc; simpl; rewrite Ht'; simpl;
    eexists; (split; [reflexivity|]); repeat split; reflexivity.
Qed.

Lemma start_playback_untitled_track_witness :
  exists w',
    start_playback (Some untitled_track) 100 demo_world
      = (Raise (KeyError "title"), w') /\
    first_player w' = Some (Playing "https://cdn/stream") /\
    is_playing (PLAYING_STATE w') = false.
Proof.
  destruct (start_playback_untitled_track demo_world 100 untitled_track
              "https://youtu.be/abc" demo_info _ _ _
              eq_refl eq_refl eq_refl eq_refl)
    as (w' & Hrun & Hpl & _ & Hnp & _).
  exists w'. split; [exact Hrun|]. split; [exact Hpl | exact Hnp].
Defined.

(** A call of [start_playback] that fails before it reaches the player
    changes neither the player nor the state: a record without a URL
    raises [KeyError] and a URL that yt-dlp cannot resolve raises its
    error, both with the world as it was; a failed connection raises with
    the clients and the state as they were. *)
Theorem start_playback_fails_before_player (w : World) (now : Q) (tr : track) :
  tr <> [] ->
  (dict_get "url" tr = None ->
     start_playback (Some tr) now w = (Raise (KeyError "url"), w)) /\
  (forall u,
     str_item "url" tr = Ok u ->
     dict_get u (_ytdlp_cache w) = None ->
     extract_info w u = None ->
     start_playback (Some tr) now w = (Raise ExtractorError, w)) /\
  (forall u info w1 e w2,
     str_item "url" tr = Ok u ->
     ytdlp_info u w = (Ok info, w1) ->
     ensure_join w1 = (Raise e, w2) ->
     start_playback (Some tr) now w = (Raise e, w2) /\
     voice_clients w2 = voice_clients w /\
     PLAYING_STATE w2 = PLAYING_STATE w).
Proof.
  intros Hne. destruct tr as [|f fs]; [congruence|].
  split; [|split].
  - intros Hn. unfold start_playback, start_playback_begin, bind, lift, str_item.
    now rewrite Hn.
  - intros u Hu Hc He.
    unfold start_playback, start_playback_begin, bind at 1 2, lift.
    rewrite Hu. unfold ytdlp_info, bind, get, raise. simpl.
    now rewrite Hc, He.
  - intros u info w1 e w2 Hu Hi Hj.
    split.
    + unfold start_playback, start_playback_begin, bind, lift.
      now rewrite Hu, Hi, Hj.
    + destruct (ytdlp_info_any _ _ _ _ Hi) as [Hs1 Hv1].
      destruct (ensure_join_any _ _ _ Hj) as (Hs2 & [[Hv2 _] | (_ & c & Hc & _)]).
      * split; congruence.
      * discriminate.
Qed.

Lemma start_playback_fails_before_player_witness :
  start_playback (Some [("title", JStr "abc")]) 100 demo_world
    = (Raise (KeyError "url"), demo_world) /\
  start_playback (Some (demo_track "abc")) 100 offline_world
    = (Raise ExtractorError, offline_world).
Proof.
  assert (H1 : [("title", JStr "abc")] <> ([] : track)) by discriminate.
  assert (H2 : demo_track "abc" <> []) by discriminate.
  split.
  - exact (proj1 (start_playback_fails_before_player demo_world 100 _ H1) eq_refl).
  - exact (proj1 (proj2 (start_playback_fails_before_player offline_world 100 _ H2))
             "https://youtu.be/abc" eq_refl eq_refl eq_refl).
Defined.

(** [ytdlp_info] asks yt-dlp once per URL: after a successful call the
    answer is in the cache, every entry that was there still is, and a
    later call for the same URL returns the same metadata without
    consulting yt-dlp and without changing anything, whatever yt-dlp
    would say by then. *)
Theorem ytdlp_info_memoized (url : string) (w w1 : World) (info : Info) :
  ytdlp_info url w = (Ok info, w1) ->
  dict_get url (_ytdlp_cache w1) = Some info /\
  (forall url' info', dict_get url' (_ytdlp_cache w) = Some info' ->
                      dict_get url' (_ytdlp_cache w1) = Some info') /\
  (forall w2, _ytdlp_cache w2 = _ytdlp_cache w1 ->
              ytdlp_info url w2 = (Ok info, w2)).
Proof.
  intros H.
  assert (Hc : dict_get url (_ytdlp_cache w1) = Some info /\
               forall url' info', dict_get url' (_ytdlp_cache w) = Some info' ->
                                  dict_get url' (_ytdlp_cache w1) = Some info').
  { revert H. unfold ytdlp_info, bind, get, ret, raise, set_cache. simpl.
    destruct (dict_get url (_ytdlp_cache w)) as [i|] eqn:Hg.
    - intros [= <- <-]. auto.
    - destruct (extract_info w url) as [i|]; [|discriminate].
      intros [= <- <-]. simpl. split; [apply dict_get_set_same|].
      intros url' info' Hg'.
      destruct (String.eqb_spec url' url) as [->|Hne]; [congruence|].
      now rewrite dict_get_set_other. }
  destruct Hc as [Hc1 Hc2]. split; [exact Hc1|]. split; [exact Hc2|].
  intros w2 Hw2. unfold ytdlp_info, bind, get, ret. simpl.
  now rewrite Hw2, Hc1.
Qed.

Lemma ytdlp_info_memoized_witness :
  ytdlp_info "https://youtu.be/abc" (cache_only (snd (ytdlp_info "https://youtu.be/abc" demo_world)))
  = (Ok demo_info,
     cache_only (snd (ytdlp_info "https://youtu.be/abc" demo_world))).
Proof.
  exact (proj2 (proj2 (ytdlp_info_memoized "https://youtu.be/abc" demo_world
                         (snd (ytdlp_info "https://youtu.be/abc" demo_world))
                         demo_info eq_refl))
           (cache_only (snd (ytdlp_info "https://youtu.be/abc" demo_world)))
           eq_refl).
Defined.

(** [ensure_join] connects at most once: the client it returns is the
    first of the client list afterwards, a second call returns the same
    client and changes nothing, a world that had a client is left as it
    was, and a client that was connected by the call is idle and alone. *)
Theorem ensure_join_connects_once (w w1 : World) (vc : VoiceClient) :
  ensure_join w = (Ok (Some vc), w1) ->
  ensure_join w1 = (Ok (Some vc), w1) /\
  (voice_clients w <> [] -> w1 = w) /\
  (voice_clients w = [] -> voice_clients w1 = [vc] /\ vc_player vc = Idle).
Proof.
  intros H.
  destruct (ensure_join_some _ _ _ H) as (_ & rest & Hv1).
  split; [|split].
  - unfold ensure_join, bind, get, ret. simpl. now rewrite Hv1.
  - intros Hne. revert H. unfold ensure_join, bind at 1, get at 1. simpl.
    destruct (voice_clients w); [congruence|].
    unfold ret. now intros [= _ <-].
  - intros He.
    destruct (ensure_join_any _ _ _ H) as (_ & [[Hv Hex] | (_ & c & Hc & Hv)]).
    + destruct Hex as [r Hr]. congruence.
    + injection Hc as ->. auto.
Qed.

Lemma ensure_join_connects_once_witness :
  ensure_join away_world
    = (Ok (Some (mkVoiceClient 5 Idle)), snd (ensure_join away_world)) /\
  ensure_join (snd (ensure_join away_world))
    = (Ok (Some (mkVoiceClient 5 Idle)), snd (ensure_join away_world)).
Proof.
  assert (H : ensure_join away_world
              = (Ok (Some (mkVoiceClient 5 Idle)), snd (ensure_join away_world)))
    by reflexivity.
  split; [exact H|].
  exact (proj1 (ensure_join_connects_once away_world _ (mkVoiceClient 5 Idle) H)).
Defined.

(** With no client yet and a configured [VOICE_ID] that names a voice
    channel, [ensure_join] does what connecting to that channel does,
    wherever the target user sits: when that connection fails the call
    raises and does not try the user's channel. *)
Theorem ensure_join_voice_id_first (w : World) (ch : Channel) :
  voice_clients w = [] ->
  VOICE_ID w <> 0 ->
  get_channel (VOICE_ID w) w = Some ch ->
  ch_is_voice ch = true ->
  ch_id ch = VOICE_ID w /\
  ensure_join w = connect ch w /\
  (ch_connectable ch = false -> ensure_join w = (Raise ClientException, w)).
Proof.
  intros Hv Hid Hch Hvoice.
  assert (E : ensure_join w = connect ch w).
  { unfold ensure_join, bind at 1, get at 1. simpl. rewrite Hv.
    apply Z.eqb_neq in Hid. now rewrite Hid, Hch, Hvoice. }
  split; [|split; [exact E|]].
  - unfold get_channel in Hch. apply find_some in Hch as [_ Hb].
    now apply Z.eqb_eq in Hb.
  - intros Hc. rewrite E. unfold connect. now rewrite Hc.
Qed.

Lemma ensure_join_voice_id_first_witness :
  ensure_join away_world = connect (mkChannel 5 true [] true) away_world.
Proof.
  assert (H : VOICE_ID away_world <> 0) by discriminate.
  exact (proj1 (proj2 (ensure_join_voice_id_first away_world
                         (mkChannel 5 true [] true) eq_refl H eq_refl eq_refl))).
Defined.

(** [pause_toggle] on a paused player whose state holds no pause time
    (as after [clear]) resumes the player and then raises [TypeError] on
    [time.time() - None]: the stream runs again while the state is what it
    was. *)
Theorem resume_without_pause_time (w : World) (now : Q) (vc : VoiceClient)
        (rest : list VoiceClient) (src : string) :
  voice_clients w = vc :: rest ->
  vc_player vc = Paused src ->
  pause_at (PLAYING_STATE w) = None ->
  exists w',
    pause_toggle now w = (Raise TypeError, w') /\
    voice_clients w' = mkVoiceClient (vc_channel vc) (Playing src) :: rest /\
    PLAYING_STATE w' = PLAYING_STATE w.
Proof.
  intros Hv Hp Hpa.
  unfold pause_toggle, bind at 1, get at 1. simpl. rewrite Hv.
  unfold vc_is_playing, vc_is_paused. rewrite Hp.
  run_world. rewrite Hv. simpl. unfold vc_resume. rewrite Hp, Hpa. simpl.
  eexists. split; [reflexivity|]. split; reflexivity.
Qed.

(** The state of the hypothesis is one the running program reaches: a
    second track is asked for while the first plays, and Pause/Resume is
    pressed while that call sleeps. *)
Lemma resume_without_pause_time_witness :
  reachable startup restart_asleep /\
  exists w',
    pause_toggle (1201 # 10) (loop_world restart_asleep) = (Raise TypeError, w') /\
    first_player w' = Some (Playing "https://cdn/stream").
Proof.
  split.
  - unfold restart_asleep.
    repeat (eapply reach_step;
            [| apply run_start_step; [reflexivity|]; unfold Qle; simpl; lia]).
    apply reach_here.
  - destruct (resume_without_pause_time (loop_world restart_asleep) (1201 # 10)
                (mkVoiceClient 7 (Paused "https://cdn/stream")) []
                "https://cdn/stream" eq_refl eq_refl eq_refl)
      as (w' & Hrun & Hv & _).
    exists w'. split; [exact Hrun|]. unfold first_player. now rewrite Hv.
Defined.

(** [leave_voice] with a client connected drops the first client and
    forgets the track: nothing counts as playing, the elapsed time reads 0,
    and when no client is left a later [pause_toggle] does nothing. *)
Theorem leave_voice_forgets_track (w : World) (vc : VoiceClient)
        (rest : list VoiceClient) :
  voice_clients w = vc :: rest ->
  exists w',
    leave_voice w = (Ok tt, w') /\
    voice_clients w' = rest /\
    PLAYING_STATE w' = clear (PLAYING_STATE w) /\
    (forall t, elapsed w' t = Ok 0) /\
    (rest = [] -> forall t, pause_toggle t w' = (Ok tt, w')).
Proof.
  intros Hv. unfold leave_voice, bind at 1, get at 1. simpl. rewrite Hv.
  run_world. eexists. split; [reflexivity|]. simpl.
  split; [reflexivity|]. split; [reflexivity|]. split; [reflexivity|].
  intros -> t. reflexivity.
Qed.

Lemma leave_voice_forgets_track_witness :
  exists w',
    leave_voice playing_world = (Ok tt, w') /\
    voice_clients w' = [] /\
    elapsed w' 500 = Ok 0 /\
    pause_toggle 500 w' = (Ok tt, w').
Proof.
  destruct (leave_voice_forgets_track playing_world
              (mkVoiceClient 7 (Playing "https://cdn/stream")) [] eq_refl)
    as (w' & Hrun & Hv & _ & He & Ht).
  exists w'. split; [exact Hrun|]. split; [exact Hv|].
  split; [apply He | now apply Ht].
Defined.

End ClientTheorems.

(** ** Serial runs: an instance *)

Section SerialInstance.

Lemma serial_start_at_step tr now l :
  (clock l <= now)%Q -> serial_step l (serial_start_at tr now l).
Proof.
  intros H. unfold serial_start_at.
  destruct (start_playback (Some tr) now (loop_world l)) as [r w'] eqn:E.
  simpl. now apply serial_start with (Some tr) r.
Qed.

Lemma serial_toggle_at_step now l :
  (clock l <= now)%Q -> serial_step l (serial_toggle_at now l).
Proof.
  intros H. unfold serial_toggle_at.
  destruct (pause_toggle now (loop_world l)) as [r w'] eqn:E.
  simpl. now apply serial_toggle with r.
Qed.

Lemma clock_serial_start_at tr now l : clock (serial_start_at tr now l) = now.
Proof. reflexivity. Qed.

Lemma clock_serial_toggle_at now l : clock (serial_toggle_at now l) = now.
Proof. reflexivity. Qed.

Lemma serial_trace_reachable : serial_reachable startup serial_trace.
Proof.
  unfold serial_trace.
  eapply serial_next;
    [|apply serial_start_at_step; rewrite clock_serial_toggle_at;
      unfold Qle; simpl; lia].
  eapply serial_next;
    [|apply serial_toggle_at_step; rewrite clock_serial_toggle_at;
      unfold Qle; simpl; lia].
  eapply serial_next;
    [|apply serial_toggle_at_step; rewrite clock_serial_start_at;
      unfold Qle; simpl; lia].
  eapply serial_next;
    [|apply serial_start_at_step; unfold Qle; simpl; lia].
  apply serial_here.
Qed.

Lemma serial_runs_keep_elapsed_nonneg_witness :
  exists z, elapsed (loop_world serial_trace) 130 = Ok z /\ (0 <= z)%Z.
Proof.
  assert (Hc : (clock serial_trace <= 130)%Q) by (unfold Qle; simpl; lia).
  destruct (serial_runs_keep_elapsed_nonneg startup serial_trace
              startup_world_ok serial_trace_reachable 130 Hc)
    as (z & Hz & Hpos & _).
  exists z. split; [exact Hz | exact Hpos].
Defined.

End SerialInstance.

(** ** [fmt] *)

Section Fmt.

Lemma pad2_two_digits (k : Z) :
  0 <= k < 60 -> String.length (pad2 k) = 2%nat.
Proof.
  intros Hk.
  assert (H : forall n, (n < 60)%nat -> String.length (pad2 (Z.of_nat n)) = 2%nat).
  { intros n Hn. do 60 (destruct n as [|n]; [reflexivity|]). lia. }
  rewrite <- (Z2Nat.id k) by lia. apply H. lia.
Qed.

(** [fmt] shows a clock reading.  With [n] the whole seconds of the
    argument, negative values read as 0: below an hour the text is the
    minutes and the seconds on two digits each, five characters in all;
    from an hour on it is the hours, over all the days, then minutes and
    seconds; and from a thousand million days on [fmt] has no text to give
    and raises. *)
Theorem fmt_reads_as_clock (x : Q) (n : Z) :
  n = Z.max 0 (py_int x) ->
  (n < 3600 ->
     fmt x = Some (pad2 (n / 60) ++ ":" ++ pad2 (n mod 60)) /\
     String.length (pad2 (n / 60) ++ ":" ++ pad2 (n mod 60)) = 5%nat) /\
  (3600 <= n < 86400 * 1000000000 ->
     fmt x = Some (str_int (n / 3600) ++ ":" ++ pad2 (n / 60 mod 60)
                   ++ ":" ++ pad2 (n mod 60))) /\
  (86400 * 1000000000 <= n -> fmt x = None).
Proof.
  intros Hn.
  assert (H0 : 0 <= n) by lia.
  unfold fmt, timedelta. rewrite <- Hn. clear Hn x.
  split; [|split].
  - intros Hlt.
    assert (Hd : n / 86400 = 0) by (apply Z.div_small; lia).
    assert (Hm : n mod 86400 = n) by (apply Z.mod_small; lia).
    rewrite Hd, Hm. simpl.
    assert (Hh : n / 3600 = 0) by (apply Z.div_small; lia).
    assert (Hr : n mod 3600 = n) by (apply Z.mod_small; lia).
    rewrite Hh, Hr. simpl. split; [reflexivity|].
    rewrite str_length_app. simpl.
    rewrite !pad2_two_digits; [reflexivity| |].
    + apply Z.mod_pos_bound. lia.
    + split; [apply Z.div_pos; lia | apply Z.div_lt_upper_bound; lia].
  - intros [Hge Hlt].
    assert (Hb : (-999999999 <=? n / 86400) && (n / 86400 <=? 999999999) = true).
    { apply andb_true_iff. split; apply Z.leb_le.
      - assert (0 <= n / 86400) by (apply Z.div_pos; lia). lia.
      - assert (n / 86400 < 1000000000) by (apply Z.div_lt_upper_bound; lia). lia. }
    rewrite Hb.
    assert (Hne : negb (n / 86400 =? 0) || negb (n mod 86400 / 3600 =? 0) = true).
    { destruct (Z.eqb_spec (n / 86400) 0) as [E1|]; [|reflexivity].
      destruct (Z.eqb_spec (n mod 86400 / 3600) 0) as [E2|]; [|reflexivity].
      exfalso. Z.div_mod_to_equations. lia. }
    rewrite Hne.
    assert (E1 : n / 86400 * 24 + n mod 86400 / 3600 = n / 3600)
      by (Z.div_mod_to_equations; lia).
    assert (E2 : (n mod 86400) mod 3600 / 60 = n / 60 mod 60)
      by (Z.div_mod_to_equations; lia).
    assert (E3 : ((n mod 86400) mod 3600) mod 60 = n mod 60)
      by (Z.div_mod_to_equations; lia).
    now rewrite E1, E2, E3.
  - intros Hge.
    assert (Hb : (n / 86400 <=? 999999999) = false).
    { apply Z.leb_gt.
      assert (1000000000 <= n / 86400) by (apply Z.div_le_lower_bound; lia). lia. }
    now rewrite Hb, andb_false_r.
Qed.

Lemma fmt_reads_as_clock_witness :
  fmt 75 = Some "01:15" /\ fmt (-3) = Some "00:00" /\
  fmt (7384 # 1) = Some "2:03:04" /\ fmt (1807999 # 10) = Some "50:13:19".
Proof.
  assert (H1 : 75 < 3600) by lia.
  assert (H2 : 0 < 3600) by lia.
  assert (H3 : 3600 <= 7384 < 86400 * 1000000000) by lia.
  assert (H4 : 3600 <= 180799 < 86400 * 1000000000) by lia.
  split; [|split; [|split]].
  - exact (proj1 (proj1 (fmt_reads_as_clock 75 75 eq_refl) H1)).
  - exact (proj1 (proj1 (fmt_reads_as_clock (-3) 0 eq_refl) H2)).
  - exact (proj1 (proj2 (fmt_reads_as_clock (7384 # 1) 7384 eq_refl)) H3).
  - exact (proj1 (proj2 (fmt_reads_as_clock (1807999 # 10) 180799 eq_refl)) H4).
Defined.

End Fmt.

(** ** [youtube_id] *)

Section YoutubeId.


Lemma strip_prefix_spec (p s r : string) :
  strip_prefix p s = Some r -> s = p ++ r.
Proof.
  revert s. induction p as [|a p IH]; intros s H; simpl in H.
  - now injection H as ->.
  - destruct s as [|b s]; [discriminate|].
    destruct (Ascii.eqb_spec a b) as [->|]; [|discriminate].
    simpl. now rewrite (IH _ H).
Qed.

Lemma take_id_spec (n : nat) (s t : string) :
  take_id n s = Some t ->
  String.length t = n /\
  forallb id_char (list_ascii_of_string t) = true /\
  exists post, s = t ++ post.
Proof.
  revert s t. induction n as [|n IH]; intros s t H; simpl in H.
  - injection H as <-. repeat split. now exists s.
  - destruct s as [|c r]; [discriminate|].
    destruct (id_char c) eqn:Hc; [|discriminate].
    destruct (take_id n r) as [t'|] eqn:Ht; [|discriminate].
    injection H as <-. destruct (IH _ _ Ht) as (Hl & Hall & post & ->).
    simpl. rewrite Hl, Hc, Hall. repeat split. now exists post.
Qed.

Lemma take_id_exact (id rest : string) :
  forallb id_char (list_ascii_of_string id) = true ->
  take_id (String.length id) (id ++ rest) = Some id.
Proof.
  induction id as [|c id IH]; simpl; [reflexivity|].
  intros H. apply andb_true_iff in H as [Hc Hall].
  now rewrite Hc, (IH Hall).
Qed.

Lemma youtube_id_here (s id : string) :
  match_here s = Some id -> youtube_id s = Some id.
Proof.
  intros H. destruct s as [|c r]; [discriminate|].
  cbn [youtube_id]. now rewrite H.
Qed.

Lemma youtube_id_skip (c : ascii) (r : string) :
  match_here (String c r) = None -> youtube_id (String c r) = youtube_id r.
Proof. intros H. cbn [youtube_id]. now rewrite H. Qed.

(** What [youtube_id] returns is eleven characters of the class
    [[A-Za-z0-9_-]] that stand in the URL right after [v=] or after a
    slash. *)
Theorem youtube_id_sound (url id : string) :
  youtube_id url = Some id ->
  String.length id = 11%nat /\
  forallb id_char (list_ascii_of_string id) = true /\
  exists pre post, url = pre ++ "v=" ++ id ++ post \/ url = pre ++ "/" ++ id ++ post.
Proof.
  assert (Hm : forall s, match_here s = Some id ->
             String.length id = 11%nat /\
             forallb id_char (list_ascii_of_string id) = true /\
             exists post, s = "v=" ++ id ++ post \/ s = "/" ++ id ++ post).
  { intros s H. unfold match_here in H.
    destruct (strip_prefix "v=" s) as [r|] eqn:Hv.
    - destruct (take_id 11 r) as [t|] eqn:Ht.
      + injection H as ->. destruct (take_id_spec _ _ _ Ht) as (Hl & Hall & post & ->).
        split; [exact Hl|]. split; [exact Hall|]. exists post. left.
        exact (strip_prefix_spec _ _ _ Hv).
      + destruct (strip_prefix "/" s) as [r'|] eqn:Hs; [|discriminate].
        destruct (take_id_spec _ _ _ H) as (Hl & Hall & post & ->).
        split; [exact Hl|]. split; [exact Hall|]. exists post. right.
        exact (strip_prefix_spec _ _ _ Hs).
    - destruct (strip_prefix "/" s) as [r'|] eqn:Hs; [|discriminate].
      destruct (take_id_spec _ _ _ H) as (Hl & Hall & post & ->).
      split; [exact Hl|]. split; [exact Hall|]. exists post. right.
      exact (strip_prefix_spec _ _ _ Hs). }
  induction url as [|c url IH]; intros H.
  - discriminate.
  - cbn [youtube_id] in H. destruct (match_here (String c url)) eqn:E.
    + injection H as ->. destruct (Hm _ E) as (Hl & Hall & post & Hp).
      split; [exact Hl|]. split; [exact Hall|]. now exists "", post.
    + destruct (IH H) as (Hl & Hall & pre & post & Hp).
      split; [exact Hl|]. split; [exact Hall|].
      exists (String c pre), post. simpl. destruct Hp as [->| ->]; auto.
Qed.

Lemma youtube_id_sound_witness :
  String.length "dQw4w9WgXcQ" = 11%nat /\
  forallb id_char (list_ascii_of_string "dQw4w9WgXcQ") = true /\
  exists pre post,
    "https://music.youtube.com/watch?v=dQw4w9WgXcQ&t=3"
      = pre ++ "v=" ++ "dQw4w9WgXcQ" ++ post \/
    "https://music.youtube.com/watch?v=dQw4w9WgXcQ&t=3"
      = pre ++ "/" ++ "dQw4w9WgXcQ" ++ post.
Proof.
  exact (youtube_id_sound "https://music.youtube.com/watch?v=dQw4w9WgXcQ&t=3"
           "dQw4w9WgXcQ" eq_refl).
Defined.

(** The two usual forms of a video URL give the video's id, whatever
    follows it: the short link and the watch page. *)
Theorem youtube_id_of_video_url (id rest : string) :
  String.length id = 11%nat ->
  forallb id_char (list_ascii_of_string id) = true ->
  youtube_id ("https://youtu.be/" ++ id ++ rest) = Some id /\
  youtube_id ("https://www.youtube.com/watch?v=" ++ id ++ rest) = Some id.
Proof.
  intros Hl Hall.
  pose proof (take_id_exact id rest Hall) as Ht. rewrite Hl in Ht.
  split; cbn [append].
  - repeat (rewrite youtube_id_skip by reflexivity).
    apply youtube_id_here. unfold match_here. cbn [strip_prefix Ascii.eqb Bool.eqb].
    now rewrite Ht.
  - repeat (rewrite youtube_id_skip by reflexivity).
    apply youtube_id_here. unfold match_here. cbn [strip_prefix Ascii.eqb Bool.eqb].
    now rewrite Ht.
Qed.

Lemma youtube_id_of_video_url_witness :
  youtube_id "https://youtu.be/dQw4w9WgXcQ?t=42" = Some "dQw4w9WgXcQ" /\
  youtube_id "https://www.youtube.com/watch?v=dQw4w9WgXcQ&list=x"
    = Some "dQw4w9WgXcQ".
Proof.
  split.
  - exact (proj1 (youtube_id_of_video_url "dQw4w9WgXcQ" "?t=42" eq_refl eq_refl)).
  - exact (proj2 (youtube_id_of_video_url "dQw4w9WgXcQ" "&list=x" eq_refl eq_refl)).
Defined.

End YoutubeId.

(** ** The end of a track, continued *)

Section EndOfTrackMore.

(** In mode [loop] the track that is current is asked for again and
    nothing else changes; with no current track the policy is that of
    [stop]: the halt coroutine is submitted and the state is cleared. *)
Theorem on_track_end_loop (a : App) :
  mode_var a = "loop" ->
  (forall tr, current_track a = Some tr -> tr <> [] ->
     on_track_end a = [(Ok tt, after_replay a tr)]) /\
  (truthy_track (current_track a) = false ->
     on_track_end a = [(Ok tt, after_stop a)]).
Proof.
  intros Hm. split.
  - intros tr Hc Hne. unfold on_track_end, g_bind at 1, g_get at 1. simpl.
    rewrite Hm, Hc. destruct tr as [|f fs]; [congruence|]. reflexivity.
  - intros Hc. unfold on_track_end, g_bind at 1, g_get at 1. simpl.
    rewrite Hm, Hc. reflexivity.
Qed.

Lemma on_track_end_loop_witness :
  on_track_end (demo_app "loop")
    = [(Ok tt, after_replay (demo_app "loop") (demo_track "t2"))] /\
  on_track_end solo_loop_app = [(Ok tt, after_stop solo_loop_app)].
Proof.
  assert (H : demo_track "t2" <> []) by discriminate.
  split.
  - exact (proj1 (on_track_end_loop (demo_app "loop") eq_refl) _ eq_refl H).
  - exact (proj2 (on_track_end_loop solo_loop_app eq_refl) eq_refl).
Defined.

Lemma track_over_true (st : PlayingState) (now : Q) :
  track_over st now = true ->
  is_playing st = true /\ truthy_bool (paused st) = false /\
  exists e dur s0,
    shown_elapsed st now = Ok e /\ duration st = Some dur /\
    start_time st = Some s0 /\
    negb (dur =? 0) && (dur <=? e) && negb (truthy_bool (paused st)) = true.
Proof.
  unfold track_over. intros H. apply andb_true_iff in H as [Hp H].
  destruct (shown_elapsed st now) as [e|] eqn:He; [|discriminate].
  destruct (duration st) as [dur|]; [|discriminate].
  pose proof H as Hc.
  apply andb_true_iff in H as [_ Hf]. apply negb_true_iff in Hf.
  split; [exact Hp|]. split; [exact Hf|].
  unfold shown_elapsed, elapsed_seconds in He. rewrite Hp, Hf in He. simpl in He.
  destruct (start_time st) as [s0|]; [|discriminate].
  exists e, dur, s0. auto.
Qed.

Lemma tick_debounced (later now : Q) (a : App) (st0 : PlayingState) :
  PLAYING_STATE (world a) = debounced st0 now ->
  (is_playing st0 = false \/
   exists s0 d, start_time st0 = Some s0 /\ duration st0 = Some d) ->
  preview_settled st0 = true ->
  tick later a = [(Ok tt, a)].
Proof.
  intros Hst Hc Hset. unfold tick, g_bind at 1, g_get at 1. simpl. rewrite Hst.
  change (is_playing (debounced st0 now)) with (is_playing st0).
  destruct (is_playing st0) eqn:Hp; [|reflexivity].
  destruct Hc as [|(s0 & d & Hs & Hd)]; [discriminate|].
  unfold g_bind at 1, g_result, shown_elapsed, elapsed_seconds.
  change (is_playing (debounced st0 now)) with (is_playing st0).
  rewrite Hp. simpl. rewrite Hs, Hd. simpl.
  rewrite !andb_false_r.
  unfold g_bind at 1, g_ret. simpl. rewrite !app_nil_r.
  unfold show_preview, g_bind, g_get. simpl. rewrite Hst.
  unfold preview_settled in Hset. simpl.
  destruct (preview_loaded st0); [reflexivity|].
  rewrite Hset. reflexivity.
Qed.

(** [tick] runs the end-of-track policy once per track.  When the test
    fails, [tick] does not run it: it changes nothing, but for the flag
    [preview_loader_started], which it sets on a playing track that has no
    preview and no loader yet.  When the test holds and [tick] returns,
    the pause flag and the pause time have been written, and a later
    [tick] finds the test failing and changes nothing, until
    [start_playback] or [pause_toggle] writes the state again. *)
Theorem tick_runs_policy_once (now : Q) (a : App) :
  (track_over (PLAYING_STATE (world a)) now = false ->
     forall r a', In (r, a') (tick now a) ->
       a' = a \/
       (a' = loader_marked a /\ r = Ok tt /\
        is_playing (PLAYING_STATE (world a)) = true /\
        preview_settled (PLAYING_STATE (world a)) = false)) /\
  (track_over (PLAYING_STATE (world a)) now = true ->
     forall a', In (Ok tt, a') (tick now a) ->
       paused (PLAYING_STATE (world a')) = Some true /\
       pause_at (PLAYING_STATE (world a')) = Some now /\
       forall later,
         track_over (PLAYING_STATE (world a')) later = false /\
         tick later a' = [(Ok tt, a')]).
Proof.
  split.
  - unfold track_over, tick, g_bind at 1, g_get at 1. simpl. rewrite app_nil_r.
    destruct (is_playing (PLAYING_STATE (world a))); simpl;
      [|intros _ r a' [[= _ <-]|[]]; left; reflexivity].
    unfold g_bind at 1, g_result at 1. simpl. rewrite app_nil_r.
    destruct (shown_elapsed (PLAYING_STATE (world a)) now) as [e|ex];
      [|intros _ r a' [[= _ <-]|[]]; left; reflexivity].
    destruct (duration (PLAYING_STATE (world a))) as [dur|];
      [|intros _ r a' [[= _ <-]|[]]; left; reflexivity].
    intros ->. intros r a' Hin.
    unfold g_bind at 1, g_ret in Hin. simpl in Hin. rewrite app_nil_r in Hin.
    destruct (show_preview_cases _ _ _ Hin) as [-> Hcase].
    destruct (preview_settled (PLAYING_STATE (world a))); auto.
  - intros Hover a' Hin.
    destruct (track_over_true _ _ Hover) as (Hp & Hf & e & dur & s0 & He & Hd & Hs & Hc).
    unfold tick, g_bind at 1, g_get at 1 in Hin. simpl in Hin.
    rewrite app_nil_r, Hp in Hin.
    unfold g_bind at 1, g_result at 1 in Hin. simpl in Hin.
    rewrite app_nil_r, He, Hd, Hc in Hin.
    unfold g_bind at 1 in Hin.
    apply in_flat_map in Hin as ([[[]|ex] a1] & Hin1 & Hin2);
      [|destruct Hin2 as [[=]|[]]].
    unfold g_bind at 1 in Hin1.
    apply in_flat_map in Hin1 as ([[[]|ex] a0] & Hin0 & Hin1);
      [|destruct Hin1 as [[=]|[]]].
    apply on_track_end_world in Hin0.
    unfold g_bind, modify_playing_state in Hin1. simpl in Hin1.
    destruct Hin1 as [[= <-]|[]].
    assert (Hst : exists st0,
               PLAYING_STATE (world a') = debounced st0 now /\
               (is_playing st0 = false \/
                exists s1 d, start_time st0 = Some s1 /\ duration st0 = Some d) /\
               preview_settled st0 = true).
    { destruct (show_preview_cases _ _ _ Hin2) as [_ Hcase]. simpl in Hcase.
      match type of Hcase with
      | if preview_settled ?s then _ else _ =>
          destruct (preview_settled s) eqn:Hset
      end; subst a'.
      - exists (PLAYING_STATE (world a0)). split; [reflexivity|].
        split; [|exact Hset].
        destruct Hin0 as [-> | ->]; [right; eauto | left; reflexivity].
      - exists (loader_started (PLAYING_STATE (world a0))).
        split; [reflexivity|]. split.
        + destruct Hin0 as [-> | ->]; [right; simpl; eauto | left; reflexivity].
        + unfold preview_settled in *. simpl in *.
          destruct (preview_loaded (PLAYING_STATE (world a0)));
            [discriminate | reflexivity]. }
    destruct Hst as (st0 & Hst0 & Hcase & Hset).
    rewrite Hst0. split; [reflexivity|]. split; [reflexivity|].
    intros later. split.
    + set (st' := debounced st0 now).
      assert (Hpa : truthy_bool (paused st') = true) by reflexivity.
      unfold track_over.
      destruct (is_playing st'); [|reflexivity].
      destruct (shown_elapsed st' later); [|reflexivity].
      destruct (duration st'); [|reflexivity].
      rewrite Hpa. simpl. now rewrite andb_false_r.
    + now apply (tick_debounced later now _ st0).
Qed.

Lemma tick_runs_policy_once_witness :
  tick 400 (demo_app "next") = [(Ok tt, after_tick)] /\
  tr_tv_selection after_tick = [0] /\
  tick 401 after_tick = [(Ok tt, after_tick)].
Proof.
  assert (Hrun : tick 400 (demo_app "next") = [(Ok tt, after_tick)])
    by (vm_compute; reflexivity).
  assert (Hin : In (Ok tt, after_tick) (tick 400 (demo_app "next")))
    by (rewrite Hrun; left; reflexivity).
  assert (Hover : track_over (PLAYING_STATE (world (demo_app "next"))) 400 = true)
    by (vm_compute; reflexivity).
  destruct (proj2 (tick_runs_policy_once 400 (demo_app "next")) Hover _ Hin)
    as (_ & _ & Hlater).
  split; [exact Hrun|]. split; [vm_compute; reflexivity|].
  exact (proj2 (Hlater 401%Q)).
Defined.

End EndOfTrackMore.

(** ** The track tree *)


Section TrackTree.


Lemma g_bind_raise {A B : Type} (m : G A) (k : A -> G B) (a a1 : App) (e : exn) :
  m a = [(Raise e, a1)] -> g_bind m k a = [(Raise e, a1)].
Proof. intros H. unfold g_bind. now rewrite H. Qed.











End TrackTree.

Section TrackTreeTheorems.





End TrackTreeTheorems.

(** ** The edit buttons *)

Section EditButtons.








End EditButtons.

Section EditButtonsMore.



End EditButtonsMore.

(** ** The playlist listbox *)

Section PlaylistListbox.







End PlaylistListbox.
